(** * xdi: marker algebra, dependency records and scope resolution

    A shallow embedding of the parts of [xdi/markers.py],
    [xdi/_dependency.py] and [xdi/scopes.py] that the specification's
    testable properties talk about.

    Python objects are modelled by inductive values.  Where the source
    returns [NotImplemented] the model returns [None]; where it raises,
    the model returns [Raise e]. *)

From stdpp Require Import base option list sorting gmap strings.
From Stdlib Require Import ZArith Lia.

Local Open Scope Z_scope.

Set Default Proof Using "Type".

(** ** Python results *)

(** The exceptions: the two the interpreter raises in the code
    modelled here, and any other one a user function raises, named by a
    number. *)
Inductive Exc :=
| TypeError
| ValueError
| OtherError (n : nat).

Inductive Res (A : Type) :=
| Ok (a : A)
| Raise (e : Exc).
Arguments Ok {A} a.
Arguments Raise {A} e.

#[global] Instance res_ret : MRet Res := fun _ a => Ok a.
#[global] Instance res_bind : MBind Res := fun _ _ k m =>
  match m with
  | Ok a => k a
  | Raise e => Raise e
  end.

(** Containers and scopes are objects compared by identity; the model
    names them by a number. *)
Definition Container := nat.
Definition ScopeId := nat.

Module Markers.

Inductive AccessLevel := public | protected | guarded | private.

(** A bound of a [ProSlice]: [None], an integer, or a container. *)
Inductive SliceBound :=
| BNone
| BInt (z : Z)
| BCont (c : Container).

(** One constructor per concrete predicate class.  [ProEnumPredicate]
    members carry the enum value ([AccessLevel]: 1..4, [ScopePredicate]:
    [only_self = True], [skip_self = False]); the operator predicates
    carry the two operands their builders pass to [ProPredicate.__new__];
    [ProInvertPredicate.__new__] stores [(_noop_pred, right)], so only
    [right] is kept here and [vars] puts the noop back; a filter function
    is named by a number, as functions compare by identity.
    [ProSlice start stop step] is the object whose [vars] are these
    three, the receiver of [ProSlice.pro_entries]; what the constructor
    does is [ProSlice__new__] below. *)
Inductive ProPred :=
| PAccess (a : AccessLevel)
| PScope (only_self : bool)
| ProNoopPredicate
| ProOrPredicate (l r : ProPred)
| ProAndPredicate (l r : ProPred)
| ProSubPredicate (l r : ProPred)
| ProInvertPredicate (right : ProPred)
| ProSlice (start stop : SliceBound) (step : option Z)
| ProFilter (fn : nat) (extra_args : Z).

(** The objects markers are built from and compared with: an object
    with the default, identity based [__eq__] and [__hash__] (a class, a
    function, a type variable), named by a number; the [Missing]
    sentinel; a [PureDep] with its [_ident]; a [Dep] with the three items
    of its [_ident] tuple. *)
Inductive Obj :=
| Plain (n : nat)
| Missing
| PureDepO (_ident : Obj)
| DepO (abstract : Obj) (predicate : ProPred) (default : Obj).

(** [class DepSrc(NamedTuple)] (lines 431-434). *)
Record DepSrc := mkDepSrc {
  src_container : option Container;
  src_scope : option ScopeId;
  src_predicate : ProPred
}.

(** The extra arguments [(scope, src)] of [pro_entries]. *)
Inductive ExtraArg :=
| AScope (s : ScopeId)
| ASrc (src : DepSrc).









Section Markers.

(** What the interpreter and the modules missing from the sources
    supply: the builtin [hash] on objects hashed by identity, on [None],
    on the [Missing] sentinel, on integers and on tuples of already
    hashed items; [Container.access_level(from_container)]; the
    functions wrapped by [ProFilter], called with the container and the
    extra arguments.  Such a call returns a truth value or raises: a
    [TypeError] when the function does not take that many arguments, or
    whatever its body raises.  The functions are taken to be functions
    of their arguments: the same call gives the same answer. *)
Variable hash_ref : nat -> Z.
Variable hash_none : Z.
Variable hash_missing : Z.
Variable hash_int : Z -> Z.
Variable hash_tuple : list Z -> Z.
Variable access_level : Container -> option Container -> AccessLevel.
Variable filter_fn : nat -> Container -> list ExtraArg -> Res bool.

(** ** PRO predicates ([markers.py], lines 93-428) *)

Definition level_value (a : AccessLevel) : Z :=
  match a with
  | public => 1
  | protected => 2
  | guarded => 3
  | private => 4
  end.

Definition ONLY_SELF := PScope true.
Definition SKIP_SELF := PScope false.
Definition _noop_pred := ProNoopPredicate.

(** The classes, for [isinstance] and [o.__class__]. *)
Inductive PredClass :=
| CAccess | CScope | CNoop | COr | CAnd | CSub | CInvert | CSlice | CFilter.

Definition class_of (p : ProPred) : PredClass :=
  match p with
  | PAccess _ => CAccess
  | PScope _ => CScope
  | ProNoopPredicate => CNoop
  | ProOrPredicate _ _ => COr
  | ProAndPredicate _ _ => CAnd
  | ProSubPredicate _ _ => CSub
  | ProInvertPredicate _ => CInvert
  | ProSlice _ _ _ => CSlice
  | ProFilter _ _ => CFilter
  end.

Definition class_eqb (c d : PredClass) : bool :=
  match c, d with
  | CAccess, CAccess | CScope, CScope | CNoop, CNoop | COr, COr
  | CAnd, CAnd | CSub, CSub | CInvert, CInvert | CSlice, CSlice
  | CFilter, CFilter => true
  | _, _ => false
  end.

(** [class ProInvertPredicate(ProSubPredicate)] is the only inheritance
    between the concrete predicate classes. *)
Definition issubclass (c d : PredClass) : bool :=
  class_eqb c d ||
  match c, d with
  | CInvert, CSub => true
  | _, _ => false
  end.

Definition isinstance (o : ProPred) (c : PredClass) : bool :=
  issubclass (class_of o) c.

(** The items of a [vars] tuple. *)
Inductive Item :=
| IPred (p : ProPred)
| IInt (z : Z)
| IBool (b : bool)
| INone
| ICont (c : Container)
| IFn (f : nat).

Definition bound_item (b : SliceBound) : Item :=
  match b with
  | BNone => INone
  | BInt z => IInt z
  | BCont c => ICont c
  end.

Definition vars (p : ProPred) : list Item :=
  match p with
  | PAccess a => [IInt (level_value a)]
  | PScope b => [IBool b]
  | ProNoopPredicate => []
  | ProOrPredicate l r => [IPred l; IPred r]
  | ProAndPredicate l r => [IPred l; IPred r]
  | ProSubPredicate l r => [IPred l; IPred r]
  | ProInvertPredicate r => [IPred _noop_pred; IPred r]
  | ProSlice a b s => [bound_item a; bound_item b; from_option IInt INone s]
  | ProFilter f n => [IFn f; IInt n]
  end.

Definition bound_eqb (a b : SliceBound) : bool :=
  match a, b with
  | BNone, BNone => true
  | BInt x, BInt y => x =? y
  | BCont c, BCont d => Nat.eqb c d
  | _, _ => false
  end.

Definition step_eqb (a b : option Z) : bool :=
  match a, b with
  | None, None => true
  | Some x, Some y => x =? y
  | _, _ => false
  end.

(** Python's [x == y] on two predicates.  The interpreter tries
    [x.__eq__(y)] and [y.__eq__(x)] (the second first when [type(y)] is a
    proper subclass of [type(x)]) and, when both give [NotImplemented],
    compares identities.  [x.__eq__(y)] of [_PredicateCompareMixin]
    compares [x.vars == y.vars] when [isinstance(y, x.__class__)], item by
    item and in that order.  The recursion below is on [x]; [swap] says
    which operand the item of [x] is in the item comparison, so that
    [cmp false x y] is [x == y] and [cmp true x y] is [y == x].
    [py_eq_dispatch] below checks this function against the dispatch
    rule written with the [__eq__] method itself. *)
Fixpoint cmp (swap : bool) (x y : ProPred) {struct x} : bool :=
  match x, y with
  | PAccess a, PAccess b => level_value a =? level_value b
  | PScope a, PScope b => Bool.eqb a b
  | ProNoopPredicate, ProNoopPredicate => true
  | ProOrPredicate a b, ProOrPredicate c d => cmp swap a c && cmp swap b d
  | ProAndPredicate a b, ProAndPredicate c d => cmp swap a c && cmp swap b d
  | ProSubPredicate a b, ProSubPredicate c d => cmp swap a c && cmp swap b d
  | ProInvertPredicate b, ProInvertPredicate d => cmp swap b d
  (* mixed Sub/Invert: only the [ProSubPredicate] operand's [__eq__]
     answers, so its items are the left ones *)
  | ProSubPredicate a b, ProInvertPredicate d =>
      cmp false a _noop_pred && cmp false b d
  | ProInvertPredicate b, ProSubPredicate c d =>
      match c with ProNoopPredicate => true | _ => false end && cmp true b d
  | ProSlice a b s, ProSlice c d t =>
      if swap then bound_eqb c a && bound_eqb d b && step_eqb t s
      else bound_eqb a c && bound_eqb b d && step_eqb s t
  | ProFilter f n, ProFilter g m =>
      if swap then Nat.eqb g f && (m =? n) else Nat.eqb f g && (n =? m)
  | _, _ => false
  end.

Definition py_eq (x y : ProPred) : bool := cmp false x y.

(** [tuple.__eq__] on two [vars] tuples, with [py_eq] on predicates. *)
Definition item_eq (a b : Item) : bool :=
  match a, b with
  | IPred p, IPred q => py_eq p q
  | IInt x, IInt y => x =? y
  | IBool x, IBool y => Bool.eqb x y
  | INone, INone => true
  | ICont c, ICont d => Nat.eqb c d
  | IFn f, IFn g => Nat.eqb f g
  | _, _ => false
  end.

Fixpoint tuple_eq (xs ys : list Item) : bool :=
  match xs, ys with
  | [], [] => true
  | x :: xs, y :: ys => item_eq x y && tuple_eq xs ys
  | _, _ => false
  end.

(** [_PredicateCompareMixin.__eq__] (lines 123-126); [None] is
    [NotImplemented]. *)
Definition __eq__ (self o : ProPred) : option bool :=
  if isinstance o (class_of self) then Some (tuple_eq (vars self) (vars o))
  else None.

(** The interpreter's dispatch of [x == y]; two objects of unrelated
    classes are never the same object. *)
Definition rich_eq (x y : ProPred) : bool :=
  let reflected_first :=
    negb (class_eqb (class_of x) (class_of y))
    && issubclass (class_of y) (class_of x) in
  let '(first, second) :=
    if reflected_first then (__eq__ y x, __eq__ x y)
    else (__eq__ x y, __eq__ y x) in
  match first with
  | Some b => b
  | None => default false second
  end.

(** ** [_PredicateOpsMixin] (lines 94-115)

    Every value of [ProPred] is an instance of [ProPredicate], so the
    [isinstance(x, ProPredicate)] guard always passes for such an
    operand. *)
Definition __or__ (self x : ProPred) : ProPred :=
  if py_eq x self then self else ProOrPredicate self x.

Definition __and__ (self x : ProPred) : ProPred :=
  if py_eq x self then self else ProAndPredicate self x.

(** [def __invert__(self, x)] is declared with a second parameter.  The
    arguments the caller passes are given as a list: the unary operator
    [~p] calls [type(p).__invert__(p)] with none, which does not bind
    [x]. *)
Definition __invert__ (self : ProPred) (args : list ProPred)
  : Res ProPred :=
  match args with
  | [x] => Ok (ProInvertPredicate self)
  | _ => Raise TypeError
  end.

(** [~p] *)
Definition op_invert (p : ProPred) : Res ProPred := __invert__ p [].

(** [__hash__ = __forward_op(hash)]: the hash of [self.vars].
    [hash(True) == hash(1)] and [hash(False) == hash(0)]. *)
Definition hash_bool (b : bool) : Z := hash_int (if b then 1 else 0).

Definition hash_bound (b : SliceBound) : Z :=
  match b with
  | BNone => hash_none
  | BInt z => hash_int z
  | BCont c => hash_ref c
  end.

Fixpoint pred_hash (p : ProPred) : Z :=
  match p with
  | PAccess a => hash_tuple [hash_int (level_value a)]
  | PScope b => hash_tuple [hash_bool b]
  | ProNoopPredicate => hash_tuple []
  | ProOrPredicate l r => hash_tuple [pred_hash l; pred_hash r]
  | ProAndPredicate l r => hash_tuple [pred_hash l; pred_hash r]
  | ProSubPredicate l r => hash_tuple [pred_hash l; pred_hash r]
  | ProInvertPredicate r => hash_tuple [hash_tuple []; pred_hash r]
  | ProSlice a b s =>
      hash_tuple [hash_bound a; hash_bound b; from_option hash_int hash_none s]
  | ProFilter f n => hash_tuple [hash_ref f; hash_int n]
  end.

Definition item_hash (i : Item) : Z :=
  match i with
  | IPred p => pred_hash p
  | IInt z => hash_int z
  | IBool b => hash_bool b
  | INone => hash_none
  | ICont c => hash_ref c
  | IFn f => hash_ref f
  end.

(** ** Sequences *)

(** [it.index(c)]: the first position of [c], or [ValueError]. *)
Fixpoint index (it : list Container) (c : Container) : Res nat :=
  match it with
  | [] => Raise ValueError
  | x :: it' => if Nat.eqb x c then Ok 0%nat else k ← index it' c; Ok (S k)
  end.

(** [seq[start:stop:step]] as the interpreter computes it
    ([PySlice_Unpack], [PySlice_AdjustIndices]): a zero step raises
    [ValueError]; bounds are clipped to the sequence. *)
Definition adjust_bound (len step : Z) (is_start : bool) (b : option Z) : Z :=
  match b with
  | None =>
      if is_start then (if step <? 0 then len - 1 else 0)
      else (if step <? 0 then -1 else len)
  | Some i =>
      if i <? 0 then
        (if i + len <? 0 then (if step <? 0 then -1 else 0) else i + len)
      else if len <=? i then (if step <? 0 then len - 1 else len)
      else i
  end.

Definition slice_length (start stop step : Z) : Z :=
  if step <? 0 then
    (if stop <? start then (start - stop - 1) / (- step) + 1 else 0)
  else
    (if start <? stop then (stop - start - 1) / step + 1 else 0).

Definition py_slice {A} (l : list A) (start stop step : option Z)
  : Res (list A) :=
  let st := default 1 step in
  if st =? 0 then Raise ValueError
  else
    let len := Z.of_nat (length l) in
    let a := adjust_bound len st true start in
    let b := adjust_bound len st false stop in
    Ok (omap (fun k : nat => l !! Z.to_nat (a + Z.of_nat k * st))
             (seq 0 (Z.to_nat (slice_length a b st)))).

(** [sorted(res, key=it.index)]: the keys are computed first, one call
    of [it.index] per element of the set, then the elements are sorted
    by key. *)
Fixpoint keyed (it : list Container) (l : list Container)
  : Res (list (nat * Container)) :=
  match l with
  | [] => Ok []
  | c :: l' => k ← index it c; r ← keyed it l'; Ok ((k, c) :: r)
  end.

Definition key_le (a b : nat * Container) : Prop := (a.1 <= b.1)%nat.

#[local] Instance key_le_dec a b : Decision (key_le a b) :=
  decide ((a.1 <= b.1)%nat).

Definition sorted_by_index (res : gset Container) (it : list Container)
  : Res (list Container) :=
  ks ← keyed it (elements res);
  Ok ((merge_sort key_le ks).*2).

(** ** [pro_entries] *)

(** [AccessLevel.__contains__] (lines 228-233) on an [AccessLevel]
    operand: [self.vars >= obj.vars]. *)
Definition AccessLevel__contains__ (self obj : AccessLevel) : bool :=
  level_value obj <=? level_value self.

(** [operate] of the three operator classes, on the two sets. *)
Definition operate (p : ProPred) (a b : gset Container) : gset Container :=
  match p with
  | ProOrPredicate _ _ => a ∪ b
  | ProAndPredicate _ _ => a ∩ b
  | _ => a ∖ b
  end.

(** [tuple(c for c in it if fn(c))]: the calls are made in the order
    of [it], and the first one that raises ends the loop. *)
Fixpoint filter_calls (fn : Container -> Res bool) (it : list Container)
  : Res (list Container) :=
  match it with
  | [] => Ok []
  | c :: it' =>
      b ← fn c; r ← filter_calls fn it'; Ok (if b : bool then c :: r else r)
  end.

(** [ProSlice.__new__] (lines 362-369) on the arguments its signature
    names: [None], an integer or a container for [start] and [stop],
    [None] or an integer for [step].  Such a [start] is neither a
    [ProSlice] nor a tuple, so lines 364-367 change nothing and line 369
    is reached, which calls [super().__new__(start, stop, step)] without
    [cls]: [ProPredicate.__new__] (lines 161-164) takes [start] for the
    class, and [object.__new__] raises [TypeError] on an object that is
    no class. *)
Definition ProSlice__new__ (start stop : SliceBound) (step : option Z)
  : Res ProPred :=
  Raise TypeError.

(** [p.pro_entries(it, scope, src)] for each class: [AccessLevel]
    (lines 225-226), [ScopePredicate] (252-255), [ProNoopPredicate]
    (295-296), [ProOperatorPredicate] (310-313), [ProSlice] (383-392) and
    [ProFilter] (421-424). *)
Fixpoint pro_entries (p : ProPred) (it : list Container) (scope : ScopeId)
    (src : DepSrc) : Res (list Container) :=
  let operator (l r : Res (list Container)) :=
    a ← l; b ← r;
    sorted_by_index (operate p (list_to_set a) (list_to_set b)) it in
  let sub q := pro_entries q it scope src in
  match p with
  | PAccess a =>
      Ok (filter (fun c => AccessLevel__contains__
                             (access_level c (src_container src)) a) it)
  | PScope only_self =>
      if Bool.eqb (bool_decide (Some scope = src_scope src)) only_self
      then Ok it else Ok []
  | ProNoopPredicate => Ok it
  | ProOrPredicate l r => operator (sub l) (sub r)
  | ProAndPredicate l r => operator (sub l) (sub r)
  | ProSubPredicate l r => operator (sub l) (sub r)
  (* the first of [vars] is [_noop_pred], whose [pro_entries] returns [it] *)
  | ProInvertPredicate r => operator (Ok it) (sub r)
  | ProSlice start stop step =>
      let to_index b :=
        match b with
        | BNone => Ok None
        | BInt z => Ok (Some z)
        | BCont c => k ← index it c; Ok (Some (Z.of_nat k))
        end in
      start ← to_index start;
      stop ← to_index stop;
      py_slice it start stop step
  | ProFilter fn ln =>
      args ← py_slice [AScope scope; ASrc src] None (Some ln) None;
      filter_calls (fun c => filter_fn fn c args) it
  end.

(** ** [PureDep] and [Dep] (lines 515-682) *)

(** Python's [x == y] on objects.  [PureDep.__eq__] (lines 579-585)
    answers [self._ident == x] when [self.__class__ is PureDep], and
    [self._ident == x._ident] for a [Dep] when [isinstance(x, Dep)];
    otherwise it is [NotImplemented], the reflected call is tried, and
    the identities are compared last.  The recursion is on [x], then on
    [y]; [ocmp x false y] is [x == y] and [ocmp x true y] is [y == x].
    [obj_eq_dispatch] below checks it against the dispatch rule. *)
Fixpoint ocmp (x : Obj) : bool -> Obj -> bool :=
  fix inner (swap : bool) (y : Obj) {struct y} : bool :=
    match swap, x, y with
    (* x == y *)
    | false, PureDepO a, _ => ocmp a false y
    | false, _, PureDepO b => inner true b
    | false, Plain n, Plain m => Nat.eqb n m
    | false, Missing, Missing => true
    | false, DepO a p d, DepO a' p' d' =>
        ocmp a false a' && py_eq p p' && ocmp d false d'
    (* y == x *)
    | true, _, PureDepO b => inner true b
    | true, PureDepO a, _ => ocmp a false y
    | true, Plain n, Plain m => Nat.eqb m n
    | true, Missing, Missing => true
    | true, DepO a p d, DepO a' p' d' =>
        ocmp a true a' && py_eq p' p && ocmp d true d'
    | _, _, _ => false
    end.

Definition obj_eq (x y : Obj) : bool := ocmp x false y.

Inductive ObjClass := CPlain | CMissing | CPureDep | CDep.

Definition obj_class (o : Obj) : ObjClass :=
  match o with
  | Plain _ => CPlain
  | Missing => CMissing
  | PureDepO _ => CPureDep
  | DepO _ _ _ => CDep
  end.

(** [PureDep.__eq__], inherited by [Dep]; [None] is [NotImplemented],
    also for the objects that keep [object.__eq__] and are not the same
    object. *)
Definition Obj__eq__ (self x : Obj) : option bool :=
  match self, x with
  | PureDepO i, _ => Some (obj_eq i x)
  | DepO a p d, DepO a' p' d' => Some (obj_eq a a' && py_eq p p' && obj_eq d d')
  | DepO _ _ _, _ => None
  | Plain n, Plain m => if Nat.eqb n m then Some true else None
  | Missing, Missing => Some true
  | _, _ => None
  end.

(** [class Dep(PureDep)]: the reflected method goes first when the right
    operand is a [Dep] and the left one a [PureDep]. *)
Definition obj_rich_eq (x y : Obj) : bool :=
  let reflected_first :=
    match obj_class x, obj_class y with
    | CPureDep, CDep => true
    | _, _ => false
    end in
  let '(first, second) :=
    if reflected_first then (Obj__eq__ y x, Obj__eq__ x y)
    else (Obj__eq__ x y, Obj__eq__ y x) in
  match first with
  | Some b => b
  | None => default false second
  end.

(** [PureDep.__hash__] (line 596) is [hash(self._ident)]; [Dep.__hash__]
    (lines 673-678) is [hash(self._ident)] of the tuple. *)
Fixpoint py_hash (o : Obj) : Z :=
  match o with
  | Plain n => hash_ref n
  | Missing => hash_missing
  | PureDepO i => py_hash i
  | DepO a p d => hash_tuple [py_hash a; pred_hash p; py_hash d]
  end.

(** [PureDep.__new__] (lines 538-543), called as [PureDep(abstract)]. *)
Definition PureDep (abstract : Obj) : Obj :=
  match obj_class abstract with
  | CPureDep => abstract
  | _ => PureDepO abstract
  end.

(** [ident[1:] in _pure_dep_default_set] (lines 621-623, 640): the set
    holds the one pair [(PureDep.predicate, PureDep.default)], found by
    hash and then by [==] of the stored pair with the key. *)
Definition in_pure_dep_default_set (predicate : ProPred) (default : Obj)
  : bool :=
  (hash_tuple [pred_hash predicate; py_hash default]
     =? hash_tuple [pred_hash ProNoopPredicate; py_hash Missing])
  && (py_eq ProNoopPredicate predicate && obj_eq Missing default).

(** [Dep.__new__] (lines 632-647).  Every predicate object is true, so
    [predicate or _noop_pred] is [predicate]. *)
Definition Dep (abstract : Obj) (predicate : ProPred) (default : Obj) : Obj :=
  if in_pure_dep_default_set predicate default then
    match obj_class abstract with
    | CDep | CPureDep => abstract
    | _ => PureDep abstract
    end
  else DepO abstract predicate default.

(** The properties [abstract], [predicate], [default] of a marker. *)
Definition abstract_of (m : Obj) : Obj :=
  match m with
  | PureDepO i => i
  | DepO a _ _ => a
  | _ => m
  end.

Definition predicate_of (m : Obj) : ProPred :=
  match m with
  | DepO _ p _ => p
  | _ => ProNoopPredicate
  end.

Definition default_of (m : Obj) : Obj :=
  match m with
  | DepO _ _ d => d
  | _ => Missing
  end.

(** [PureDep.replace(predicate=...)] (lines 569-577): [Dep] applied to
    the values of [_as_dict()] updated with the keyword, in the order
    abstract, predicate, default. *)
Definition replace_predicate (self : Obj) (predicate : ProPred) : Obj :=
  Dep (abstract_of self) predicate (default_of self).

(** [PureDep.__and__] (lines 598-601); the objects that are no markers
    have no [__and__] with a predicate. *)
Definition marker_and (self : Obj) (x : ProPred) : Res Obj :=
  match obj_class self with
  | CPureDep | CDep =>
      Ok (replace_predicate self (__and__ (predicate_of self) x))
  | _ => Raise TypeError
  end.

(** [(d & p) & ~p], the operands evaluated left to right. *)
Definition roundtrip (d : Obj) (p : ProPred) : Res Obj :=
  dp ← marker_and d p;
  np ← op_invert p;
  marker_and dp np.

(** ** Facts about predicate equality *)

Lemma cmp_noop_r x : cmp false x _noop_pred = match x with
                                               | ProNoopPredicate => true
                                               | _ => false
                                               end.
Proof. by destruct x. Qed.

Lemma bound_eqb_sym a b : bound_eqb a b = bound_eqb b a.
Proof.
  destruct a, b; simpl; try done.
  - apply Z.eqb_sym.
  - apply Nat.eqb_sym.
Qed.

Lemma step_eqb_sym a b : step_eqb a b = step_eqb b a.
Proof. destruct a, b; simpl; try done. apply Z.eqb_sym. Qed.

(** The two readings of [swap] agree with exchanging the operands. *)
Lemma cmp_swap_both x :
  forall y, cmp true x y = cmp false y x /\ cmp false x y = cmp true y x.
Proof.
  induction x as [a|a| |a IHa b IHb|a IHa b IHb|a IHa b IHb|b IHb|a b s|f n];
    intros [c|c| |c d|c d|c d|d|c d t|g m]; simpl; rewrite ?cmp_noop_r;
    try done; split;
    rewrite ?(proj1 (IHa _)), ?(proj2 (IHa _)),
            ?(proj1 (IHb _)), ?(proj2 (IHb _));
    try done; first [apply Z.eqb_sym | by destruct a, c].
Qed.

Lemma cmp_swap x y : cmp true x y = cmp false y x.
Proof. apply cmp_swap_both. Qed.

Lemma cmp_flag x : forall y, cmp true x y = cmp false x y.
Proof.
  induction x as [a|a| |a IHa b IHb|a IHa b IHb|a IHa b IHb|b IHb|a b s|f n];
    intros [c|c| |c d|c d|c d|d|c d t|g m]; simpl; try done.
  - by rewrite IHa, IHb.
  - by rewrite IHa, IHb.
  - by rewrite IHa, IHb.
  - by rewrite (bound_eqb_sym c), (bound_eqb_sym d), (step_eqb_sym t).
  - by rewrite (Nat.eqb_sym g), (Z.eqb_sym m).
Qed.

Lemma py_eq_sym x y : py_eq x y = py_eq y x.
Proof. unfold py_eq. by rewrite <- cmp_swap, cmp_flag. Qed.

Lemma bound_eqb_refl a : bound_eqb a a = true.
Proof.
  destruct a; simpl; try done.
  - apply Z.eqb_refl.
  - apply Nat.eqb_refl.
Qed.

Lemma py_eq_refl x : py_eq x x = true.
Proof.
  unfold py_eq.
  induction x as [a|a| |a IHa b IHb|a IHa b IHb|a IHa b IHb|b IHb|a b s|f n];
    simpl; try done.
  - apply Z.eqb_refl.
  - by destruct a.
  - by rewrite IHa, IHb.
  - by rewrite IHa, IHb.
  - by rewrite IHa, IHb.
  - rewrite !bound_eqb_refl. destruct s; simpl; try done. apply Z.eqb_refl.
  - by rewrite Nat.eqb_refl, Z.eqb_refl.
Qed.

(** [cmp] computes what the interpreter's dispatch over
    [_PredicateCompareMixin.__eq__] computes. *)
Lemma py_eq_dispatch x y : py_eq x y = rich_eq x y.
Proof.
  unfold py_eq.
  destruct x, y; unfold rich_eq, __eq__; simpl;
    rewrite ?andb_true_r, ?cmp_noop_r, ?cmp_swap; try done.
  rewrite <- andb_assoc. by destruct start, start0, stop, stop0, step, step0.
Qed.

Lemma bound_eqb_hash a b : bound_eqb a b = true -> hash_bound a = hash_bound b.
Proof.
  destruct a, b; simpl; try done.
  - by intros ->%Z.eqb_eq.
  - by intros ->%Nat.eqb_eq.
Qed.

Lemma step_eqb_eq a b : step_eqb a b = true -> a = b.
Proof. destruct a, b; simpl; try done. by intros ->%Z.eqb_eq. Qed.

(** Equal predicates have equal hashes. *)
Lemma cmp_hash x :
  forall swap y, cmp swap x y = true -> pred_hash x = pred_hash y.
Proof.
  induction x as [a|a| |a IHa b IHb|a IHa b IHb|a IHa b IHb|b IHb|a b s|f n];
    intros swap [c|c| |c d|c d|c d|d|c d t|g m]; simpl; try done.
  - by intros ->%Z.eqb_eq.
  - by intros ->%Bool.eqb_prop.
  - intros [H1 H2]%andb_true_iff. by rewrite (IHa _ _ H1), (IHb _ _ H2).
  - intros [H1 H2]%andb_true_iff. by rewrite (IHa _ _ H1), (IHb _ _ H2).
  - intros [H1 H2]%andb_true_iff. by rewrite (IHa _ _ H1), (IHb _ _ H2).
  - intros [H1 H2]%andb_true_iff.
    by rewrite (IHa _ _ H1), (IHb _ _ H2).
  - intros [H1 H2]%andb_true_iff. destruct c; try done.
    by rewrite (IHb _ _ H2).
  - intros H. by rewrite (IHb _ _ H).
  - destruct swap; intros [[H1 H2]%andb_true_iff H3]%andb_true_iff.
    + by rewrite (bound_eqb_hash _ _ H1), (bound_eqb_hash _ _ H2),
        (step_eqb_eq _ _ H3).
    + by rewrite (bound_eqb_hash _ _ H1), (bound_eqb_hash _ _ H2),
        (step_eqb_eq _ _ H3).
  - destruct swap; intros [H1%Nat.eqb_eq H2%Z.eqb_eq]%andb_true_iff;
      by subst.
Qed.

Lemma py_eq_hash x y : py_eq x y = true -> pred_hash x = pred_hash y.
Proof. apply cmp_hash. Qed.

(** ** Facts about marker equality *)

Lemma obj_eq_unwrap_l a y : obj_eq (PureDepO a) y = obj_eq a y.
Proof. by destruct y. Qed.

Lemma ocmp_flag_unwrap x :
  (forall y, ocmp x true y = ocmp x false y)
  /\ (forall b, ocmp x false (PureDepO b) = ocmp x false b).
Proof.
  induction x as [n| |a [IHf IHk]|a [IHa _] p d [IHd _]].
  - assert (Hf : forall y, ocmp (Plain n) true y = ocmp (Plain n) false y).
    { intros [m| |b|a p d]; simpl; try done. apply Nat.eqb_sym. }
    split; [done|]. intros b. by rewrite <- (Hf b).
  - assert (Hf : forall y, ocmp Missing true y = ocmp Missing false y).
    { by intros [m| |b|a p d]. }
    split; [done|]. intros b. by rewrite <- (Hf b).
  - assert (Hk : forall b, ocmp (PureDepO a) false (PureDepO b)
                           = ocmp (PureDepO a) false b).
    { intros b. fold (obj_eq (PureDepO a) (PureDepO b)).
      fold (obj_eq (PureDepO a) b). rewrite !obj_eq_unwrap_l. apply IHk. }
    split; [|done].
    induction y as [m| |b IHb|a' _ p' d' _]; try done.
    rewrite Hk. rewrite <- IHb. done.
  - assert (Hf : forall y, ocmp (DepO a p d) true y = ocmp (DepO a p d) false y).
    { intros [m| |b|a' p' d']; simpl; try done.
      by rewrite IHa, IHd, py_eq_sym. }
    split; [done|]. intros b. by rewrite <- (Hf b).
Qed.

Lemma obj_eq_unwrap_r x b : obj_eq x (PureDepO b) = obj_eq x b.
Proof. apply ocmp_flag_unwrap. Qed.

Lemma obj_eq_sym x : forall y, obj_eq x y = obj_eq y x.
Proof.
  induction x as [n| |a IHa|a IHa p d IHd]; intros y.
  - induction y as [m| |b IHb|a' _ p' d' _]; try done.
    + apply Nat.eqb_sym.
    + by rewrite obj_eq_unwrap_r, obj_eq_unwrap_l.
  - induction y as [m| |b IHb|a' _ p' d' _]; try done.
    by rewrite obj_eq_unwrap_r, obj_eq_unwrap_l.
  - by rewrite obj_eq_unwrap_r, obj_eq_unwrap_l.
  - induction y as [m| |b IHb|a' _ p' d' _]; try done.
    + by rewrite obj_eq_unwrap_r, obj_eq_unwrap_l.
    + unfold obj_eq in *. simpl. by rewrite IHa, IHd, py_eq_sym.
Qed.

Lemma ocmp_swap x y : ocmp x true y = ocmp y false x.
Proof.
  rewrite (proj1 (ocmp_flag_unwrap x)). apply obj_eq_sym.
Qed.

Lemma obj_eq_refl x : obj_eq x x = true.
Proof.
  induction x as [n| |a IHa|a IHa p d IHd].
  - apply Nat.eqb_refl.
  - done.
  - by rewrite obj_eq_unwrap_r, obj_eq_unwrap_l.
  - unfold obj_eq in *. simpl. by rewrite IHa, IHd, py_eq_refl.
Qed.

(** Equal objects have equal hashes. *)
Lemma obj_eq_hash x : forall y, obj_eq x y = true -> py_hash x = py_hash y.
Proof.
  induction x as [n| |a IHa|a IHa p d IHd]; intros y.
  - induction y as [m| |b IHb|a' _ p' d' _]; try done.
    + by intros ->%Nat.eqb_eq.
    + rewrite obj_eq_unwrap_r. apply IHb.
  - induction y as [m| |b IHb|a' _ p' d' _]; try done.
    rewrite obj_eq_unwrap_r. apply IHb.
  - rewrite obj_eq_unwrap_l. apply IHa.
  - induction y as [m| |b IHb|a' _ p' d' _]; try done.
    + rewrite obj_eq_unwrap_r. apply IHb.
    + unfold obj_eq in *. simpl.
      intros [[H1 H2]%andb_true_iff H3]%andb_true_iff.
      by rewrite (IHa _ H1), (IHd _ H3), (py_eq_hash _ _ H2).
Qed.

(** [ocmp] computes what the interpreter's dispatch over
    [PureDep.__eq__] computes. *)
Lemma obj_eq_dispatch x y : obj_eq x y = obj_rich_eq x y.
Proof.
  destruct x as [n| |a|a p d], y as [m| |b|a' p' d'];
    unfold obj_rich_eq; simpl; try done.
  - rewrite (Nat.eqb_sym m n). unfold obj_eq. simpl.
    by destruct (Nat.eqb n m).
  - by rewrite obj_eq_unwrap_r, obj_eq_sym.
  - by rewrite obj_eq_unwrap_r, obj_eq_sym.
  - by rewrite obj_eq_unwrap_r, obj_eq_sym.
Qed.

(** ** The combinators *)

(** C10: [p & q] and [p | q] return [p] itself whenever [q == p]; no
    [ProAndPredicate] or [ProOrPredicate] node is built for equal
    operands. *)
Theorem ops_absorb_equal (p q : ProPred) :
  py_eq q p = true -> __and__ p q = p /\ __or__ p q = p.
Proof. intros H. unfold __and__, __or__. by rewrite H. Qed.

(** A predicate combined with itself is itself, and distinct operands
    do build the node. *)
Lemma ops_self (p : ProPred) : __and__ p p = p /\ __or__ p p = p.
Proof. unfold __and__, __or__. by rewrite py_eq_refl. Qed.

Lemma ops_distinct (p q : ProPred) :
  py_eq q p = false ->
  __and__ p q = ProAndPredicate p q /\ __or__ p q = ProOrPredicate p q.
Proof. intros H. unfold __and__, __or__. by rewrite H. Qed.

Lemma in_pure_dep_default_set_defaults :
  in_pure_dep_default_set ProNoopPredicate Missing = true.
Proof. unfold in_pure_dep_default_set. by rewrite Z.eqb_refl. Qed.

(** C2: [Dep(a)] with the default predicate and the default value is
    [a] itself when [a] is a [Dep] or a [PureDep], and [PureDep(a)]
    otherwise; [PureDep(a) == a] and [hash(PureDep(a)) == hash(a)]. *)
Theorem Dep_defaults_is_PureDep (a : Obj) :
  Dep a ProNoopPredicate Missing
  = match obj_class a with
    | CDep | CPureDep => a
    | _ => PureDep a
    end
  /\ obj_eq (PureDep a) a = true
  /\ py_hash (PureDep a) = py_hash a.
Proof.
  unfold Dep. rewrite in_pure_dep_default_set_defaults.
  split; [done|].
  destruct a as [n| |i|a p d]; unfold PureDep; simpl;
    (split; [|done]).
  - apply Nat.eqb_refl.
  - done.
  - apply obj_eq_refl.
  - apply (obj_eq_refl (DepO a p d)).
Qed.

(** The unary operator passes no second argument, whatever the
    predicate. *)
Lemma op_invert_raises (p : ProPred) : op_invert p = Raise TypeError.
Proof. done. Qed.

(** C4: [(d & p) & ~p] does not give a marker: evaluating [~p] raises
    [TypeError] for every marker [d] and predicate [p], because
    [__invert__] is declared with a parameter the operator never
    supplies. *)
Theorem roundtrip_raises (d : Obj) (p : ProPred) :
  roundtrip d p = Raise TypeError.
Proof.
  unfold roundtrip. destruct (marker_and d p) as [m|e] eqn:E; simpl.
  - done.
  - unfold marker_and in E. by destruct (obj_class d).
Qed.

(** ** [pro_entries] as a filter *)




(** The first position of [c] in [it], [length it] when there is none. *)
Fixpoint position (it : list Container) (c : Container) : nat :=
  match it with
  | [] => 0
  | x :: it' => if Nat.eqb x c then 0 else S (position it' c)
  end.

Definition before (it : list Container) (a b : Container) : Prop :=
  (position it a < position it b)%nat.

Lemma index_position it c : c ∈ it -> index it c = Ok (position it c).
Proof.
  induction it as [|x it IH]; [by intros ?%elem_of_nil|].
  intros Hc. simpl. destruct (Nat.eqb x c) eqn:E; [done|].
  apply Nat.eqb_neq in E. apply elem_of_cons in Hc as [->|Hc]; [done|].
  by rewrite (IH Hc).
Qed.

Lemma position_lt it c : c ∈ it -> (position it c < length it)%nat.
Proof.
  induction it as [|x it IH]; [by intros ?%elem_of_nil|].
  intros Hc. simpl. destruct (Nat.eqb x c) eqn:E; [lia|].
  apply Nat.eqb_neq in E. apply elem_of_cons in Hc as [->|Hc]; [done|].
  specialize (IH Hc). lia.
Qed.

Lemma position_inj it a b :
  a ∈ it -> b ∈ it -> position it a = position it b -> a = b.
Proof.
  induction it as [|x it IH]; [by intros ?%elem_of_nil|].
  intros Ha Hb. simpl.
  destruct (Nat.eqb x a) eqn:Ea, (Nat.eqb x b) eqn:Eb; try done.
  - apply Nat.eqb_eq in Ea, Eb. congruence.
  - apply Nat.eqb_neq in Ea, Eb.
    apply elem_of_cons in Ha as [->|Ha]; [done|].
    apply elem_of_cons in Hb as [->|Hb]; [done|].
    intros [=]. by apply IH.
Qed.

Lemma keyed_position it l :
  Forall (.∈ it) l -> keyed it l = Ok ((fun c => (position it c, c)) <$> l).
Proof.
  induction 1 as [|c l Hc _ IH]; [done|].
  simpl. by rewrite (index_position _ _ Hc), IH.
Qed.

#[local] Instance key_le_trans : Transitive key_le.
Proof. intros a b c. unfold key_le. lia. Qed.

#[local] Instance key_le_total : Total key_le.
Proof. intros a b. unfold key_le. lia. Qed.

Lemma StronglySorted_impl_elem {A} (R R' : relation A) (l : list A) :
  (forall a b, a ∈ l -> b ∈ l -> R a b -> R' a b) ->
  StronglySorted R l -> StronglySorted R' l.
Proof.
  induction l as [|x l IH]; intros HR Hs; [constructor|].
  apply StronglySorted_cons in Hs as [Hx Hs]. constructor.
  - apply IH; [|done]. intros a b Ha Hb. apply HR; by right.
  - rewrite Forall_forall in *. intros b Hb.
    apply HR; [by left|by right|by apply Hx].
Qed.

Lemma position_cons_ne x it b :
  b ≠ x -> position (x :: it) b = S (position it b).
Proof.
  intros Hb. simpl. destruct (Nat.eqb x b) eqn:E; [|done].
  apply Nat.eqb_eq in E. by subst.
Qed.

(** A sequence of elements of [it], increasing in position, is a
    subsequence of [it]. *)
Lemma before_sublist it :
  forall l, StronglySorted (before it) l -> Forall (.∈ it) l -> l `sublist_of` it.
Proof.
  induction it as [|x it IH]; intros l Hs Hin.
  - destruct l as [|y l]; [done|].
    apply Forall_cons in Hin as [?%elem_of_nil _]. done.
  - assert (Htail : forall l', StronglySorted (before (x :: it)) l' ->
                Forall (.∈ x :: it) l' -> Forall (.≠ x) l' ->
                l' `sublist_of` it).
    { intros l' Hs' Hin' Hne. rewrite Forall_forall in Hin', Hne.
      apply IH.
      - revert Hs'. apply StronglySorted_impl_elem.
        intros a b Ha Hb. unfold before.
        rewrite !position_cons_ne by auto. lia.
      - apply Forall_forall. intros a Ha.
        specialize (Hin' a Ha). specialize (Hne a Ha).
        by apply elem_of_cons in Hin' as [?|?]. }
    destruct l as [|y l]; [apply sublist_nil_l|].
    apply StronglySorted_cons in Hs as Hs'. destruct Hs' as [Hy Hs'].
    apply Forall_cons in Hin as Hin'. destruct Hin' as [_ Hin'].
    assert (Hne : Forall (.≠ x) l).
    { rewrite Forall_forall in *. intros b Hb ->.
      specialize (Hy _ Hb). unfold before in Hy. simpl in Hy.
      rewrite Nat.eqb_refl in Hy. lia. }
    destruct (decide (y = x)) as [->|Hyx].
    + apply sublist_skip. by apply Htail.
    + apply sublist_cons. apply Htail; [done..|]. by constructor.
Qed.

(** A duplicate-free sequence is increasing in its own positions. *)
Lemma NoDup_before l : NoDup l -> StronglySorted (before l) l.
Proof.
  induction 1 as [|x l Hx Hnd IH]; [constructor|].
  assert (Hpos : forall b, b ∈ l ->
            position (x :: l) b = S (position l b)).
  { intros b Hb. apply position_cons_ne. by intros ->. }
  constructor.
  - revert IH. apply StronglySorted_impl_elem.
    intros a b Ha Hb. unfold before. rewrite (Hpos a Ha), (Hpos b Hb). lia.
  - apply Forall_forall. intros b Hb. unfold before.
    rewrite (Hpos b Hb). simpl. rewrite Nat.eqb_refl. lia.
Qed.

Lemma key_sorted_before it l :
  NoDup l -> Forall (.∈ it) l ->
  StronglySorted key_le ((fun c => (position it c, c)) <$> l) ->
  StronglySorted (before it) l.
Proof.
  induction l as [|x l IH]; intros Hnd Hin Hs; [constructor|].
  apply NoDup_cons in Hnd as [Hx Hnd].
  apply Forall_cons in Hin as [Hxi Hin].
  rewrite fmap_cons in Hs. apply StronglySorted_cons in Hs as [Hle Hs].
  constructor; [by apply IH|].
  rewrite Forall_fmap in Hle. rewrite Forall_forall in *.
  intros b Hb. specialize (Hle b Hb). unfold key_le in Hle. simpl in Hle.
  unfold before.
  destruct (decide (position it x = position it b)) as [E|E]; [|lia].
  apply position_inj in E; [by subst|done|by apply Hin].
Qed.

(** What [sorted(res, key=it.index)] returns when every element of the
    set is in [it]: the elements of the set, in the order of their first
    positions in [it]. *)
Lemma sorted_by_index_spec (res : gset Container) it :
  (forall c, c ∈ res -> c ∈ it) ->
  exists l, sorted_by_index res it = Ok l
            /\ l ≡ₚ elements res /\ StronglySorted (before it) l.
Proof.
  intros Hsub. unfold sorted_by_index.
  assert (Hin : Forall (.∈ it) (elements res)).
  { apply Forall_forall. intros c Hc. by apply Hsub, elem_of_elements. }
  rewrite (keyed_position _ _ Hin). simpl.
  set (f := fun c : Container => (position it c, c)).
  set (s := merge_sort key_le (f <$> elements res)).
  assert (Hp : s ≡ₚ f <$> elements res) by apply merge_sort_Permutation.
  assert (Hs : StronglySorted key_le s) by (apply StronglySorted_merge_sort; apply _).
  assert (Hform : s = f <$> s.*2).
  { assert (Hall : Forall (fun x => x = f x.2) s).
    { apply Forall_forall. intros x Hx. rewrite Hp in Hx.
      apply list_elem_of_fmap in Hx as (c & -> & _). done. }
    clear -Hall. induction Hall as [|x s Hx _ IH]; [done|].
    rewrite !fmap_cons. by rewrite <- Hx, <- IH. }
  assert (Hperm : s.*2 ≡ₚ elements res).
  { rewrite Hp. rewrite <- list_fmap_compose.
    clear. induction (elements res) as [|c l IH]; [done|].
    rewrite fmap_cons. by constructor. }
  exists (s.*2). split; [done|]. split; [done|].
  apply key_sorted_before.
  - rewrite Hperm. apply NoDup_elements.
  - by rewrite Hperm.
  - fold f. by rewrite <- Hform.
Qed.

(** Sorting the elements of a duplicate-free sequence by their position
    in that sequence gives the sequence back. *)
Lemma sorted_by_index_fix (res : gset Container) l :
  NoDup l -> (forall c, c ∈ res <-> c ∈ l) -> sorted_by_index res l = Ok l.
Proof.
  intros Hnd Hres.
  destruct (sorted_by_index_spec res l) as (l' & -> & Hp & Hs).
  { intros c. apply Hres. }
  f_equal. apply (StronglySorted_unique_strong (before l)).
  - unfold before. intros. lia.
  - done.
  - by apply NoDup_before.
  - rewrite Hp. apply NoDup_Permutation; [apply NoDup_elements|done|].
    intros c. by rewrite elem_of_elements.
Qed.





Lemma filter_calls_Ok (fn : Container -> Res bool) (it l : list Container) :
  filter_calls fn it = Ok l ->
  (forall c, c ∈ it -> exists b, fn c = Ok b)
  /\ (forall c, c ∈ l -> c ∈ it).
Proof.
  revert l. induction it as [|x it IH]; intros l; simpl.
  - intros [= <-]. split; intros c Hc; by apply elem_of_nil in Hc.
  - destruct (fn x) as [b|e] eqn:Ex; simpl; [|done].
    destruct (filter_calls fn it) as [r|e] eqn:Er; simpl; [|done].
    destruct (IH r eq_refl) as [H1 H2].
    intros [= <-]. split.
    + intros c [->|Hc]%elem_of_cons; [by exists b|by apply H1].
    + intros c Hc. destruct b.
      * apply elem_of_cons in Hc as [->|Hc]; [by left|right; by apply H2].
      * right. by apply H2.
Qed.





(** ** Equality of predicates as a relation *)

Lemma bound_eqb_eq a b : bound_eqb a b = true -> a = b.
Proof.
  destruct a, b; simpl; try done.
  - by intros ->%Z.eqb_eq.
  - by intros ->%Nat.eqb_eq.
Qed.

Lemma py_eq_noop_l y : py_eq ProNoopPredicate y = true -> y = ProNoopPredicate.
Proof. by destruct y. Qed.

Lemma py_eq_noop_r x : py_eq x ProNoopPredicate = true -> x = ProNoopPredicate.
Proof. by destruct x. Qed.

Lemma py_eq_trans x :
  forall y z, py_eq x y = true -> py_eq y z = true -> py_eq x z = true.
Proof.
  unfold py_eq.
  induction x as [a|a| |a IHa b IHb|a IHa b IHb|a IHa b IHb|b IHb|a b s|f n];
    intros [c|c| |c d|c d|c d|d|c d t|g m] [u|u| |u v|u v|u v|v|u v k|h j];
    simpl; rewrite ?cmp_flag; try done;
    repeat match goal with
           | |- context [match ?c with ProNoopPredicate => _ | _ => _ end] =>
               destruct c; simpl; try done
           end;
    rewrite ?andb_true_iff; intros;
    repeat match goal with
           | H : _ /\ _ |- _ => destruct H
           | H : true = true |- _ => clear H
           | H : cmp false _ ProNoopPredicate = true |- _ =>
               apply py_eq_noop_r in H; subst
           | H : cmp false ProNoopPredicate _ = true |- _ =>
               apply py_eq_noop_l in H; subst
           | H : bound_eqb _ _ = true |- _ => apply bound_eqb_eq in H; subst
           | H : step_eqb _ _ = true |- _ => apply step_eqb_eq in H; subst
           | H : (_ =? _) = true |- _ => apply Z.eqb_eq in H
           | H : Nat.eqb _ _ = true |- _ => apply Nat.eqb_eq in H; subst
           | H : Bool.eqb _ _ = true |- _ => apply Bool.eqb_prop in H; subst
           end;
    simpl; rewrite ?bound_eqb_refl, ?Nat.eqb_refl, ?Z.eqb_refl;
    repeat split; eauto.
  - apply Z.eqb_eq. congruence.
  - by destruct u.
  - destruct k; simpl; [apply Z.eqb_refl|done].
Qed.

(** X1: [==] on PRO predicates, as the interpreter dispatches it over
    [_PredicateCompareMixin.__eq__], is an equivalence relation: every
    predicate equals itself, [x == y] and [y == x] give the same answer
    (also between a [ProSubPredicate] and its subclass
    [ProInvertPredicate]), and equality is transitive. *)
Theorem predicate_eq_equivalence (x y z : ProPred) :
  rich_eq x x = true
  /\ rich_eq x y = rich_eq y x
  /\ (rich_eq x y = true -> rich_eq y z = true -> rich_eq x z = true).
Proof.
  rewrite <- !py_eq_dispatch. split; [apply py_eq_refl|].
  split; [apply py_eq_sym|apply py_eq_trans].
Qed.

(** X2: predicates that compare equal have equal hashes, so a predicate
    can stand for an equal one as a dictionary key; in particular
    [ProInvertPredicate(p)] and [ProSubPredicate(ProNoopPredicate(), p)]
    hash alike. *)
Theorem predicate_eq_hash (x y : ProPred) :
  rich_eq x y = true -> pred_hash x = pred_hash y.
Proof. rewrite <- py_eq_dispatch. apply py_eq_hash. Qed.

(** ** What [pro_entries] selects, whatever the predicate *)

Lemma index_Ok_elem it c : forall k, index it c = Ok k -> c ∈ it.
Proof.
  induction it as [|x it IH]; intros k; simpl; [done|].
  destruct (Nat.eqb x c) eqn:E.
  - apply Nat.eqb_eq in E as ->. intros _. by left.
  - destruct (index it c) as [k'|e] eqn:E'; simpl; [|done].
    intros _. right. by eapply IH.
Qed.

Lemma index_Raise it c e : index it c = Raise e -> e = ValueError /\ c ∉ it.
Proof.
  induction it as [|x it IH]; simpl.
  - intros [= <-]. split; [done|]. apply not_elem_of_nil.
  - destruct (Nat.eqb x c) eqn:E; [done|]. apply Nat.eqb_neq in E.
    destruct (index it c) as [k'|e'] eqn:E'; simpl; [done|].
    intros [= <-]. destruct (IH eq_refl) as [-> Hn]. split; [done|].
    rewrite not_elem_of_cons. split; [congruence|done].
Qed.

Lemma keyed_Ok_elem it l : forall ks, keyed it l = Ok ks -> Forall (.∈ it) l.
Proof.
  induction l as [|c l IH]; intros ks; simpl; [by constructor|].
  destruct (index it c) as [k|e] eqn:E; simpl; [|done].
  destruct (keyed it l) as [r|e] eqn:E'; simpl; [|done].
  intros _. constructor; [by eapply index_Ok_elem|by eapply IH].
Qed.


(** [sorted(res, key=it.index)] returns exactly when every element of
    the set is in [it]; the result is then the set, without duplicates,
    as a subsequence of [it]. *)
Lemma sorted_by_index_sub (res : gset Container) it :
  (forall c, c ∈ res -> c ∈ it) ->
  exists l, sorted_by_index res it = Ok l
            /\ NoDup l /\ l `sublist_of` it /\ (forall c, c ∈ l <-> c ∈ res).
Proof.
  intros Hin.
  destruct (sorted_by_index_spec res it Hin) as (l & E & Hp & Hs).
  assert (Hmem : forall c, c ∈ l <-> c ∈ res).
  { intros c. by rewrite Hp, elem_of_elements. }
  exists l. split; [done|]. split; [|split; [|done]].
  - rewrite Hp. apply NoDup_elements.
  - apply before_sublist; [done|]. apply Forall_forall.
    intros c Hc. by apply Hin, Hmem.
Qed.

Lemma sorted_by_index_Ok (res : gset Container) it l :
  sorted_by_index res it = Ok l ->
  NoDup l /\ l `sublist_of` it /\ (forall c, c ∈ l <-> c ∈ res).
Proof.
  intros H.
  assert (Hin : forall c, c ∈ res -> c ∈ it).
  { unfold sorted_by_index in H.
    destruct (keyed it (elements res)) as [ks|e] eqn:E; [|done].
    apply keyed_Ok_elem in E. rewrite Forall_forall in E.
    intros c Hc. by apply E, elem_of_elements. }
  destruct (sorted_by_index_sub res it Hin) as (l' & E & Hl').
  rewrite E in H. by injection H as <-.
Qed.


Lemma py_slice_elem {A} (l r : list A) start stop step :
  py_slice l start stop step = Ok r -> forall x, x ∈ r -> x ∈ l.
Proof.
  unfold py_slice. destruct (default 1 step =? 0); [done|].
  intros [= <-] x (k & _ & Hk)%list_elem_of_omap.
  by eapply list_elem_of_lookup_2.
Qed.


Lemma pro_entries_elem scope src p :
  forall it l, pro_entries p it scope src = Ok l -> forall c, c ∈ l -> c ∈ it.
Proof.
  assert (Hop : forall (q : ProPred) (a b : Res (list Container)) it l,
            (a' ← a; b' ← b;
             sorted_by_index (operate q (list_to_set a') (list_to_set b')) it)
            = Ok l -> forall c, c ∈ l -> c ∈ it).
  { intros q [a|e] [b|e'] it l; simpl; try done.
    intros (_ & Hs & _)%sorted_by_index_Ok c Hc.
    by eapply elem_of_sublist. }
  destruct p as [a|b| |l r|l r|l r|r|a b s|f n]; intros it res; simpl.
  - intros [= <-] c [_ Hc]%list_elem_of_filter. done.
  - destruct (Bool.eqb _ b); intros [= <-] c Hc; [done|].
    by apply elem_of_nil in Hc.
  - by intros [= <-].
  - apply (Hop (ProOrPredicate l r)).
  - apply (Hop (ProAndPredicate l r)).
  - apply (Hop (ProSubPredicate l r)).
  - apply (Hop (ProInvertPredicate r) (Ok it)).
  - destruct a as [|z|k]; simpl.
    + destruct b as [|z'|k']; simpl; try apply py_slice_elem.
      destruct (index it k'); simpl; [apply py_slice_elem|done].
    + destruct b as [|z'|k']; simpl; try apply py_slice_elem.
      destruct (index it k'); simpl; [apply py_slice_elem|done].
    + destruct (index it k); simpl; [|done].
      destruct b as [|z'|k']; simpl; try apply py_slice_elem.
      destruct (index it k'); simpl; [apply py_slice_elem|done].
  - intros H. by apply filter_calls_Ok in H as [_ H].
Qed.




(** The result of an operator class on two evaluated operands. *)
Lemma operator_eval (res : gset Container) it (P : Container -> Prop) :
  (forall c, c ∈ res <-> P c) -> (forall c, P c -> c ∈ it) ->
  exists l, sorted_by_index res it = Ok l
            /\ NoDup l /\ l `sublist_of` it /\ (forall c, c ∈ l <-> P c).
Proof.
  intros Hres Hin.
  destruct (sorted_by_index_sub res it) as (l & E & Hnd & Hsub & Hmem).
  { intros c Hc. by apply Hin, Hres. }
  exists l. split; [done|]. split; [done|]. split; [done|].
  intros c. by rewrite Hmem.
Qed.

(** X4: [ProOrPredicate], [ProAndPredicate] and [ProSubPredicate] are
    the union, intersection and difference of what their operands
    select: when both operands return, each operator returns, its result
    has no duplicates, is a subsequence of the sequence given (ordered
    by first position, whatever order the operands returned), and holds
    exactly the containers the set operation keeps. *)
Theorem operator_entries_are_set_operations p q it scope src a b :
  pro_entries p it scope src = Ok a ->
  pro_entries q it scope src = Ok b ->
  exists lo la ls,
    pro_entries (ProOrPredicate p q) it scope src = Ok lo
    /\ pro_entries (ProAndPredicate p q) it scope src = Ok la
    /\ pro_entries (ProSubPredicate p q) it scope src = Ok ls
    /\ (NoDup lo /\ lo `sublist_of` it /\ forall c, c ∈ lo <-> c ∈ a \/ c ∈ b)
    /\ (NoDup la /\ la `sublist_of` it /\ forall c, c ∈ la <-> c ∈ a /\ c ∈ b)
    /\ (NoDup ls /\ ls `sublist_of` it /\ forall c, c ∈ ls <-> c ∈ a /\ c ∉ b).
Proof.
  intros Ea Eb.
  pose proof (pro_entries_elem _ _ _ _ _ Ea) as Ha.
  pose proof (pro_entries_elem _ _ _ _ _ Eb) as Hb.
  destruct (operator_eval (list_to_set a ∪ list_to_set b) it
              (fun c => c ∈ a \/ c ∈ b)) as (lo & Eo & Ho).
  { intros c. by rewrite elem_of_union, !elem_of_list_to_set. }
  { intros c [?|?]; auto. }
  destruct (operator_eval (list_to_set a ∩ list_to_set b) it
              (fun c => c ∈ a /\ c ∈ b)) as (la & Eand & Hand).
  { intros c. by rewrite elem_of_intersection, !elem_of_list_to_set. }
  { intros c [? _]; auto. }
  destruct (operator_eval (list_to_set a ∖ list_to_set b) it
              (fun c => c ∈ a /\ c ∉ b)) as (ls & Es & Hs).
  { intros c. by rewrite elem_of_difference, !elem_of_list_to_set. }
  { intros c [? _]; auto. }
  exists lo, la, ls. simpl. rewrite Ea, Eb. simpl.
  by rewrite Eo, Eand, Es.
Qed.

(** X5: [ProInvertPredicate(p)] selects the complement of what [p]
    selects, within the sequence given and in its order, and inverting
    twice selects what [p] selects (each container once). *)
Theorem invert_entries_are_the_complement p it scope src a :
  pro_entries p it scope src = Ok a ->
  exists l l2,
    pro_entries (ProInvertPredicate p) it scope src = Ok l
    /\ NoDup l /\ l `sublist_of` it
    /\ (forall c, c ∈ l <-> c ∈ it /\ c ∉ a)
    /\ pro_entries (ProInvertPredicate (ProInvertPredicate p)) it scope src
       = Ok l2
    /\ NoDup l2 /\ l2 `sublist_of` it
    /\ (forall c, c ∈ l2 <-> c ∈ a).
Proof.
  intros Ea.
  pose proof (pro_entries_elem _ _ _ _ _ Ea) as Ha.
  destruct (operator_eval (list_to_set it ∖ list_to_set a) it
              (fun c => c ∈ it /\ c ∉ a)) as (l & El & Hnd & Hsub & Hl).
  { intros c. by rewrite elem_of_difference, !elem_of_list_to_set. }
  { by intros c [? _]. }
  destruct (operator_eval (list_to_set it ∖ list_to_set l) it
              (fun c => c ∈ a)) as (l2 & El2 & Hnd2 & Hsub2 & Hl2).
  { intros c. rewrite elem_of_difference, !elem_of_list_to_set, Hl.
    split.
    - intros [Hc Hn]. destruct (decide (c ∈ a)) as [?|Hna]; [done|].
      by destruct Hn.
    - intros Hc. split; [by apply Ha|]. by intros [_ ?]. }
  { done. }
  exists l, l2. simpl. rewrite Ea. simpl. rewrite El. simpl.
  by rewrite El2.
Qed.

(** X6: a predicate and its inverse select nothing in common, and
    together they select every container of a duplicate-free
    sequence. *)
Theorem invert_entries_partition p it scope src a :
  pro_entries p it scope src = Ok a ->
  pro_entries (ProAndPredicate p (ProInvertPredicate p)) it scope src = Ok []
  /\ (NoDup it ->
      pro_entries (ProOrPredicate p (ProInvertPredicate p)) it scope src
      = Ok it).
Proof.
  intros Ea.
  pose proof (pro_entries_elem _ _ _ _ _ Ea) as Ha.
  destruct (operator_eval (list_to_set it ∖ list_to_set a) it
              (fun c => c ∈ it /\ c ∉ a)) as (l & El & Hnd & Hsub & Hl).
  { intros c. by rewrite elem_of_difference, !elem_of_list_to_set. }
  { by intros c [? _]. }
  simpl. rewrite Ea. simpl. rewrite El. simpl. split.
  - destruct (operator_eval (list_to_set a ∩ list_to_set l) it
                (fun c => False)) as (l0 & -> & _ & _ & Hl0).
    { intros c. rewrite elem_of_intersection, !elem_of_list_to_set, Hl.
      split; [by intros [? [_ ?]]|done]. }
    { done. }
    f_equal. destruct l0 as [|c l0]; [done|].
    destruct (proj1 (Hl0 c)). by left.
  - intros Hit. apply sorted_by_index_fix; [done|].
    intros c. rewrite elem_of_union, !elem_of_list_to_set, Hl. split.
    + intros [?|[? _]]; auto.
    + intros Hc. destruct (decide (c ∈ a)); auto.
Qed.

Lemma list_to_set_sorted (res : gset Container) it l :
  sorted_by_index res it = Ok l -> list_to_set l = res.
Proof.
  intros (_ & _ & Hm)%sorted_by_index_Ok.
  apply set_eq. intros c.
  by rewrite elem_of_list_to_set.
Qed.

(** What a call of [pro_entries] selects: its result, and nothing when
    it raises. *)
Definition selected (r : Res (list Container)) : option (list Container) :=
  match r with
  | Ok l => Some l
  | Raise _ => None
  end.

Lemma operator_entries_comm_assoc p q r it scope src :
  selected (pro_entries (ProOrPredicate p q) it scope src)
  = selected (pro_entries (ProOrPredicate q p) it scope src)
  /\ selected (pro_entries (ProAndPredicate p q) it scope src)
     = selected (pro_entries (ProAndPredicate q p) it scope src)
  /\ pro_entries (ProOrPredicate (ProOrPredicate p q) r) it scope src
     = pro_entries (ProOrPredicate p (ProOrPredicate q r)) it scope src
  /\ pro_entries (ProAndPredicate (ProAndPredicate p q) r) it scope src
     = pro_entries (ProAndPredicate p (ProAndPredicate q r)) it scope src.
Proof.
  simpl.
  destruct (pro_entries p it scope src) as [a|ea] eqn:Ea;
    destruct (pro_entries q it scope src) as [b|eb] eqn:Eb;
    destruct (pro_entries r it scope src) as [c|ec] eqn:Ec; simpl;
    try done;
    try pose proof (pro_entries_elem _ _ _ _ _ Ea) as Ha;
    try pose proof (pro_entries_elem _ _ _ _ _ Eb) as Hb;
    try pose proof (pro_entries_elem _ _ _ _ _ Ec) as Hc;
    rewrite (comm_L (∪) (list_to_set b) (list_to_set a)),
            (comm_L (∩) (list_to_set b) (list_to_set a));
    (split; [done|]); (split; [done|]).
  - destruct (operator_eval (list_to_set a ∪ list_to_set b) it
                (fun x => x ∈ a \/ x ∈ b)) as (lab & Eab & _).
    { intros x. by rewrite elem_of_union, !elem_of_list_to_set. }
    { intros x [?|?]; auto. }
    destruct (operator_eval (list_to_set b ∪ list_to_set c) it
                (fun x => x ∈ b \/ x ∈ c)) as (lbc & Ebc & _).
    { intros x. by rewrite elem_of_union, !elem_of_list_to_set. }
    { intros x [?|?]; auto. }
    destruct (operator_eval (list_to_set a ∩ list_to_set b) it
                (fun x => x ∈ a /\ x ∈ b)) as (nab & Enab & _).
    { intros x. by rewrite elem_of_intersection, !elem_of_list_to_set. }
    { intros x [? _]; auto. }
    destruct (operator_eval (list_to_set b ∩ list_to_set c) it
                (fun x => x ∈ b /\ x ∈ c)) as (nbc & Enbc & _).
    { intros x. by rewrite elem_of_intersection, !elem_of_list_to_set. }
    { intros x [? _]; auto. }
    rewrite Eab, Ebc, Enab, Enbc. simpl.
    rewrite (list_to_set_sorted _ _ _ Eab), (list_to_set_sorted _ _ _ Ebc),
      (list_to_set_sorted _ _ _ Enab), (list_to_set_sorted _ _ _ Enbc).
    by rewrite (assoc_L (∪)), (assoc_L (∩)).
  - destruct (operator_eval (list_to_set a ∪ list_to_set b) it
                (fun x => x ∈ a \/ x ∈ b)) as (lab & Eab & _).
    { intros x. by rewrite elem_of_union, !elem_of_list_to_set. }
    { intros x [?|?]; auto. }
    destruct (operator_eval (list_to_set a ∩ list_to_set b) it
                (fun x => x ∈ a /\ x ∈ b)) as (nab & Enab & _).
    { intros x. by rewrite elem_of_intersection, !elem_of_list_to_set. }
    { intros x [? _]; auto. }
    by rewrite Eab, Enab.
Qed.

(** X7: what [p | q] and [p & q] select does not depend on the order
    or the grouping of the operands.  Swapping the operands gives the
    same selection: both orders return, with the same result, or both
    raise (the operands are evaluated from left to right, so when both
    fail the exception is that of the one written first).  Regrouping
    changes nothing at all, the exception included. *)
Theorem or_and_entries_commute_assoc p q r it scope src :
  selected (pro_entries (ProOrPredicate p q) it scope src)
  = selected (pro_entries (ProOrPredicate q p) it scope src)
  /\ selected (pro_entries (ProAndPredicate p q) it scope src)
     = selected (pro_entries (ProAndPredicate q p) it scope src)
  /\ pro_entries (ProOrPredicate (ProOrPredicate p q) r) it scope src
     = pro_entries (ProOrPredicate p (ProOrPredicate q r)) it scope src
  /\ pro_entries (ProAndPredicate (ProAndPredicate p q) r) it scope src
     = pro_entries (ProAndPredicate p (ProAndPredicate q r)) it scope src.
Proof. apply operator_entries_comm_assoc. Qed.

(** ** The enumerated predicates *)


Lemma sorted_by_index_empty it : sorted_by_index ∅ it = Ok [].
Proof. unfold sorted_by_index. by rewrite elements_empty. Qed.


(** X9: [ONLY_SELF] and [SKIP_SELF] are complementary: for every
    scope and source one of them returns the whole sequence and the
    other the empty one, so [ONLY_SELF & SKIP_SELF] selects nothing and
    [ONLY_SELF | SKIP_SELF] selects every container of a duplicate-free
    sequence. *)
Theorem scope_predicates_complementary it scope src :
  (pro_entries ONLY_SELF it scope src = Ok it
   /\ pro_entries SKIP_SELF it scope src = Ok []
   \/ pro_entries ONLY_SELF it scope src = Ok []
      /\ pro_entries SKIP_SELF it scope src = Ok it)
  /\ pro_entries (__and__ ONLY_SELF SKIP_SELF) it scope src = Ok []
  /\ (NoDup it ->
      pro_entries (__or__ ONLY_SELF SKIP_SELF) it scope src = Ok it).
Proof.
  unfold __and__, __or__. simpl.
  destruct (bool_decide (Some scope = src_scope src)); simpl.
  - split; [by left|]. split.
    + rewrite (right_absorb_L ∅ (∩)). apply sorted_by_index_empty.
    + intros Hnd. apply sorted_by_index_fix; [done|].
      intros c. rewrite elem_of_union, elem_of_list_to_set, elem_of_empty.
      split; [by intros [?|[]]|by left].
  - split; [by right|]. split.
    + rewrite (left_absorb_L ∅ (∩)). apply sorted_by_index_empty.
    + intros Hnd. apply sorted_by_index_fix; [done|].
      intros c. rewrite elem_of_union, elem_of_list_to_set, elem_of_empty.
      split; [by intros [[]|?]|by right].
Qed.

(** ** Slices *)

Lemma adjust_bound_range len st is_start b :
  0 <= len -> 0 < st -> 0 <= adjust_bound len st is_start b <= len.
Proof.
  intros Hlen Hst. unfold adjust_bound.
  destruct b as [i|]; destruct is_start;
    repeat match goal with
           | |- context [?x <? ?y] => destruct (Z.ltb_spec x y)
           | |- context [?x <=? ?y] => destruct (Z.leb_spec x y)
           end; lia.
Qed.

Lemma omap_ext_all {A B} (f g : A -> option B) (ks : list A) :
  (forall k, f k = g k) -> omap f ks = omap g ks.
Proof.
  intros Hfg. induction ks as [|k ks IH]; [done|].
  csimpl. by rewrite Hfg, IH.
Qed.

Lemma omap_lookup_fmap {A} (l : list A) (g : nat -> nat) (ks : list nat) :
  omap (fun k => l !! g k) ks = omap (fun k => l !! k) (g <$> ks).
Proof.
  induction ks as [|k ks IH]; [done|]. csimpl. by rewrite IH.
Qed.

Lemma omap_lookup_nil {A} (ks : list nat) : omap (fun k => (@nil A) !! k) ks = [].
Proof. induction ks as [|k ks IH]; [done|]. csimpl. by rewrite IH. Qed.

Lemma omap_lookup_cons {A} (x : A) l (ks : list nat) :
  Forall (lt 0) ks ->
  omap (fun k => (x :: l) !! k) ks = omap (fun k => l !! k) (Nat.pred <$> ks).
Proof.
  induction 1 as [|k ks Hk _ IH]; [done|].
  destruct k as [|k]; [lia|]. csimpl. by rewrite IH.
Qed.

Lemma sorted_pred (ks : list nat) :
  Forall (lt 0) ks -> StronglySorted lt ks ->
  StronglySorted lt (Nat.pred <$> ks).
Proof.
  induction 1 as [|k ks Hk Hks IH]; intros Hs; [constructor|].
  apply StronglySorted_cons in Hs as [Hlt Hs].
  rewrite fmap_cons. constructor; [by apply IH|].
  rewrite Forall_fmap. rewrite Forall_forall in *.
  intros j Hj. specialize (Hlt j Hj). specialize (Hks j Hj). simpl. lia.
Qed.

(** Looking up strictly increasing positions gives a subsequence. *)
Lemma omap_lookup_sublist {A} (l : list A) :
  forall ks : list nat, StronglySorted lt ks ->
  omap (fun k => l !! k) ks `sublist_of` l.
Proof.
  induction l as [|x l IH]; intros ks Hs.
  - by rewrite omap_lookup_nil.
  - destruct ks as [|k ks]; [apply sublist_nil_l|].
    apply StronglySorted_cons in Hs as Hs'. destruct Hs' as [Hlt Hs'].
    destruct k as [|k].
    + assert (Hpos : Forall (lt 0) ks) by done.
      csimpl. apply sublist_skip. rewrite omap_lookup_cons by done.
      apply IH. by apply sorted_pred.
    + assert (Hpos : Forall (lt 0) (S k :: ks)).
      { constructor; [lia|]. eapply Forall_impl; [done|]. simpl. lia. }
      rewrite omap_lookup_cons by done.
      apply sublist_cons, IH. by apply sorted_pred.
Qed.

Lemma seq_sorted_by (g : nat -> nat) :
  (forall i j, (i < j)%nat -> (g i < g j)%nat) ->
  forall n s, StronglySorted lt (g <$> seq s n).
Proof.
  intros Hg. induction n as [|n IH]; intros s; [constructor|].
  simpl. constructor; [apply IH|].
  rewrite Forall_fmap. apply Forall_forall. intros j Hj.
  apply elem_of_seq in Hj. simpl. apply Hg. lia.
Qed.

(** A slice with a positive step is a subsequence. *)
Lemma py_slice_forward_sublist {A} (l r : list A) start stop step :
  0 < default 1 step ->
  py_slice l start stop step = Ok r -> r `sublist_of` l.
Proof.
  unfold py_slice. intros Hst.
  destruct (Z.eqb_spec (default 1 step) 0) as [E|_]; [lia|].
  intros [= <-].
  pose proof (adjust_bound_range (Z.of_nat (length l)) (default 1 step)
                true start ltac:(lia) Hst) as Ha.
  rewrite (omap_lookup_fmap l
             (fun k => Z.to_nat (adjust_bound (Z.of_nat (length l))
                                   (default 1 step) true start
                                 + Z.of_nat k * default 1 step))).
  apply omap_lookup_sublist, seq_sorted_by.
  intros i j Hij. nia.
Qed.

Lemma omap_seq_take_drop {A} (l : list A) (a : nat) :
  forall n s, (a + s + n <= length l)%nat ->
  omap (fun k => l !! (a + k)%nat) (seq s n) = take n (drop (a + s) l).
Proof.
  induction n as [|n IH]; intros s Hn; [by rewrite take_0|].
  csimpl.
  destruct (lookup_lt_is_Some_2 l (a + s)) as [x Hx]; [lia|].
  rewrite Hx. rewrite (drop_S _ _ _ Hx). simpl.
  rewrite IH by lia. by rewrite Nat.add_succ_r.
Qed.

(** A slice without a step is the segment between the clipped bounds. *)
Lemma py_slice_unit_step {A} (l : list A) start stop :
  py_slice l start stop None
  = Ok (take (Z.to_nat (adjust_bound (Z.of_nat (length l)) 1 false stop)
              - Z.to_nat (adjust_bound (Z.of_nat (length l)) 1 true start))
          (drop (Z.to_nat (adjust_bound (Z.of_nat (length l)) 1 true start))
             l)).
Proof.
  unfold py_slice. simpl.
  pose proof (adjust_bound_range (Z.of_nat (length l)) 1 true start
                ltac:(lia) ltac:(lia)) as Ha.
  pose proof (adjust_bound_range (Z.of_nat (length l)) 1 false stop
                ltac:(lia) ltac:(lia)) as Hb.
  set (a := adjust_bound (Z.of_nat (length l)) 1 true start) in *.
  set (b := adjust_bound (Z.of_nat (length l)) 1 false stop) in *.
  f_equal.
  rewrite (omap_ext_all _ (fun k => l !! (Z.to_nat a + k)%nat)).
  2:{ intros k. f_equal. lia. }
  assert (En : Z.to_nat (slice_length a b 1) = (Z.to_nat b - Z.to_nat a)%nat).
  { unfold slice_length. simpl.
    destruct (Z.ltb_spec a b); [|lia].
    rewrite Z.div_1_r. lia. }
  rewrite En, omap_seq_take_drop by lia.
  by rewrite Nat.add_0_r.
Qed.

(** The index a bound of a [ProSlice] stands for (lines 387-391), and
    whether there is one. *)
Definition slice_index (it : list Container) (b : SliceBound)
  : Res (option Z) :=
  match b with
  | BNone => Ok None
  | BInt z => Ok (Some z)
  | BCont c => k ← index it c; Ok (Some (Z.of_nat k))
  end.

Definition bound_in (it : list Container) (b : SliceBound) : Prop :=
  match b with
  | BCont c => c ∈ it
  | _ => True
  end.

Lemma pro_entries_slice start stop step it scope src :
  pro_entries (ProSlice start stop step) it scope src
  = (x ← slice_index it start; y ← slice_index it stop; py_slice it x y step).
Proof. done. Qed.

Lemma slice_index_Ok it b :
  (exists x, slice_index it b = Ok x) <-> bound_in it b.
Proof.
  destruct b as [|z|c]; simpl; [split; by eauto..|].
  destruct (index it c) as [k|e] eqn:E; simpl.
  - apply index_Ok_elem in E. split; by eauto.
  - apply index_Raise in E as [_ E]. split; [by intros [? ?]|done].
Qed.

Lemma py_slice_Ok_iff {A} (l : list A) start stop step :
  (exists r, py_slice l start stop step = Ok r) <-> step <> Some 0.
Proof.
  unfold py_slice.
  destruct (Z.eqb_spec (default 1 step) 0) as [E|E].
  - split; [by intros [? ?]|]. intros H. destruct step as [z|]; simpl in E.
    + by subst.
    + done.
  - split; [|by eauto]. intros _ ->. done.
Qed.

(** X10: [ProSlice.pro_entries] returns exactly when the step is not
    zero and every container used as a bound is in the sequence (else it
    raises, see X3); and a slice without a step, or with a positive one,
    returns a subsequence of the sequence in its order. *)
Theorem pro_slice_returns_iff start stop step it scope src :
  ((exists l, pro_entries (ProSlice start stop step) it scope src = Ok l)
   <-> step <> Some 0 /\ bound_in it start /\ bound_in it stop)
  /\ (forall l,
        pro_entries (ProSlice start stop step) it scope src = Ok l ->
        0 < default 1 step -> l `sublist_of` it).
Proof.
  rewrite pro_entries_slice.
  rewrite <- (slice_index_Ok it start), <- (slice_index_Ok it stop).
  destruct (slice_index it start) as [x|ex]; simpl.
  - destruct (slice_index it stop) as [y|ey]; simpl.
    + rewrite (py_slice_Ok_iff it x y step). split.
      * split; [by eauto|]. by intros [? _].
      * intros l Hl Hst. by eapply py_slice_forward_sublist.
    + split; [|done]. split; [by intros [? ?]|by intros (_ & _ & [? ?])].
  - split; [|done]. split; [by intros [? ?]|by intros (_ & [? ?] & _)].
Qed.

Lemma lookup_position it c : c ∈ it -> it !! position it c = Some c.
Proof.
  induction it as [|x it IH]; [by intros ?%elem_of_nil|].
  intros Hc. simpl. destruct (Nat.eqb x c) eqn:E.
  - apply Nat.eqb_eq in E. by subst.
  - apply Nat.eqb_neq in E. apply elem_of_cons in Hc as [->|Hc]; [done|].
    by apply IH.
Qed.

Lemma not_elem_take_position it c : c ∉ take (position it c) it.
Proof.
  induction it as [|x it IH]; simpl; [apply not_elem_of_nil|].
  destruct (Nat.eqb x c) eqn:E; simpl; [apply not_elem_of_nil|].
  apply Nat.eqb_neq in E. rewrite not_elem_of_cons. split; [congruence|done].
Qed.

(** X11: slicing by a container of the sequence splits the sequence
    at the first occurrence of that container: [ProSlice(None, c)] keeps
    what comes before it, [ProSlice(c)] keeps it and what follows. *)
Theorem pro_slice_splits_at_container c it scope src :
  c ∈ it ->
  exists before_c from_c,
    pro_entries (ProSlice BNone (BCont c) None) it scope src = Ok before_c
    /\ pro_entries (ProSlice (BCont c) BNone None) it scope src
       = Ok (c :: from_c)
    /\ before_c ++ c :: from_c = it
    /\ c ∉ before_c.
Proof.
  intros Hc.
  pose proof (position_lt _ _ Hc) as Hlt.
  pose proof (lookup_position _ _ Hc) as Hk.
  exists (take (position it c) it), (drop (S (position it c)) it).
  rewrite !pro_entries_slice. simpl.
  rewrite (index_position _ _ Hc). simpl.
  rewrite !py_slice_unit_step.
  assert (E0 : adjust_bound (Z.of_nat (length it)) 1 true None = 0) by done.
  assert (E1 : adjust_bound (Z.of_nat (length it)) 1 false None
               = Z.of_nat (length it)) by done.
  assert (Ek : forall is_start,
            adjust_bound (Z.of_nat (length it)) 1 is_start
              (Some (Z.of_nat (position it c)))
            = Z.of_nat (position it c)).
  { intros is_start. unfold adjust_bound.
    destruct (Z.ltb_spec (Z.of_nat (position it c)) 0); [lia|].
    destruct (Z.leb_spec (Z.of_nat (length it)) (Z.of_nat (position it c)));
      [lia|done]. }
  rewrite E0, E1, !Ek, !Nat2Z.id. simpl.
  rewrite Nat.sub_0_r, <- (drop_S _ _ _ Hk).
  rewrite (take_ge (drop (position it c) it) (length it - position it c))
    by (rewrite length_drop; lia).
  change (Z.to_nat 0) with 0%nat. rewrite drop_0.
  split; [done|]. split; [done|]. split.
  - apply take_drop.
  - apply not_elem_take_position.
Qed.

(** ** Equal predicates select alike *)

Lemma level_value_inj a b : level_value a = level_value b -> a = b.
Proof. by destruct a, b. Qed.

Lemma py_eq_entries (p q : ProPred) it scope src :
  py_eq p q = true ->
  pro_entries p it scope src = pro_entries q it scope src.
Proof.
  unfold py_eq. revert q it.
  induction p as [a|a| |a IHa b IHb|a IHa b IHb|a IHa b IHb|b IHb|a b s|f n];
    intros [c|c| |c d|c d|c d|d|c d t|g m] it; simpl; try done.
  - intros H%Z.eqb_eq%level_value_inj. by subst.
  - intros H%Bool.eqb_prop. by subst.
  - intros [H1 H2]%andb_true_iff. by rewrite (IHa _ _ H1), (IHb _ _ H2).
  - intros [H1 H2]%andb_true_iff. by rewrite (IHa _ _ H1), (IHb _ _ H2).
  - intros [H1 H2]%andb_true_iff. by rewrite (IHa _ _ H1), (IHb _ _ H2).
  - intros [H1 H2]%andb_true_iff. apply py_eq_noop_r in H1 as ->.
    by rewrite (IHb _ _ H2).
  - intros [H1 H2]%andb_true_iff. destruct c; try done.
    rewrite cmp_flag in H2. by rewrite (IHb _ _ H2).
  - intros H. by rewrite (IHb _ _ H).
  - intros [[H1 H2]%andb_true_iff H3]%andb_true_iff.
    apply bound_eqb_eq in H1 as ->. apply bound_eqb_eq in H2 as ->.
    by apply step_eqb_eq in H3 as ->.
  - intros [H1%Nat.eqb_eq H2%Z.eqb_eq]%andb_true_iff. by subst.
Qed.

(** X12: predicates that compare equal select the same containers,
    whatever the sequence, the scope and the source; so replacing a
    predicate by an equal one (as [__and__] and [__or__] do when they
    return [self]) changes no result. *)
Theorem predicate_eq_same_entries (p q : ProPred) it scope src :
  rich_eq p q = true ->
  pro_entries p it scope src = pro_entries q it scope src.
Proof. rewrite <- py_eq_dispatch. apply py_eq_entries. Qed.

(** The operand order of [&] and [|] does not change what the
    combination selects, also when the operands are equal and one of them
    is returned. *)
Lemma ops_swap_entries (p x : ProPred) it scope src :
  selected (pro_entries (__and__ p x) it scope src)
  = selected (pro_entries (__and__ x p) it scope src)
  /\ selected (pro_entries (__or__ p x) it scope src)
     = selected (pro_entries (__or__ x p) it scope src).
Proof.
  unfold __and__, __or__. rewrite (py_eq_sym p x).
  destruct (py_eq x p) eqn:E.
  - rewrite py_eq_sym in E. by rewrite (py_eq_entries _ _ _ _ _ E).
  - destruct (operator_entries_comm_assoc p x p it scope src)
      as (H1 & H2 & _).
    by rewrite H1, H2.
Qed.

(** ** Markers *)

(** [PureDep.__or__], [__rand__] and [__ror__] (lines 603-616), beside
    [marker_and]. *)
Definition marker_or (self : Obj) (x : ProPred) : Res Obj :=
  match obj_class self with
  | CPureDep | CDep =>
      Ok (replace_predicate self (__or__ (predicate_of self) x))
  | _ => Raise TypeError
  end.

Definition marker_rand (self : Obj) (x : ProPred) : Res Obj :=
  match obj_class self with
  | CPureDep | CDep =>
      Ok (replace_predicate self (__and__ x (predicate_of self)))
  | _ => Raise TypeError
  end.

Definition marker_ror (self : Obj) (x : ProPred) : Res Obj :=
  match obj_class self with
  | CPureDep | CDep =>
      Ok (replace_predicate self (__or__ x (predicate_of self)))
  | _ => Raise TypeError
  end.

Definition is_marker (o : Obj) : bool :=
  match obj_class o with
  | CPureDep | CDep => true
  | _ => false
  end.

Lemma Dep_not_default a p d :
  py_eq ProNoopPredicate p = false -> Dep a p d = DepO a p d.
Proof.
  intros H. unfold Dep, in_pure_dep_default_set.
  by rewrite H, andb_false_r.
Qed.

Lemma ops_not_noop (p x : ProPred) :
  py_eq x ProNoopPredicate = false ->
  py_eq ProNoopPredicate (__and__ p x) = false
  /\ py_eq ProNoopPredicate (__or__ p x) = false
  /\ py_eq ProNoopPredicate (__and__ x p) = false
  /\ py_eq ProNoopPredicate (__or__ x p) = false.
Proof.
  intros Hx. unfold __and__, __or__.
  assert (Hx' : py_eq ProNoopPredicate x = false) by by rewrite py_eq_sym.
  destruct (py_eq x p) eqn:E.
  - assert (Hp : py_eq ProNoopPredicate p = false).
    { destruct (py_eq ProNoopPredicate p) eqn:Ep; [|done].
      apply py_eq_noop_l in Ep as ->. congruence. }
    rewrite py_eq_sym in E. by rewrite E.
  - rewrite py_eq_sym in E. by rewrite E.
Qed.

(** X13: combining a marker with a predicate other than the noop
    predicate, on either side and with [&] or [|], gives a [Dep] with the
    marker's [abstract] and [default] unchanged and with the predicate
    slot holding the combination of the marker's predicate with the
    operand, in the order written. *)
Theorem marker_ops_keep_abstract_and_default (d : Obj) (x : ProPred) :
  is_marker d = true ->
  py_eq x ProNoopPredicate = false ->
  marker_and d x
  = Ok (DepO (abstract_of d) (__and__ (predicate_of d) x) (default_of d))
  /\ marker_or d x
     = Ok (DepO (abstract_of d) (__or__ (predicate_of d) x) (default_of d))
  /\ marker_rand d x
     = Ok (DepO (abstract_of d) (__and__ x (predicate_of d)) (default_of d))
  /\ marker_ror d x
     = Ok (DepO (abstract_of d) (__or__ x (predicate_of d)) (default_of d)).
Proof.
  intros Hm Hx.
  destruct (ops_not_noop (predicate_of d) x Hx) as (H1 & H2 & H3 & H4).
  unfold marker_and, marker_or, marker_rand, marker_ror, replace_predicate.
  unfold is_marker in Hm.
  destruct (obj_class d); try done;
    by rewrite !Dep_not_default by done.
Qed.

(** What a caller passes as [default]: an object of the model, all of
    which can be hashed, or an object that cannot be (a list, a dict, a
    set). *)
Inductive DefaultArg :=
| Hashable (o : Obj)
| Unhashable.

(** [Dep.__new__] (lines 632-647) with the hashing of line 640:
    [ident[1:] in _pure_dep_default_set] hashes the tuple
    [(predicate, default)], which raises [TypeError] when [default]
    cannot be hashed; otherwise the call goes on as [Dep] above. *)
Definition Dep__new__ (abstract : Obj) (predicate : ProPred)
    (default : DefaultArg) : Res Obj :=
  match default with
  | Unhashable => Raise TypeError
  | Hashable d => Ok (Dep abstract predicate d)
  end.

Lemma Dep_defaults_marker (m : Obj) :
  is_marker m = true -> Dep m ProNoopPredicate Missing = m.
Proof.
  intros Hm. unfold Dep. rewrite in_pure_dep_default_set_defaults.
  unfold is_marker in Hm. by destruct (obj_class m).
Qed.

(** X14: [Dep(abstract, predicate, default)] raises [TypeError] when
    [default] cannot be hashed, before any marker is built; otherwise it
    returns a marker (a [Dep] or a [PureDep]), and wrapping that marker
    again with the default predicate and default value returns the
    marker itself.  [PureDep] is idempotent in the same way. *)
Theorem Dep_returns_marker_fixed_by_Dep (a : Obj) (p : ProPred) (d : Obj) :
  Dep__new__ a p Unhashable = Raise TypeError
  /\ (exists m,
        Dep__new__ a p (Hashable d) = Ok m
        /\ is_marker m = true
        /\ Dep__new__ m ProNoopPredicate (Hashable Missing) = Ok m)
  /\ PureDep (PureDep a) = PureDep a.
Proof.
  assert (Hm : is_marker (Dep a p d) = true).
  { unfold Dep, is_marker.
    destruct (in_pure_dep_default_set p d); [|done].
    by destruct a. }
  split; [done|]. split.
  - exists (Dep a p d). split; [done|]. split; [done|].
    simpl. f_equal. by apply Dep_defaults_marker.
  - by destruct a.
Qed.

Lemma obj_eq_trans x :
  forall y z, obj_eq x y = true -> obj_eq y z = true -> obj_eq x z = true.
Proof.
  induction x as [n| |a IHa|a IHa p d IHd]; intros y.
  - induction y as [m| |b IHb|a' _ p' d' _]; intros z; try done.
    + by intros ->%Nat.eqb_eq.
    + rewrite obj_eq_unwrap_r, obj_eq_unwrap_l. apply IHb.
  - induction y as [m| |b IHb|a' _ p' d' _]; intros z; try done.
    rewrite obj_eq_unwrap_r, obj_eq_unwrap_l. apply IHb.
  - intros z. rewrite !obj_eq_unwrap_l. apply IHa.
  - induction y as [m| |b IHb|a' _ p' d' _]; intros z; try done.
    + rewrite obj_eq_unwrap_r, obj_eq_unwrap_l. apply IHb.
    + induction z as [k| |c IHc|a'' _ p'' d'' _]; try done.
      * rewrite !obj_eq_unwrap_r. apply IHc.
      * unfold obj_eq in *. simpl.
        intros [[H1 H2]%andb_true_iff H3]%andb_true_iff
               [[H4 H5]%andb_true_iff H6]%andb_true_iff.
        by rewrite (IHa _ _ H1 H4), (IHd _ _ H3 H6), (py_eq_trans _ _ _ H2 H5).
Qed.

(** X15: [==] on markers and the objects they wrap, as the interpreter
    dispatches it over [PureDep.__eq__] (a [PureDep] compares as what
    it wraps, a [Dep] by its three fields), is an equivalence relation,
    and objects that compare equal have equal hashes. *)
Theorem marker_eq_equivalence_hash (x y z : Obj) :
  obj_rich_eq x x = true
  /\ obj_rich_eq x y = obj_rich_eq y x
  /\ (obj_rich_eq x y = true -> obj_rich_eq y z = true ->
      obj_rich_eq x z = true)
  /\ (obj_rich_eq x y = true -> py_hash x = py_hash y).
Proof.
  rewrite <- !obj_eq_dispatch.
  split; [apply obj_eq_refl|]. split; [apply obj_eq_sym|].
  split; [apply obj_eq_trans|apply obj_eq_hash].
Qed.

(** ** [DepKey] (lines 439-508) *)

(** A [DepKey]: [abstract], [src], and [_ash], the hash computed when
    the key is built. *)
Record DepKey := mkDepKey {
  key_abstract : Obj;
  key_src : DepSrc;
  key_ash : Z
}.

(** The hash of a container or scope (by identity) or of [None], and of
    the [DepSrc] tuple. *)
Definition hash_opt (o : option nat) : Z := from_option hash_ref hash_none o.

Definition hash_src (s : DepSrc) : Z :=
  hash_tuple [hash_opt (src_container s); hash_opt (src_scope s);
              pred_hash (src_predicate s)].

(** [DepKey.__new__] (lines 453-460) of the class whose [scope]
    attribute is [cls_scope]; a predicate is a true object, so
    [predicate or _noop_pred] is the predicate unless it is [None]. *)
Definition DepKey_new (cls_scope : option ScopeId) (abstract : Obj)
    (container : option Container) (predicate : option ProPred) : DepKey :=
  let src := mkDepSrc container cls_scope (default _noop_pred predicate) in
  mkDepKey abstract src (hash_tuple [py_hash abstract; hash_src src]).

Definition key_predicate (k : DepKey) : ProPred := src_predicate (key_src k).
Definition key_container (k : DepKey) : option Container :=
  src_container (key_src k).

(** [self.replace(predicate=p)] (lines 470-475): the other two
    arguments are [None], so the key's own [abstract] and [container]
    are passed on to [self.__class__], whose [scope] attribute is the one
    the key was built with. *)
Definition DepKey_replace_predicate (self : DepKey) (predicate : ProPred)
  : DepKey :=
  DepKey_new (src_scope (key_src self)) (key_abstract self)
    (key_container self) (Some predicate).

(** [__and__], [__rand__], [__or__] and [__ror__] (lines 477-495) with
    a predicate operand. *)
Definition DepKey_and (self : DepKey) (x : ProPred) : DepKey :=
  DepKey_replace_predicate self (__and__ (key_predicate self) x).

Definition DepKey_rand (self : DepKey) (x : ProPred) : DepKey :=
  DepKey_replace_predicate self (__and__ x (key_predicate self)).

Definition DepKey_or (self : DepKey) (x : ProPred) : DepKey :=
  DepKey_replace_predicate self (__or__ (key_predicate self) x).

Definition DepKey_ror (self : DepKey) (x : ProPred) : DepKey :=
  DepKey_replace_predicate self (__or__ x (key_predicate self)).

(** [==] on two [DepSrc] tuples: containers and scopes by identity,
    predicates by their [__eq__]. *)
Definition opt_eqb (a b : option nat) : bool :=
  match a, b with
  | None, None => true
  | Some x, Some y => Nat.eqb x y
  | _, _ => false
  end.

Definition src_eq (a b : DepSrc) : bool :=
  opt_eqb (src_container a) (src_container b)
  && opt_eqb (src_scope a) (src_scope b)
  && py_eq (src_predicate a) (src_predicate b).

(** [DepKey.__eq__] (lines 497-500) on another [DepKey], and
    [__hash__] (lines 507-508). *)
Definition DepKey_eq (self o : DepKey) : bool :=
  obj_eq (key_abstract o) (key_abstract self) && src_eq (key_src o) (key_src self).

Definition DepKey_hash (self : DepKey) : Z := key_ash self.

Lemma opt_eqb_eq a b : opt_eqb a b = true -> a = b.
Proof. destruct a, b; simpl; try done. by intros ->%Nat.eqb_eq. Qed.

Lemma opt_eqb_refl a : opt_eqb a a = true.
Proof. destruct a; simpl; [apply Nat.eqb_refl|done]. Qed.

Lemma opt_eqb_sym a b : opt_eqb a b = opt_eqb b a.
Proof. destruct a, b; simpl; try done. apply Nat.eqb_sym. Qed.

Lemma src_eq_hash a b : src_eq a b = true -> hash_src a = hash_src b.
Proof.
  unfold src_eq, hash_src.
  intros [[H1 H2]%andb_true_iff H3]%andb_true_iff.
  by rewrite (opt_eqb_eq _ _ H1), (opt_eqb_eq _ _ H2), (py_eq_hash _ _ H3).
Qed.

(** X16: two [DepKey]s are equal exactly when their abstracts, their
    containers, their scopes and their predicates are; equality is
    symmetric, and equal keys have equal hashes. *)
Theorem DepKey_eq_hash_contract (s s' : option ScopeId) (a a' : Obj)
    (c c' : option Container) (p p' : option ProPred) :
  DepKey_eq (DepKey_new s a c p) (DepKey_new s' a' c' p')
  = obj_eq a a' && opt_eqb c c' && opt_eqb s s'
    && py_eq (default _noop_pred p) (default _noop_pred p')
  /\ DepKey_eq (DepKey_new s a c p) (DepKey_new s' a' c' p')
     = DepKey_eq (DepKey_new s' a' c' p') (DepKey_new s a c p)
  /\ (DepKey_eq (DepKey_new s a c p) (DepKey_new s' a' c' p') = true ->
      DepKey_hash (DepKey_new s a c p) = DepKey_hash (DepKey_new s' a' c' p')).
Proof.
  unfold DepKey_eq, DepKey_hash, src_eq. simpl. split; [|split].
  - rewrite (obj_eq_sym a' a), (opt_eqb_sym c' c), (opt_eqb_sym s' s),
      (py_eq_sym (default _noop_pred p')).
    by rewrite !andb_assoc.
  - by rewrite (obj_eq_sym a' a), (opt_eqb_sym c' c), (opt_eqb_sym s' s),
      (py_eq_sym (default _noop_pred p')).
  - intros [H1 H2]%andb_true_iff.
    rewrite (obj_eq_hash _ _ H1).
    pose proof (src_eq_hash (mkDepSrc c' s' (default _noop_pred p'))
                  (mkDepSrc c s (default _noop_pred p)) H2) as E.
    by rewrite E.
Qed.

(** X17: combining a [DepKey] with a predicate, on either side and
    with [&] or [|], changes the predicate slot only: [abstract],
    [container] and [scope] are kept.  Combining a key with its own
    predicate gives a key equal to it, and the operand order changes
    nothing in what the combined predicate selects (when both operands
    raise, the exception is that of the one evaluated first). *)
Theorem DepKey_ops_change_predicate_only (s : option ScopeId) (a : Obj)
    (c : option Container) (p : option ProPred) (x : ProPred) it scope src :
  let k := DepKey_new s a c p in
  DepKey_and k x = DepKey_new s a c (Some (__and__ (key_predicate k) x))
  /\ DepKey_or k x = DepKey_new s a c (Some (__or__ (key_predicate k) x))
  /\ DepKey_rand k x = DepKey_new s a c (Some (__and__ x (key_predicate k)))
  /\ DepKey_ror k x = DepKey_new s a c (Some (__or__ x (key_predicate k)))
  /\ DepKey_eq (DepKey_and k (key_predicate k)) k = true
  /\ DepKey_eq (DepKey_or k (key_predicate k)) k = true
  /\ selected (pro_entries (key_predicate (DepKey_and k x)) it scope src)
     = selected (pro_entries (key_predicate (DepKey_rand k x)) it scope src)
  /\ selected (pro_entries (key_predicate (DepKey_or k x)) it scope src)
     = selected (pro_entries (key_predicate (DepKey_ror k x)) it scope src).
Proof.
  intros k. repeat (split; [done|]).
  assert (Hself : forall q, DepKey_eq (DepKey_new s a c (Some q))
                              (DepKey_new s a c (Some q)) = true).
  { intros q. unfold DepKey_eq, src_eq. simpl.
    by rewrite obj_eq_refl, !opt_eqb_refl, py_eq_refl. }
  destruct (ops_self (key_predicate k)) as [Ea Eo].
  split; [|split].
  - unfold DepKey_and, DepKey_replace_predicate. rewrite Ea.
    destruct p; apply Hself.
  - unfold DepKey_or, DepKey_replace_predicate. rewrite Eo.
    destruct p; apply Hself.
  - apply (ops_swap_entries (key_predicate k) x).
Qed.

End Markers.

(** ** Concrete instances *)

(** Every container public from everywhere; filter 0 keeps the
    containers with an even number. *)
Definition all_public (c : Container) (from : option Container) : AccessLevel :=
  public.

Definition even_filter (fn : nat) (c : Container) (args : list ExtraArg)
  : Res bool :=
  Ok (Nat.even c).

Definition src0 : DepSrc := mkDepSrc (Some 0%nat) (Some 7%nat) ProNoopPredicate.

Lemma ops_absorb_equal_witness :
  py_eq (ProInvertPredicate ONLY_SELF)
        (ProSubPredicate ProNoopPredicate ONLY_SELF) = true
  /\ __and__ (ProSubPredicate ProNoopPredicate ONLY_SELF)
             (ProInvertPredicate ONLY_SELF)
      = ProSubPredicate ProNoopPredicate ONLY_SELF.
Proof.
  split; [reflexivity|].
  apply (ops_absorb_equal (ProSubPredicate ProNoopPredicate ONLY_SELF)
           (ProInvertPredicate ONLY_SELF)).
  reflexivity.
Defined.




(** Hashes for the instances below: an object hashes to its number, a
    tuple to the sum of the hashes of its items.  The level a container
    grants is given by its number. *)
Definition ex_hash_ref (n : nat) : Z := Z.of_nat n.
Definition ex_hash_tuple (l : list Z) : Z := foldr Z.add 0 l.


Lemma predicate_eq_equivalence_witness :
  rich_eq (ProInvertPredicate (PAccess public))
          (ProInvertPredicate (PAccess public)) = true.
Proof.
  apply (proj2 (proj2 (predicate_eq_equivalence
                         (ProInvertPredicate (PAccess public))
                         (ProSubPredicate ProNoopPredicate (PAccess public))
                         (ProInvertPredicate (PAccess public)))));
    reflexivity.
Defined.

Lemma predicate_eq_hash_witness :
  pred_hash ex_hash_ref 0 id ex_hash_tuple (ProInvertPredicate (PAccess public))
  = pred_hash ex_hash_ref 0 id ex_hash_tuple
      (ProSubPredicate ProNoopPredicate (PAccess public)).
Proof.
  apply (predicate_eq_hash ex_hash_ref 0 id ex_hash_tuple
           (ProInvertPredicate (PAccess public))
           (ProSubPredicate ProNoopPredicate (PAccess public))).
  reflexivity.
Defined.

Lemma operator_entries_are_set_operations_witness :
  exists lo la ls,
    pro_entries all_public even_filter
      (ProOrPredicate (ProFilter 0 0) (ProSlice (BInt 1) BNone None))
      [3; 1; 2; 5]%nat 7%nat src0 = Ok lo
    /\ pro_entries all_public even_filter
         (ProAndPredicate (ProFilter 0 0) (ProSlice (BInt 1) BNone None))
         [3; 1; 2; 5]%nat 7%nat src0 = Ok la
    /\ pro_entries all_public even_filter
         (ProSubPredicate (ProFilter 0 0) (ProSlice (BInt 1) BNone None))
         [3; 1; 2; 5]%nat 7%nat src0 = Ok ls
    /\ (NoDup lo /\ lo `sublist_of` [3; 1; 2; 5]%nat
        /\ forall c, c ∈ lo <-> c ∈ [2]%nat \/ c ∈ [1; 2; 5]%nat)
    /\ (NoDup la /\ la `sublist_of` [3; 1; 2; 5]%nat
        /\ forall c, c ∈ la <-> c ∈ [2]%nat /\ c ∈ [1; 2; 5]%nat)
    /\ (NoDup ls /\ ls `sublist_of` [3; 1; 2; 5]%nat
        /\ forall c, c ∈ ls <-> c ∈ [2]%nat /\ c ∉ [1; 2; 5]%nat).
Proof.
  apply (operator_entries_are_set_operations all_public even_filter
           (ProFilter 0 0) (ProSlice (BInt 1) BNone None)
           [3; 1; 2; 5]%nat 7%nat src0 [2]%nat [1; 2; 5]%nat);
    reflexivity.
Defined.

Lemma invert_entries_are_the_complement_witness :
  exists l l2,
    pro_entries all_public even_filter (ProInvertPredicate (ProFilter 0 0))
      [3; 1; 2; 5]%nat 7%nat src0 = Ok l
    /\ NoDup l /\ l `sublist_of` [3; 1; 2; 5]%nat
    /\ (forall c, c ∈ l <-> c ∈ [3; 1; 2; 5]%nat /\ c ∉ [2]%nat)
    /\ pro_entries all_public even_filter
         (ProInvertPredicate (ProInvertPredicate (ProFilter 0 0)))
         [3; 1; 2; 5]%nat 7%nat src0 = Ok l2
    /\ NoDup l2 /\ l2 `sublist_of` [3; 1; 2; 5]%nat
    /\ (forall c, c ∈ l2 <-> c ∈ [2]%nat).
Proof.
  apply (invert_entries_are_the_complement all_public even_filter
           (ProFilter 0 0) [3; 1; 2; 5]%nat 7%nat src0 [2]%nat).
  reflexivity.
Defined.

Lemma invert_entries_partition_witness :
  pro_entries all_public even_filter
    (ProAndPredicate (ProFilter 0 0) (ProInvertPredicate (ProFilter 0 0)))
    [3; 1; 2; 5]%nat 7%nat src0 = Ok []
  /\ pro_entries all_public even_filter
       (ProOrPredicate (ProFilter 0 0) (ProInvertPredicate (ProFilter 0 0)))
       [3; 1; 2; 5]%nat 7%nat src0 = Ok [3; 1; 2; 5]%nat.
Proof.
  destruct (invert_entries_partition all_public even_filter
              (ProFilter 0 0) [3; 1; 2; 5]%nat 7%nat src0 [2]%nat eq_refl)
    as [H1 H2].
  split; [exact H1|]. apply H2.
  apply (bool_decide_unpack _). vm_compute. exact I.
Defined.


Lemma scope_predicates_complementary_witness :
  pro_entries all_public even_filter (__or__ ONLY_SELF SKIP_SELF)
    [3; 1; 2]%nat 7%nat src0 = Ok [3; 1; 2]%nat.
Proof.
  apply (proj2 (proj2 (scope_predicates_complementary all_public even_filter
                         [3; 1; 2]%nat 7%nat src0))).
  apply (bool_decide_unpack _). vm_compute. exact I.
Defined.

Lemma pro_slice_returns_iff_witness :
  [3; 2]%nat `sublist_of` [3; 1; 2; 5]%nat.
Proof.
  apply (proj2 (pro_slice_returns_iff all_public even_filter
                  (BInt 0) BNone (Some 2) [3; 1; 2; 5]%nat 7%nat src0));
    reflexivity.
Defined.

Lemma pro_slice_splits_at_container_witness :
  exists before_c from_c,
    pro_entries all_public even_filter (ProSlice BNone (BCont 2%nat) None)
      [3; 1; 2; 5; 2]%nat 7%nat src0 = Ok before_c
    /\ pro_entries all_public even_filter (ProSlice (BCont 2%nat) BNone None)
         [3; 1; 2; 5; 2]%nat 7%nat src0 = Ok (2%nat :: from_c)
    /\ before_c ++ 2%nat :: from_c = [3; 1; 2; 5; 2]%nat
    /\ 2%nat ∉ before_c.
Proof.
  apply (pro_slice_splits_at_container all_public even_filter 2%nat
           [3; 1; 2; 5; 2]%nat 7%nat src0).
  apply (bool_decide_unpack _). vm_compute. exact I.
Defined.

Lemma predicate_eq_same_entries_witness :
  pro_entries all_public even_filter (ProInvertPredicate (ProFilter 0 0))
    [3; 1; 2; 5]%nat 7%nat src0
  = pro_entries all_public even_filter
      (ProSubPredicate ProNoopPredicate (ProFilter 0 0))
      [3; 1; 2; 5]%nat 7%nat src0.
Proof.
  apply (predicate_eq_same_entries all_public even_filter
           (ProInvertPredicate (ProFilter 0 0))
           (ProSubPredicate ProNoopPredicate (ProFilter 0 0))).
  reflexivity.
Defined.

Lemma marker_ops_keep_abstract_and_default_witness :
  marker_and ex_hash_ref 0 1 id ex_hash_tuple (PureDepO (Plain 1%nat)) ONLY_SELF
  = Ok (DepO (Plain 1%nat) (ProAndPredicate ProNoopPredicate ONLY_SELF) Missing).
Proof.
  apply (proj1 (marker_ops_keep_abstract_and_default
                  ex_hash_ref 0 1 id ex_hash_tuple
                  (PureDepO (Plain 1%nat)) ONLY_SELF eq_refl eq_refl)).
Defined.

Lemma marker_eq_equivalence_hash_witness :
  py_hash ex_hash_ref 0 1 id ex_hash_tuple
    (DepO (PureDepO (Plain 1%nat)) ONLY_SELF Missing)
  = py_hash ex_hash_ref 0 1 id ex_hash_tuple
      (PureDepO (DepO (Plain 1%nat) ONLY_SELF (PureDepO Missing))).
Proof.
  apply (proj2 (proj2 (proj2 (marker_eq_equivalence_hash
                                ex_hash_ref 0 1 id ex_hash_tuple
                                (DepO (PureDepO (Plain 1%nat)) ONLY_SELF Missing)
                                (PureDepO (DepO (Plain 1%nat) ONLY_SELF
                                             (PureDepO Missing)))
                                Missing)))).
  reflexivity.
Defined.

Lemma DepKey_eq_hash_contract_witness :
  DepKey_hash (DepKey_new ex_hash_ref 0 1 id ex_hash_tuple (Some 7%nat)
                 (Plain 1%nat) (Some 3%nat) None)
  = DepKey_hash (DepKey_new ex_hash_ref 0 1 id ex_hash_tuple (Some 7%nat)
                   (PureDepO (Plain 1%nat)) (Some 3%nat)
                   (Some ProNoopPredicate)).
Proof.
  apply (proj2 (proj2 (DepKey_eq_hash_contract ex_hash_ref 0 1 id ex_hash_tuple
                         (Some 7%nat) (Some 7%nat)
                         (Plain 1%nat) (PureDepO (Plain 1%nat))
                         (Some 3%nat) (Some 3%nat)
                         None (Some ProNoopPredicate)))).
  reflexivity.
Defined.

End Markers.

(** * Dependency records ([_dependency.py]) *)

Module Dependencies.

Import Markers.

(** ** Scopes, providers and the identity of a record *)

(** What a [scope] field can hold: [None], a [NullScope()] instance
    (false, no [container]), or a [Scope] (true) with its container.
    [Scope.__eq__] is [o is self] and [NullScope] keeps the default
    [__eq__], so both compare by identity, here the object's number. *)
Inductive ScopeRef :=
| NoScope
| NullScope (oid : nat)
| RealScope (oid : ScopeId) (container : Container).

(** A provider, with the container it is attached to.  Providers keep
    the default truth value. *)
Record Provider := mkProvider {
  provider_id : nat;
  provider_container : option Container
}.

Definition scope_truthy (s : ScopeRef) : bool :=
  match s with
  | RealScope _ _ => true
  | _ => false
  end.

Definition scope_eq (a b : ScopeRef) : bool :=
  match a, b with
  | NoScope, NoScope => true
  | NullScope i, NullScope j => Nat.eqb i j
  | RealScope i _, RealScope j _ => Nat.eqb i j
  | _, _ => false
  end.

Definition container_eq (a b : option Container) : bool :=
  match a, b with
  | None, None => true
  | Some c, Some d => Nat.eqb c d
  | _, _ => false
  end.

(** The concrete subclasses of [Dependency]. *)
Inductive DepClass :=
| SimpleDependency | Value | Factory | AsyncFactory | AwaitParamsFactory
| AwaitParamsAsyncFactory | Singleton | AsyncSingleton | AwaitParamsSingleton
| AwaitParamsAsyncSingleton | Partial | AsyncPartial | AwaitParamsPartial
| AwaitParamsAsyncPartial | Callable | AsyncCallable | AwaitParamsCallable
| AwaitParamsAsyncCallable.

#[global] Instance DepClass_eq_dec : EqDecision DepClass.
Proof. solve_decision. Defined.

Section Identity.

Variable hash_ref : nat -> Z.
Variable hash_none : Z.
Variable hash_missing : Z.
Variable hash_int : Z -> Z.
Variable hash_tuple : list Z -> Z.

(** The types of the payloads, which take no part in what follows. *)
Variable Concrete : Type.
Variable Params : Type.

(** [Dependency] (lines 31-80): the attrs fields, with [_v_ident] and
    [_ash] filled in by their defaults when the record is built. *)
Record Dependency := mkDependency {
  dep_class : DepClass;
  abstract : Obj;
  scope : ScopeRef;
  provider : option Provider;
  concrete : Concrete;
  params : Params;
  _v_ident : Obj * ScopeRef * option Container;
  _ash : Z
}.

(** The [container] property (lines 60-63):
    [if pro := self.provider or self.scope: return pro.container]. *)
Definition container_of (provider : option Provider) (scope : ScopeRef)
  : option Container :=
  match provider with
  | Some p => provider_container p
  | None =>
      match scope with
      | RealScope _ c => Some c
      | _ => None
      end
  end.

Definition hash_scope (s : ScopeRef) : Z :=
  match s with
  | NoScope => hash_none
  | NullScope i => hash_ref i
  | RealScope i _ => hash_ref i
  end.

Definition hash_container (c : option Container) : Z :=
  from_option hash_ref hash_none c.

Definition hash_ident (i : Obj * ScopeRef * option Container) : Z :=
  hash_tuple [py_hash hash_ref hash_none hash_missing hash_int hash_tuple i.1.1;
              hash_scope i.1.2; hash_container i.2].

(** The generated [__init__], for the class [cls]. *)
Definition new (cls : DepClass) (abstract : Obj) (scope : ScopeRef)
    (provider : option Provider) (concrete : Concrete) (params : Params)
  : Dependency :=
  let ident := (abstract, scope, container_of provider scope) in
  mkDependency cls abstract scope provider concrete params ident
    (hash_ident ident).

(** [==] on two identity tuples. *)
Definition ident_eq (a b : Obj * ScopeRef * option Container) : bool :=
  obj_eq a.1.1 b.1.1 && scope_eq a.1.2 b.1.2 && container_eq a.2 b.2.

(** [Dependency.__eq__] (lines 65-70) on another [Dependency], and
    [__hash__] (lines 79-80). *)
Definition dep_eq (self o : Dependency) : bool :=
  if decide (dep_class o = dep_class self)
  then ident_eq (_v_ident o) (_v_ident self)
  else false.

Definition dep_hash (self : Dependency) : Z := _ash self.

Lemma scope_eq_sym a b : scope_eq a b = scope_eq b a.
Proof. destruct a, b; simpl; try done; apply Nat.eqb_sym. Qed.

Lemma scope_eq_hash a b : scope_eq a b = true -> hash_scope a = hash_scope b.
Proof. destruct a, b; simpl; try done; by intros ->%Nat.eqb_eq. Qed.

Lemma container_eq_eq a b : container_eq a b = true -> a = b.
Proof. destruct a, b; simpl; try done. by intros ->%Nat.eqb_eq. Qed.

Lemma ident_eq_hash i j : ident_eq i j = true -> hash_ident i = hash_ident j.
Proof.
  unfold ident_eq, hash_ident.
  intros [[H1 H2]%andb_true_iff H3]%andb_true_iff.
  by rewrite (obj_eq_hash _ _ _ _ _ _ _ H1), (scope_eq_hash _ _ H2),
    (container_eq_eq _ _ H3).
Qed.

(** C9: two records of the same variant class are equal exactly when
    their [(abstract, scope, container)] triples are equal, whatever
    their [concrete] and [params]; equal records have equal hashes; and
    records of different scopes are not equal. *)
Theorem Dependency_identity (cls : DepClass)
    (a a' : Obj) (s s' : ScopeRef) (p p' : option Provider)
    (c c' : Concrete) (ps ps' : Params) :
  dep_eq (new cls a s p c ps) (new cls a' s' p' c' ps')
  = ident_eq (a', s', container_of p' s') (a, s, container_of p s)
  /\ (dep_eq (new cls a s p c ps) (new cls a' s' p' c' ps') = true ->
      dep_hash (new cls a s p c ps) = dep_hash (new cls a' s' p' c' ps'))
  /\ (scope_eq s s' = false ->
      dep_eq (new cls a s p c ps) (new cls a' s' p' c' ps') = false).
Proof.
  assert (E : dep_eq (new cls a s p c ps) (new cls a' s' p' c' ps')
              = ident_eq (a', s', container_of p' s')
                  (a, s, container_of p s)).
  { unfold dep_eq. simpl. by rewrite decide_True. }
  rewrite E. split; [done|]. split.
  - intros H. unfold dep_hash. simpl. symmetry. by apply ident_eq_hash.
  - intros H. unfold ident_eq. simpl.
    by rewrite (scope_eq_sym s' s), H, andb_false_r.
Qed.

(** Records of different variant classes are never equal. *)
Lemma dep_eq_classes (d e : Dependency) :
  dep_class d <> dep_class e -> dep_eq d e = false.
Proof. intros H. unfold dep_eq. by rewrite decide_False. Qed.

End Identity.

(** Two [Value] records for the same key in the same scope and
    container, with different payloads. *)
Definition sum_hash (l : list Z) : Z := foldr Z.add 0 l.

Definition value_1 : Dependency nat unit :=
  new Z.of_nat 0 1 id sum_hash nat unit
    Value (Plain 1%nat) (RealScope 7%nat 3%nat) None 10%nat ().

Definition value_2 : Dependency nat unit :=
  new Z.of_nat 0 1 id sum_hash nat unit
    Value (PureDepO (Plain 1%nat)) (RealScope 7%nat 3%nat)
    (Some (mkProvider 5%nat (Some 3%nat))) 20%nat ().

Lemma Dependency_identity_witness :
  dep_eq nat unit value_1 value_2 = true
  /\ dep_hash nat unit value_1 = dep_hash nat unit value_2.
Proof.
  split; [reflexivity|].
  destruct (Dependency_identity Z.of_nat 0 1 id sum_hash nat unit
              Value (Plain 1%nat) (PureDepO (Plain 1%nat))
              (RealScope 7%nat 3%nat) (RealScope 7%nat 3%nat)
              None (Some (mkProvider 5%nat (Some 3%nat))) 10%nat 20%nat () ())
    as (_ & H & _).
  apply H. reflexivity.
Defined.

(** ** Binding *)

(** The values user functions return: the [Missing] sentinel, or an
    object named by a number. *)
Inductive PyValue :=
| MissingV
| Val (n : nat).

Definition is_Missing (v : PyValue) : bool :=
  match v with
  | MissingV => true
  | Val _ => false
  end.

(** [InjectorLookupError] ([__init__.py], lines 158-162) carries
    [abstract] and [scope]; the other exceptions a call can raise. *)
Inductive PyExc :=
| ETypeError
| InjectorLookupError (abstract : Obj) (scope : ScopeRef)
| UserError (n : nat).

(** A call returns, raises, or blocks for ever on a lock. *)
Inductive Outcome (A : Type) :=
| Returns (a : A)
| Raises (e : PyExc)
| Blocks.
Arguments Returns {A} a.
Arguments Raises {A} e.
Arguments Blocks {A}.

(** One call of a user function, as recorded when it happens. *)
Record Call := mkCall {
  callee : nat;
  positional : list PyValue;
  keywords : gmap string PyValue
}.

(** [LookupErrorDependency] (lines 84-115): [__new__] keeps [abstract]
    and [scope] only. *)
Record LookupErrorDependency := mkLookupErrorDependency {
  led_abstract : Obj;
  led_scope : ScopeRef
}.

(** A positional parameter of a plan ([p.has_value], [p.value],
    [p.dependency]) and a keyword dependency ([p.key], [p.dependency]). *)
Record Arg := mkArg {
  has_value : bool;
  value : PyValue;
  dependency : Obj
}.

Record KwArg := mkKwArg {
  key : string;
  kw_dependency : Obj
}.

(** Modelled from the spec: [BoundParams] of [_functools], which is not
    among the sources: "ordered list of Arg (positional) and KwArg
    (keyword); each holds either a literal value or a dependency key",
    with the literal keyword values in [vals] and the keyword
    dependencies in [kwds]. *)
Record BoundParams := mkBoundParams {
  args : list Arg;
  kwds : list KwArg;
  vals : gmap string PyValue
}.

(** The precomputed counters [_pos_vals] and [_pos_deps], and the truth
    value of a plan: an empty plan is false. *)
Definition _pos_vals (ps : BoundParams) : nat :=
  length (filter (fun p => has_value p = true) (args ps)).

Definition _pos_deps (ps : BoundParams) : nat :=
  length (filter (fun p => has_value p = false) (args ps)).

Definition params_truthy (ps : BoundParams) : bool :=
  negb (bool_decide (args ps = []) && bool_decide (kwds ps = [])
        && bool_decide (vals ps = ∅)).

Section LookupErrors.

Variable hash_ref : nat -> Z.
Variable hash_none : Z.
Variable hash_missing : Z.
Variable hash_int : Z -> Z.
Variable hash_tuple : list Z -> Z.

(** What a [LookupErrorDependency] is compared with: an injectable or
    marker, or another [LookupErrorDependency]. *)
Inductive Operand :=
| OObj (o : Obj)
| OLookupError (l : LookupErrorDependency).

(** [x == l] for an injectable or marker [x] and a
    [LookupErrorDependency] [l].  [PureDep.__eq__] compares its [_ident]
    with [l]; the [__eq__] of the other objects gives [NotImplemented]
    (that of a [Dep] because [l] is no [Dep]), so the reflected
    [l.__eq__(x)] answers with [l.abstract == x]. *)
Fixpoint obj_eq_led (x : Obj) (l : LookupErrorDependency) : bool :=
  match x with
  | PureDepO a => obj_eq_led a l
  | _ => obj_eq (led_abstract l) x
  end.

(** [LookupErrorDependency.__eq__] (lines 105-106), [__ne__] (108-109),
    [__hash__] (111-112) and [__bool__] (99-100). *)
Definition led_eq (self : LookupErrorDependency) (o : Operand) : bool :=
  match o with
  | OObj x => obj_eq (led_abstract self) x
  | OLookupError l => obj_eq_led (led_abstract self) l
  end.

Definition led_ne (self : LookupErrorDependency) (o : Operand) : bool :=
  negb (led_eq self o).

Definition led_hash (self : LookupErrorDependency) : Z :=
  py_hash hash_ref hash_none hash_missing hash_int hash_tuple
    (led_abstract self).

Definition led_bool (self : LookupErrorDependency) : bool := false.

Definition operand_hash (o : Operand) : Z :=
  match o with
  | OObj x => py_hash hash_ref hash_none hash_missing hash_int hash_tuple x
  | OLookupError l => led_hash l
  end.

Lemma obj_eq_led_abstract x l : obj_eq_led x l = obj_eq x (led_abstract l).
Proof.
  induction x as [n| |a IHa|a _ p d _]; simpl.
  - apply obj_eq_sym.
  - apply obj_eq_sym.
  - by rewrite IHa, obj_eq_unwrap_l.
  - apply obj_eq_sym.
Qed.

(** X28: a [LookupErrorDependency] stands for its abstract key in
    comparisons and as a dictionary key: it equals its abstract and
    hashes like it, two of them are equal exactly when their abstracts
    are, whatever their scopes, whatever it equals has its hash, and it
    is a false object. *)
Theorem LookupErrorDependency_stands_for_its_abstract
    (self : LookupErrorDependency) (a : Obj) (s s' : ScopeRef) (o : Operand) :
  led_eq self (OObj (led_abstract self)) = true
  /\ led_hash self = operand_hash (OObj (led_abstract self))
  /\ led_eq (mkLookupErrorDependency a s)
        (OLookupError (mkLookupErrorDependency a s')) = true
  /\ (forall l, led_eq self (OLookupError l)
                = obj_eq (led_abstract self) (led_abstract l))
  /\ (led_eq self o = true -> led_hash self = operand_hash o)
  /\ led_ne self o = negb (led_eq self o)
  /\ led_bool self = false.
Proof.
  split; [apply obj_eq_refl|]. split; [done|].
  split; [simpl; rewrite obj_eq_led_abstract; apply obj_eq_refl|].
  split; [intros l; apply obj_eq_led_abstract|].
  split; [|done].
  destruct o as [x|l]; simpl.
  - apply obj_eq_hash.
  - rewrite obj_eq_led_abstract. apply obj_eq_hash.
Qed.

End LookupErrors.

Section Binding.

(** The state user functions read and write, and what calling the
    function named [f] with positional and keyword arguments does. *)
Variable W : Type.
Variable apply_fn :
  nat -> list PyValue -> gmap string PyValue -> W -> Outcome PyValue * W.

(** Computations: the user state and the calls made so far go in and
    come out. *)
Definition World : Type := W * list Call.

Definition M (A : Type) : Type := World -> Outcome A * World.

#[local] Instance M_ret : MRet M := fun _ a w => (Returns a, w).
#[local] Instance M_bind : MBind M := fun _ _ k m w =>
  match m w with
  | (Returns a, w') => k a w'
  | (Raises e, w') => (Raises e, w')
  | (Blocks, w') => (Blocks, w')
  end.

Definition raise {A} (e : PyExc) : M A := fun w => (Raises e, w).

(** The call of the user function [f] with the positional arguments
    [pos] and the keyword arguments [kw]. *)
Definition invoke (f : nat) (pos : list PyValue) (kw : gmap string PyValue)
  : M PyValue :=
  fun w =>
    let '(r, u) := apply_fn f pos kw w.1 in
    (r, (u, w.2 ++ [mkCall f pos kw])).

(** A bound factory: a callable without arguments. *)
Definition Thunk : Type := M PyValue.

(** An injector: its [scope] and [injector[key]]. *)
Record Injector := mkInjector {
  injector_scope : ScopeRef;
  injector_getitem : Obj -> Thunk
}.

(** [LookupErrorDependency.bind] (lines 114-115). *)
Definition LookupErrorDependency_bind (self : LookupErrorDependency)
    (injector : Injector) : Outcome Thunk :=
  Raises (InjectorLookupError (led_abstract self)
            (if scope_truthy (led_scope self) then led_scope self
             else injector_scope injector)).

(** The sequences [Factory.resolve_args] returns (lines 168-182). *)
Inductive PosSeq :=
| _PositionalArgs (items : list (option PyValue * option Thunk))
| _PositionalDeps (items : list Thunk)
| PosTuple (items : list PyValue).

Definition resolve_args (params : BoundParams) (injector : Injector)
  : PosSeq :=
  match args params with
  | [] => PosTuple []
  | _ =>
      if bool_decide (0 < _pos_vals params)%nat
         && bool_decide (0 < _pos_deps params)%nat
      then _PositionalArgs
             ((fun p => if has_value p then (Some (value p), None)
                        else (None, Some (injector_getitem injector
                                            (dependency p))))
                <$> args params)
      else if bool_decide (0 < _pos_deps params)%nat
      then _PositionalDeps
             ((fun p => injector_getitem injector (dependency p))
                <$> args params)
      else PosTuple (value <$> args params)
  end.

(** [Factory.resolve_kwargs] (lines 184-185): the [_KeywordDeps]
    mapping, as its items in order. *)
Definition resolve_kwargs (params : BoundParams) (injector : Injector)
  : list (string * Thunk) :=
  (fun p => (key p, injector_getitem injector (kw_dependency p)))
    <$> kwds params.

Fixpoint sequence {A} (l : list (M A)) : M (list A) :=
  match l with
  | [] => mret []
  | m :: l' => a ← m; r ← sequence l'; mret (a :: r)
  end.

(** Modelled from the spec: unpacking the sequences of [_functools]
    with [*args]: a literal is itself, a dependency edge is the value its
    bound factory returns when called, in order. *)
Definition unpack_pos (s : PosSeq) : M (list PyValue) :=
  match s with
  | _PositionalArgs items =>
      sequence ((fun i => match i with
                          | (_, Some t) => t
                          | (Some v, None) => mret v
                          | (None, None) => mret MissingV
                          end) <$> items)
  | _PositionalDeps items => sequence items
  | PosTuple items => mret items
  end.

(** Modelled from the spec: unpacking a [_KeywordDeps] with [**kwargs]
    calls the bound factory of each name, and [skip(kw)] leaves out the
    names present in [kw]. *)
Fixpoint unpack_kw (items : list (string * Thunk)) : M (gmap string PyValue) :=
  match items with
  | [] => mret ∅
  | (k, t) :: items' => v ← t; r ← unpack_kw items'; mret (<[k := v]> r)
  end.

Definition skip (items : list (string * Thunk)) (kw : gmap string PyValue)
  : list (string * Thunk) :=
  filter (fun i => kw !! i.1 = None) items.

(** Two [**] mappings in one call: a name given twice is a
    [TypeError]. *)
Definition merge_kw (a b : gmap string PyValue) : M (gmap string PyValue) :=
  if bool_decide (a ##ₘ b) then mret (a ∪ b) else raise ETypeError.

(** The fields of the [Factory] family (lines 147-152): the function
    [concrete], named by a number, the plan and [thread_safe]. *)
Record FactoryAttrs := mkFactoryAttrs {
  bound : BoundParams;
  thread_safe : bool
}.

Definition FactoryDep : Type := Dependency nat FactoryAttrs.

(** [Singleton.factory] (lines 243-251): the function the singleton
    calls for its value. *)
Definition Singleton_factory (self : FactoryDep) (injector : Injector)
  : Thunk :=
  let ps := bound (params _ _ self) in
  if params_truthy ps then
    let args := resolve_args ps injector in
    let kwargs := resolve_kwargs ps injector in
    let vals := vals ps in
    let func := concrete _ _ self in
    (pos ← unpack_pos args;
     kw ← unpack_kw kwargs;
     m ← merge_kw kw vals;
     invoke func pos m)
  else invoke (concrete _ _ self) [] ∅.

(** The variables the closure of [Singleton.bind] keeps: [value], and
    [lock], which is [None] unless [thread_safe]; a lock is held or
    free. *)
Record Cell := mkCell {
  cell_value : PyValue;
  cell_lock : option bool
}.

Definition StatefulThunk : Type :=
  Cell -> World -> Outcome PyValue * Cell * World.

(** The inner [factory()] of [Singleton.bind] (lines 258-269).
    Acquiring a held lock blocks; the [finally] clause releases the lock
    on both ways out. *)
Definition singleton_thunk (func : Thunk) : StatefulThunk :=
  fun c w =>
    if negb (is_Missing (cell_value c)) then (Returns (cell_value c), c, w)
    else
      match cell_lock c with
      | Some true => (Blocks, c, w)
      | lock =>
          let held := (fun _ : bool => true) <$> lock in
          let free := (fun _ : bool => false) <$> lock in
          if is_Missing (cell_value c) then
            match func w with
            | (Returns v, w') => (Returns v, mkCell v free, w')
            | (Raises e, w') => (Raises e, mkCell (cell_value c) free, w')
            | (Blocks, w') => (Blocks, mkCell (cell_value c) held, w')
            end
          else (Returns (cell_value c), mkCell (cell_value c) free, w)
      end.

(** [Singleton.bind] (lines 253-271): the closure and its variables as
    they are when [bind] returns. *)
Definition Singleton_bind (self : FactoryDep) (injector : Injector)
  : Cell * StatefulThunk :=
  let func := Singleton_factory self injector in
  let value := MissingV in
  let lock := if thread_safe (params _ _ self) then Some false else None in
  (mkCell value lock, singleton_thunk func).

(** [n] calls of the closure, one after the other. *)
Fixpoint call_times (n : nat) (t : StatefulThunk) (c : Cell) (w : World)
  : list (Outcome PyValue) * Cell * World :=
  match n with
  | O => ([], c, w)
  | S n' =>
      let '(r, c', w') := t c w in
      let '(rs, c'', w'') := call_times n' t c' w' in
      (r :: rs, c'', w'')
  end.

(** [vals | kw]: the right operand wins. *)
Definition dict_or (a b : gmap string PyValue) : gmap string PyValue := b ∪ a.

(** [Partial.factory] (lines 314-324), applied to the call-site
    arguments [a] and [kw], and [Partial.bind] (lines 326-327). *)
Definition Partial_factory (self : FactoryDep) (injector : Injector)
    (a : list PyValue) (kw : gmap string PyValue) : M PyValue :=
  let args := resolve_args (bound (params _ _ self)) injector in
  let kwargs := resolve_kwargs (bound (params _ _ self)) injector in
  let vals := vals (bound (params _ _ self)) in
  let func := concrete _ _ self in
  pos ← unpack_pos args;
  deps ← unpack_kw (skip kwargs kw);
  m ← merge_kw (dict_or vals kw) deps;
  invoke func (pos ++ a) m.

Definition Partial_bind (self : FactoryDep) (injector : Injector)
  : list PyValue -> gmap string PyValue -> M PyValue :=
  Partial_factory self injector.

(** ** Facts about binding *)

(** C8: [bind] of a [LookupErrorDependency] raises
    [InjectorLookupError] with the record's abstract key and its scope,
    or the injector's scope when the record's is [None] or a
    [NullScope]; it never returns a factory. *)
Theorem LookupErrorDependency_bind_raises (self : LookupErrorDependency)
    (injector : Injector) :
  LookupErrorDependency_bind self injector
  = Raises (InjectorLookupError (led_abstract self)
              match led_scope self with
              | RealScope _ _ => led_scope self
              | _ => injector_scope injector
              end)
  /\ forall f, LookupErrorDependency_bind self injector <> Returns f.
Proof.
  unfold LookupErrorDependency_bind. split; [|done].
  by destruct (led_scope self).
Qed.

Lemma call_times_published (func : Thunk) v lock n w :
  is_Missing v = false ->
  lock <> Some true ->
  call_times n (singleton_thunk func) (mkCell v lock) w
  = (replicate n (Returns v), mkCell v lock, w).
Proof.
  intros Hv Hl. induction n as [|n IH]; [done|].
  simpl. unfold singleton_thunk at 1. simpl. rewrite Hv. simpl.
  by rewrite IH.
Qed.

(** One call of the function the singleton calls for its value calls
    [concrete] once, as its last step, after the planned arguments are
    resolved. *)
Lemma Singleton_factory_invokes (self : FactoryDep) (injector : Injector)
    (w w' : World) (v : PyValue) :
  Singleton_factory self injector w = (Returns v, w') ->
  exists pos kw w0,
    invoke (concrete _ _ self) pos kw w0 = (Returns v, w')
    /\ w'.2 = w0.2 ++ [mkCall (concrete _ _ self) pos kw].
Proof.
  unfold Singleton_factory.
  destruct (params_truthy _).
  - unfold mbind, M_bind.
    destruct (unpack_pos _ w) as [[pos| |] w1]; try done.
    destruct (unpack_kw _ w1) as [[kw| |] w2]; try done.
    destruct (merge_kw _ _ w2) as [[m| |] w3] eqn:Em; try done.
    intros H. exists pos, m, w3. split; [done|].
    unfold invoke in H. destruct (apply_fn _ _ _ _). by inversion H.
  - intros H. exists [], ∅, w. split; [done|].
    unfold invoke in H. destruct (apply_fn _ _ _ _). by inversion H.
Qed.

(** Without a plan the trace grows by the one call [concrete()]. *)
Lemma Singleton_no_params_trace (self : FactoryDep) (injector : Injector)
    (w w' : World) (v : PyValue) :
  params_truthy (bound (params _ _ self)) = false ->
  Singleton_factory self injector w = (Returns v, w') ->
  w'.2 = w.2 ++ [mkCall (concrete _ _ self) [] ∅].
Proof.
  unfold Singleton_factory. intros ->. unfold invoke.
  destruct (apply_fn _ _ _ _). by intros [= _ <-].
Qed.

(** C6, as the code has it: the closure calls the function until a
    call returns a value other than the [Missing] sentinel.  (1) When
    the function returns such a value, any number of calls of the
    closure, at least one, all return that value and leave the state one
    single call of the function leaves, the lock free; the last call
    recorded is then the call of [concrete], and without a plan the
    calls recorded grow by that one call, [concrete()], and no other.
    (2) When the function raises, the call of the closure raises the
    same, nothing is published, and the calls that follow go on as calls
    of the closure [bind] returned: the function is called again.
    (3) The same when the function returns [Missing]. *)
Theorem Singleton_bind_calls_once (self : FactoryDep) (injector : Injector)
    (w w' : World) (n : nat) :
  (forall v,
     Singleton_factory self injector w = (Returns v, w') ->
     is_Missing v = false ->
     call_times (S n) (Singleton_bind self injector).2
       (Singleton_bind self injector).1 w
     = (replicate (S n) (Returns v),
        mkCell v (if thread_safe (params _ _ self) then Some false else None),
        w')
     /\ (exists pos kw w0,
           invoke (concrete _ _ self) pos kw w0 = (Returns v, w')
           /\ w'.2 = w0.2 ++ [mkCall (concrete _ _ self) pos kw])
     /\ (params_truthy (bound (params _ _ self)) = false ->
         w'.2 = w.2 ++ [mkCall (concrete _ _ self) [] ∅]))
  /\ (forall e,
        Singleton_factory self injector w = (Raises e, w') ->
        call_times (S n) (Singleton_bind self injector).2
          (Singleton_bind self injector).1 w
        = let '(rs, c, w'') :=
            call_times n (Singleton_bind self injector).2
              (Singleton_bind self injector).1 w' in
          (Raises e :: rs, c, w''))
  /\ (Singleton_factory self injector w = (Returns MissingV, w') ->
      call_times (S n) (Singleton_bind self injector).2
        (Singleton_bind self injector).1 w
      = let '(rs, c, w'') :=
          call_times n (Singleton_bind self injector).2
            (Singleton_bind self injector).1 w' in
        (Returns MissingV :: rs, c, w'')).
Proof.
  unfold Singleton_bind. cbn [fst snd call_times].
  split; [|split].
  - intros v Hf Hv. split; [|split].
    + unfold singleton_thunk at 1.
      cbn [cell_value cell_lock is_Missing negb].
      destruct (thread_safe (params nat FactoryAttrs self));
        cbn [fmap option_fmap option_map];
        rewrite Hf; rewrite call_times_published by done; done.
    + by eapply Singleton_factory_invokes.
    + intros Hp. by eapply Singleton_no_params_trace.
  - intros e Hf. unfold singleton_thunk at 1.
    cbn [cell_value cell_lock is_Missing negb].
    destruct (thread_safe (params nat FactoryAttrs self));
      cbn [fmap option_fmap option_map]; by rewrite Hf.
  - intros Hf. unfold singleton_thunk at 1.
    cbn [cell_value cell_lock is_Missing negb].
    destruct (thread_safe (params nat FactoryAttrs self));
      cbn [fmap option_fmap option_map]; by rewrite Hf.
Qed.

Lemma unpack_kw_keys (items : list (string * Thunk)) :
  forall w ds w', unpack_kw items w = (Returns ds, w') ->
  forall k, is_Some (ds !! k) -> k ∈ items.*1.
Proof.
  induction items as [|[k t] items IH]; intros w ds w'; simpl.
  - intros [= <- _] k0. rewrite lookup_empty. by intros [? ?].
  - unfold mbind, M_bind.
    destruct (t w) as [[v| |] w1]; try done.
    destruct (unpack_kw items w1) as [[r| |] w2] eqn:E; try done.
    intros [= <- _] k0 Hk0. destruct (decide (k0 = k)) as [->|Hne].
    + by left.
    + right. rewrite lookup_insert_ne in Hk0 by done. by eapply IH.
Qed.

Lemma skip_keys (items : list (string * Thunk)) (kw : gmap string PyValue) k :
  k ∈ (skip items kw).*1 <-> k ∈ items.*1 /\ kw !! k = None.
Proof.
  unfold skip. rewrite !list_elem_of_fmap. split.
  - intros (i & -> & [Hi ?]%list_elem_of_filter). split; [by exists i|done].
  - intros [(i & -> & Hi) Hk]. exists i. split; [done|].
    by apply list_elem_of_filter.
Qed.

Lemma resolve_kwargs_keys (ps : BoundParams) (injector : Injector) :
  (resolve_kwargs ps injector).*1 = key <$> kwds ps.
Proof.
  unfold resolve_kwargs. rewrite <- list_fmap_compose.
  by apply list_fmap_ext.
Qed.

(** C7: the closure of a [Partial], called with positional arguments
    [a] and keyword arguments [kw], calls the planned function once its
    arguments are resolved, with the planned positionals followed by
    [a], and with keywords in which [kw] wins over the planned literal
    values, these over the planned keyword dependencies, and where the
    dependencies named in [kw] are not resolved at all.  The names of the
    planned keyword dependencies are those of parameters without a
    literal value. *)
Theorem Partial_bind_merges (self : FactoryDep) (injector : Injector)
    (a : list PyValue) (kw : gmap string PyValue) (w : World) :
  Forall (fun p => vals (bound (params _ _ self)) !! key p = None)
         (kwds (bound (params _ _ self))) ->
  Partial_bind self injector a kw w
  = (pos ← unpack_pos (resolve_args (bound (params _ _ self)) injector);
     deps ← unpack_kw
              (skip (resolve_kwargs (bound (params _ _ self)) injector) kw);
     invoke (concrete _ _ self) (pos ++ a)
       (kw ∪ vals (bound (params _ _ self)) ∪ deps)) w
  /\ (forall deps k v,
        kw !! k = Some v ->
        (kw ∪ vals (bound (params _ _ self)) ∪ deps) !! k = Some v)
  /\ (forall deps k v,
        kw !! k = None -> vals (bound (params _ _ self)) !! k = Some v ->
        (kw ∪ vals (bound (params _ _ self)) ∪ deps) !! k = Some v)
  /\ (forall k,
        k ∈ (skip (resolve_kwargs (bound (params _ _ self)) injector) kw).*1
        <-> k ∈ key <$> kwds (bound (params _ _ self)) /\ kw !! k = None).
Proof.
  intros Hd. rewrite Forall_forall in Hd. split; [|split; [|split]].
  - unfold Partial_bind, Partial_factory, mbind, M_bind.
    destruct (unpack_pos _ w) as [[pos| |] w1]; try done.
    destruct (unpack_kw _ w1) as [[deps| |] w2] eqn:E; try done.
    unfold merge_kw, dict_or. rewrite bool_decide_true; [done|].
    apply map_disjoint_spec. intros k x y Hx Hy.
    assert (Hk : k ∈ (skip (resolve_kwargs (bound (params _ _ self))
                              injector) kw).*1).
    { eapply unpack_kw_keys; [done|]. by exists y. }
    apply skip_keys in Hk as [Hk Hkw].
    rewrite resolve_kwargs_keys in Hk.
    apply list_elem_of_fmap in Hk as (p & -> & Hp).
    apply lookup_union_Some_raw in Hx as [Hx|[_ Hx]].
    + by rewrite Hkw in Hx.
    + by rewrite (Hd p Hp) in Hx.
  - intros deps k v Hk. apply lookup_union_Some_l.
    by apply lookup_union_Some_l.
  - intros deps k v Hk Hv. apply lookup_union_Some_l.
    rewrite lookup_union_r; done.
  - intros k. rewrite skip_keys. by rewrite resolve_kwargs_keys.
Qed.

(** ** Factories that are called every time *)

(** [Factory.bind] (lines 158-166): the closure has the body
    [Singleton.factory] has. *)
Definition Factory_bind (self : FactoryDep) (injector : Injector) : Thunk :=
  let ps := bound (params _ _ self) in
  if params_truthy ps then
    let args := resolve_args ps injector in
    let kwargs := resolve_kwargs ps injector in
    let vals := vals ps in
    let func := concrete _ _ self in
    (pos ← unpack_pos args;
     kw ← unpack_kw kwargs;
     m ← merge_kw kw vals;
     invoke func pos m)
  else invoke (concrete _ _ self) [] ∅.

(** [n] calls of a bound factory, one after the other, whatever each
    of them returns or raises. *)
Fixpoint thunk_times (n : nat) (t : Thunk) (w : World)
  : list (Outcome PyValue) * World :=
  match n with
  | O => ([], w)
  | S n' =>
      let '(r, w') := t w in
      let '(rs, w'') := thunk_times n' t w' in
      (r :: rs, w'')
  end.

(** X18: a [Factory] without a plan is bound to the function itself
    and keeps no value: [n] calls of the bound factory are [n] calls of
    the function, each without arguments, whatever the calls return or
    raise. *)
Theorem Factory_bind_calls_every_time (self : FactoryDep)
    (injector : Injector) (n : nat) (w : World) :
  params_truthy (bound (params _ _ self)) = false ->
  Factory_bind self injector = invoke (concrete _ _ self) [] ∅
  /\ length (thunk_times n (Factory_bind self injector) w).1 = n
  /\ (thunk_times n (Factory_bind self injector) w).2.2
     = w.2 ++ replicate n (mkCall (concrete _ _ self) [] ∅).
Proof.
  intros Hp. unfold Factory_bind. rewrite Hp. split; [done|].
  revert w. induction n as [|n IH]; intros w.
  - simpl. by rewrite app_nil_r.
  - simpl. unfold invoke at 1 3.
    destruct (apply_fn (concrete _ _ self) [] ∅ w.1) as [r u].
    destruct (IH (u, w.2 ++ [mkCall (concrete _ _ self) [] ∅])) as [H1 H2].
    destruct (thunk_times n _ _) as [rs w''].
    simpl in *. split; [by rewrite H1|].
    by rewrite H2, <- app_assoc.
Qed.

(** X19: the closure of [Singleton.bind] publishes nothing when the
    function raises or returns the [Missing] sentinel: the exception (or
    [Missing]) goes to the caller, the lock is released, and the closure
    is left as [bind] returned it, so the next call calls the function
    again. *)
Theorem Singleton_bind_keeps_no_failure (self : FactoryDep)
    (injector : Injector) (w w' : World) :
  (forall e,
     Singleton_factory self injector w = (Raises e, w') ->
     (Singleton_bind self injector).2 (Singleton_bind self injector).1 w
     = (Raises e, (Singleton_bind self injector).1, w'))
  /\ (Singleton_factory self injector w = (Returns MissingV, w') ->
      (Singleton_bind self injector).2 (Singleton_bind self injector).1 w
      = (Returns MissingV, (Singleton_bind self injector).1, w')).
Proof.
  unfold Singleton_bind. cbn [fst snd]. unfold singleton_thunk.
  cbn [cell_value cell_lock is_Missing negb].
  split; [intros e H|intros H];
    destruct (thread_safe (params nat FactoryAttrs self));
    cbn [fmap option_fmap option_map]; by rewrite H.
Qed.

(** ** The positional plan *)

Lemma sequence_Forall2 {A} (l : list (M A)) :
  forall w r w', sequence l w = (Returns r, w') ->
  Forall2 (fun m v => exists w1 w2, m w1 = (Returns v, w2)) l r.
Proof.
  induction l as [|m l IH]; intros w r w'; simpl.
  - intros [= <- _]. constructor.
  - unfold mbind, M_bind.
    destruct (m w) as [[a| |] w1] eqn:Em; try done.
    destruct (sequence l w1) as [[r'| |] w2] eqn:El; try done.
    intros [= <- _]. constructor; [by eauto|by eapply IH].
Qed.

Lemma filter_length_0 {A} (P : A -> Prop) `{!forall x, Decision (P x)}
    (l : list A) :
  length (filter P l) = 0%nat -> Forall (fun x => ~ P x) l.
Proof.
  induction l as [|x l IH]; [by constructor|].
  rewrite filter_cons. destruct (decide (P x)); [done|].
  intros Hl. constructor; [done|by apply IH].
Qed.

(** X20: [resolve_args] hands the planned positional parameters over
    in the order of the plan: when the sequence it returns unpacks, as
    many values come out as the plan has positional parameters, and each
    parameter with a literal value gives that value at its position.  A
    plan without positional dependencies is resolved to the tuple of its
    literals, without any lookup in the injector. *)
Theorem resolve_args_follows_plan (ps : BoundParams) (injector : Injector)
    (w w' : World) (pos : list PyValue) :
  unpack_pos (resolve_args ps injector) w = (Returns pos, w') ->
  length pos = length (args ps)
  /\ (forall i p, args ps !! i = Some p -> has_value p = true ->
        pos !! i = Some (value p))
  /\ (_pos_deps ps = 0%nat ->
      resolve_args ps injector = PosTuple (value <$> args ps)).
Proof.
  intros H.
  assert (H3 : _pos_deps ps = 0%nat ->
               resolve_args ps injector = PosTuple (value <$> args ps)).
  { intros Hd. unfold resolve_args. rewrite Hd.
    destruct (args ps); [done|].
    rewrite (bool_decide_false (0 < 0)%nat) by lia.
    by rewrite andb_false_r. }
  split; [|split; [|done]].
  - unfold resolve_args in H. destruct (args ps) as [|p0 l] eqn:Ea.
    { unfold unpack_pos, mret, M_ret in H. by simplify_eq. }
    rewrite <- Ea in *. clear Ea.
    destruct (bool_decide (0 < _pos_vals ps)%nat
              && bool_decide (0 < _pos_deps ps)%nat).
    + apply sequence_Forall2, Forall2_length in H.
      by rewrite !length_fmap in H.
    + destruct (bool_decide (0 < _pos_deps ps)%nat).
      * apply sequence_Forall2, Forall2_length in H.
        by rewrite length_fmap in H.
      * unfold unpack_pos, mret, M_ret in H. simplify_eq.
        by rewrite length_fmap.
  - intros i p Hi Hv. unfold resolve_args in H.
    destruct (args ps) as [|p0 l] eqn:Ea; [done|].
    rewrite <- Ea in *.
    destruct (bool_decide (0 < _pos_vals ps)%nat
              && bool_decide (0 < _pos_deps ps)%nat) eqn:Eb.
    + apply sequence_Forall2 in H.
      rewrite Forall2_lookup in H. specialize (H i).
      rewrite !list_lookup_fmap, Hi in H. simpl in H. rewrite Hv in H.
      inversion H as [m v (w1 & w2 & Hm) Hx Hy|].
      unfold mret, M_ret in Hm. by simplify_eq.
    + destruct (bool_decide (0 < _pos_deps ps)%nat) eqn:Ed.
      * apply andb_false_iff in Eb as [Eb|Eb]; [|congruence].
        apply bool_decide_eq_false in Eb.
        assert (Hz : _pos_vals ps = 0%nat) by lia.
        apply filter_length_0 in Hz. rewrite Forall_forall in Hz.
        destruct (Hz p); [by eapply list_elem_of_lookup_2|done].
      * unfold unpack_pos, mret, M_ret in H. simplify_eq.
        by rewrite list_lookup_fmap, Hi.
Qed.

End Binding.

(** ** Concrete instances *)

(** The user state is a counter: every function returns the object
    numbered by the counter and increments it.  The injector binds the
    key [Plain k] to a factory returning the object [100 + k]. *)
Definition counter_fn (f : nat) (pos : list PyValue)
    (kw : gmap string PyValue) (n : nat) : Outcome PyValue * nat :=
  (Returns (Val n), S n).

Definition plain_injector : Injector nat :=
  mkInjector nat NoScope
    (fun o w =>
       match o with
       | Plain k => (Returns (Val (100 + k)%nat), w)
       | _ => (Returns MissingV, w)
       end).

Definition a_singleton : FactoryDep :=
  new Z.of_nat 0 1 id sum_hash nat FactoryAttrs
    Singleton (Plain 1%nat) (RealScope 7%nat 3%nat) None 4%nat
    (mkFactoryAttrs (mkBoundParams [] [] ∅) true).

Lemma Singleton_bind_calls_once_witness :
  call_times nat 3%nat
    (Singleton_bind nat counter_fn a_singleton plain_injector).2
    (Singleton_bind nat counter_fn a_singleton plain_injector).1
    (0%nat, [])
  = ([Returns (Val 0%nat); Returns (Val 0%nat); Returns (Val 0%nat)],
     mkCell (Val 0%nat) (Some false),
     (1%nat, [mkCall 4%nat [] ∅])).
Proof.
  apply (proj1 (proj1 (Singleton_bind_calls_once nat counter_fn a_singleton
                         plain_injector (0%nat, [])
                         (1%nat, [mkCall 4%nat [] ∅]) 2%nat)
                  (Val 0%nat) eq_refl eq_refl)).
Defined.

Definition a_partial : FactoryDep :=
  new Z.of_nat 0 1 id sum_hash nat FactoryAttrs
    Partial (Plain 1%nat) (RealScope 7%nat 3%nat) None 4%nat
    (mkFactoryAttrs
       (mkBoundParams
          [mkArg true (Val 10%nat) (Plain 0%nat); mkArg false MissingV (Plain 2%nat)]
          [mkKwArg "db" (Plain 3%nat); mkKwArg "log" (Plain 5%nat)]
          {["mode" := Val 50%nat]})
       false).

Lemma Partial_bind_merges_witness :
  (Partial_bind nat counter_fn a_partial plain_injector
     [Val 20%nat] {["db" := Val 60%nat; "mode" := Val 70%nat]} (0%nat, [])).2.2
  = [mkCall 4%nat [Val 10%nat; Val 102%nat; Val 20%nat]
       ({["db" := Val 60%nat; "mode" := Val 70%nat]} ∪ {["mode" := Val 50%nat]}
        ∪ {["log" := Val 105%nat]})].
Proof.
  rewrite (proj1 (Partial_bind_merges nat counter_fn a_partial plain_injector
                    [Val 20%nat] {["db" := Val 60%nat; "mode" := Val 70%nat]}
                    (0%nat, [])
                    ltac:(repeat constructor))).
  reflexivity.
Defined.

(** A [Factory] without a plan, and a function that raises the error
    numbered by the counter. *)
Definition a_factory : FactoryDep :=
  new Z.of_nat 0 1 id sum_hash nat FactoryAttrs
    Factory (Plain 1%nat) (RealScope 7%nat 3%nat) None 4%nat
    (mkFactoryAttrs (mkBoundParams [] [] ∅) false).

Definition failing_fn (f : nat) (pos : list PyValue)
    (kw : gmap string PyValue) (n : nat) : Outcome PyValue * nat :=
  (Raises (UserError n), S n).

(** C6 as stated fails on a singleton whose function raises: nothing
    is published, so each of three calls of the closure calls the
    function, three calls in all. *)
Lemma Singleton_calls_failing_function_again :
  call_times nat 3%nat
    (Singleton_bind nat failing_fn a_singleton plain_injector).2
    (Singleton_bind nat failing_fn a_singleton plain_injector).1
    (0%nat, [])
  = ([Raises (UserError 0%nat); Raises (UserError 1%nat);
      Raises (UserError 2%nat)],
     (Singleton_bind nat failing_fn a_singleton plain_injector).1,
     (3%nat, [mkCall 4%nat [] ∅; mkCall 4%nat [] ∅; mkCall 4%nat [] ∅])).
Proof. reflexivity. Qed.

Lemma Factory_bind_calls_every_time_witness :
  (thunk_times nat 3%nat (Factory_bind nat counter_fn a_factory plain_injector)
     (0%nat, [])).2.2
  = [] ++ replicate 3%nat (mkCall 4%nat [] ∅).
Proof.
  apply (Factory_bind_calls_every_time nat counter_fn a_factory plain_injector
           3%nat (0%nat, [])).
  reflexivity.
Defined.

Lemma Singleton_bind_keeps_no_failure_witness :
  (Singleton_bind nat failing_fn a_singleton plain_injector).2
    (Singleton_bind nat failing_fn a_singleton plain_injector).1 (0%nat, [])
  = (Raises (UserError 0%nat),
     (Singleton_bind nat failing_fn a_singleton plain_injector).1,
     (1%nat, [mkCall 4%nat [] ∅])).
Proof.
  apply (proj1 (Singleton_bind_keeps_no_failure nat failing_fn a_singleton
                  plain_injector (0%nat, []) (1%nat, [mkCall 4%nat [] ∅]))).
  reflexivity.
Defined.

Lemma resolve_args_follows_plan_witness :
  length [Val 10%nat; Val 102%nat]
  = length (args (bound (params _ _ a_partial)))
  /\ (forall i p,
        args (bound (params _ _ a_partial)) !! i = Some p ->
        has_value p = true ->
        [Val 10%nat; Val 102%nat] !! i = Some (value p))
  /\ (_pos_deps (bound (params _ _ a_partial)) = 0%nat ->
      resolve_args nat (bound (params _ _ a_partial)) plain_injector
      = PosTuple nat (value <$> args (bound (params _ _ a_partial)))).
Proof.
  apply (resolve_args_follows_plan nat (bound (params _ _ a_partial))
           plain_injector (0%nat, []) (0%nat, [])).
  reflexivity.
Defined.

End Dependencies.

(** * Scopes ([scopes.py]) *)

Module Scopes.

Import Markers Dependencies.

(** [ContainerContext], the locality of a registry. *)
Inductive ContainerContext := GLOBAL | LOCAL.

#[global] Instance ContainerContext_eq_dec : EqDecision ContainerContext.
Proof. solve_decision. Defined.

(** A [Dependency] object: the record, and the number that tells one
    object from another with equal fields. *)
Record DepObj := mkDepObj {
  oid : nat;
  record : Dependency unit unit
}.

(** What a scope is indexed with: an injectable or marker, a provider,
    or a [Dependency].  (A [slice] is no key of the memo; the
    [key.__class__ is slice] branch of [__getitem__] is not modelled.) *)
Inductive Key :=
| KObj (o : Obj)
| KProvider (p : Provider)
| KDep (d : DepObj).

(** [stored == key], as a [dict] compares its keys: markers and
    injectables by [PureDep.__eq__], providers by identity, dependency
    records by [Dependency.__eq__]; objects of different kinds are
    unequal. *)
Definition key_eq (a b : Key) : bool :=
  match a, b with
  | KObj x, KObj y => obj_eq x y
  | KProvider p, KProvider q => Nat.eqb (provider_id p) (provider_id q)
  | KDep d, KDep e => dep_eq unit unit (record d) (record e)
  | _, _ => false
  end.

Definition Ident : Type := Container * ContainerContext.

Definition ident_eqb (a b : Ident) : bool := bool_decide (a = b).

(** ** Dictionaries, in insertion order *)

Definition Dict (K V : Type) : Type := list (K * V).

Section Dict.

Context {K V : Type} (eqb : K -> K -> bool).

Fixpoint dict_get (d : Dict K V) (k : K) : option V :=
  match d with
  | [] => None
  | (k', v) :: d' => if eqb k' k then Some v else dict_get d' k
  end.

(** [d[k] = v] *)
Fixpoint dict_set (d : Dict K V) (k : K) (v : V) : Dict K V :=
  match d with
  | [] => [(k, v)]
  | (k', v') :: d' =>
      if eqb k' k then (k', v) :: d' else (k', v') :: dict_set d' k v
  end.

(** [d.setdefault(k, v)]: the value returned and the dictionary. *)
Definition dict_setdefault (d : Dict K V) (k : K) (v : V) : V * Dict K V :=
  match dict_get d k with
  | Some v' => (v', d)
  | None => (v, dict_set d k v)
  end.

End Dict.

(** ** The scope *)

(** [Scope] (lines 29-40); [parent] is the rest of the chain the scope
    heads, and the empty chain is [NullScope()]. *)
Record Scope := mkScope {
  scope_id : ScopeId;
  container : Container;
  _dependencies : Dict Key (option DepObj);
  _resolved : Dict Key (Dict Ident DepObj)
}.

Definition Chain : Type := list Scope.

Definition with_dependencies (s : Scope) (d : Dict Key (option DepObj))
  : Scope :=
  mkScope (scope_id s) (container s) d (_resolved s).

Definition with_resolved (s : Scope) (r : Dict Key (Dict Ident DepObj))
  : Scope :=
  mkScope (scope_id s) (container s) (_dependencies s) r.

(** [self._resolved[key]] on the [defaultdict(dict)]: a missing key is
    entered with an empty dictionary. *)
Definition resolved_of (s : Scope) (key : Key) : Dict Ident DepObj * Scope :=
  match dict_get key_eq (_resolved s) key with
  | Some r => (r, s)
  | None => ([], with_resolved s (dict_set key_eq (_resolved s) key []))
  end.

(** The entry of the memo for [(key, ident)], if any. *)
Definition memo (s : Scope) (key : Key) (ident : Ident) : option DepObj :=
  r ← dict_get key_eq (_resolved s) key; dict_get ident_eqb r ident.

(** Writing through the reference [resolved]: the inner dictionary of
    [key] is changed in place. *)
Definition set_resolved (s : Scope) (key : Key) (r : Dict Ident DepObj)
  : Scope :=
  with_resolved s (dict_set key_eq (_resolved s) key r).

(** ** Facts about dictionaries *)

Section DictFacts.

Context {K V : Type} (eqb : K -> K -> bool).

(** Entering a key that was absent changes no lookup that succeeded,
    and adds the lookups of the keys the new key equals. *)
Lemma dict_get_set_fresh (d : Dict K V) k v k' :
  dict_get eqb d k = None ->
  dict_get eqb (dict_set eqb d k v) k'
  = match dict_get eqb d k' with
    | Some x => Some x
    | None => if eqb k k' then Some v else None
    end.
Proof.
  induction d as [|[k0 v0] d IH]; simpl; [done|].
  destruct (eqb k0 k) eqn:E; [done|]. intros H. simpl.
  destruct (eqb k0 k'); [done|]. by apply IH.
Qed.

(** A lookup that succeeded still succeeds after an assignment; it
    gives the old value, or the new one when it reads the entry
    assigned to. *)
Lemma dict_get_set_keep (d : Dict K V) k v k' x :
  dict_get eqb d k' = Some x ->
  dict_get eqb (dict_set eqb d k v) k' = Some x
  \/ (dict_get eqb d k = Some x
      /\ dict_get eqb (dict_set eqb d k v) k' = Some v).
Proof.
  induction d as [|[k0 v0] d IH]; simpl; [done|].
  destruct (eqb k0 k) eqn:E; simpl.
  - destruct (eqb k0 k') eqn:E'; [|by left].
    intros [= ->]. by right.
  - destruct (eqb k0 k') eqn:E'; [by left|]. apply IH.
Qed.

Lemma dict_get_set_eq (d : Dict K V) k v :
  eqb k k = true -> dict_get eqb (dict_set eqb d k v) k = Some v.
Proof.
  intros Hr. induction d as [|[k0 v0] d IH]; simpl; [by rewrite Hr|].
  destruct (eqb k0 k) eqn:E; simpl; by rewrite E.
Qed.

End DictFacts.

Lemma ident_get_set (r : Dict Ident DepObj) i v j :
  dict_get ident_eqb (dict_set ident_eqb r i v) j
  = if decide (i = j) then Some v else dict_get ident_eqb r j.
Proof.
  induction r as [|[i0 v0] r IH]; simpl.
  - unfold ident_eqb. by destruct (decide (i = j)); [rewrite bool_decide_true|rewrite bool_decide_false].
  - unfold ident_eqb in *.
    destruct (decide (i0 = i)) as [->|Hne].
    + rewrite bool_decide_true by done. simpl.
      destruct (decide (i = j)) as [->|Hij].
      * by rewrite bool_decide_true.
      * by rewrite !bool_decide_false.
    + rewrite (bool_decide_false (i0 = i)) by done. simpl.
      destruct (decide (i0 = j)) as [->|Hj].
      * rewrite bool_decide_true by done. by rewrite decide_False.
      * rewrite bool_decide_false by done. apply IH.
Qed.

Lemma scope_eq_refl s : scope_eq s s = true.
Proof. destruct s; simpl; try done; apply Nat.eqb_refl. Qed.

Lemma key_eq_refl k : key_eq k k = true.
Proof.
  destruct k as [o|p|d]; simpl.
  - apply obj_eq_refl.
  - apply Nat.eqb_refl.
  - unfold dep_eq. rewrite decide_True by done. unfold ident_eq.
    rewrite obj_eq_refl, scope_eq_refl. simpl.
    destruct (_v_ident _ _ _).2; simpl; [apply Nat.eqb_refl|done].
Qed.

Section Resolution.

(** What [containers.py] and [providers.py], which are not among the
    sources, supply: [container.parent] ([None] when there is none),
    [self.container.get_container(c)] for a container [c], the providers
    [container.get_registry(loc).get_all(key)], [typing.get_origin(key)],
    [key in container], and [provider.compose(scope, key, *rest)], which
    builds a new record or returns [None].  [compose] is taken as a
    function of the provider, the identity of the scope, the key and the
    other providers, which leaves the scope as it is; what a provider
    does with the scope it is given is not among the sources. *)
Variable parent_of : Container -> option Container.
Variable lookup_container : Container -> Container -> option Container.
Variable get_all : Container -> ContainerContext -> Key -> list Provider.
Variable get_origin : Key -> option Key.
Variable container_contains : Container -> Key -> bool.
Variable compose :
  Provider -> ScopeId -> Key -> list Provider -> option (Dependency unit unit).

(** Modelled from the spec: [Container.get_container], of which the
    specification says that [container = None] stands for the scope's
    own container ("recurse once with container = None ... to search the
    current container's registry"); a container is a true object. *)
Definition get_container (self : Container) (c : option Container)
  : option Container :=
  match c with
  | None => Some self
  | Some c => lookup_container self c
  end.

(** Lines 98-104: the candidate providers. *)
Definition candidates (c : Container) (loc : ContainerContext) (key : Key)
  : list Provider :=
  match key with
  | KProvider p => [p]
  | _ =>
      match get_all c loc key, get_origin key with
      | [], Some origin => get_all c loc origin
      | pros, _ => pros
      end
  end.

(** How lines 92-116 end: with a [return], or at line 118 with the
    value then bound to [container]. *)
Inductive Local :=
| Return (r : option DepObj)
| Walk (container : option Container).

(** Lines 92-116 of [_resolve_dependency], for the scope [self];
    [next] numbers the next object built.  [self_call] is the recursive
    call of line 110, [self._resolve_dependency(key, None, loc,
    only_self=True)]. *)
Definition local_part
    (self_call : Scope -> nat -> option DepObj * Scope * nat)
    (self : Scope) (key : Key) (carg : option Container)
    (loc : ContainerContext) (next : nat) : Local * Scope * nat :=
  match get_container (container self) carg with
  | Some c =>
      let ident := (c, loc) in
      let '(resolved, self) := resolved_of self key in
      match dict_get ident_eqb resolved ident with
      | Some d => (Return (Some d), self, next)
      | None =>
          let composed :=
            match candidates c loc key with
            | p :: rest => compose p (scope_id self) key rest
            | [] => None
            end in
          match composed with
          | Some r =>
              let '(pro, resolved) :=
                dict_setdefault ident_eqb resolved ident (mkDepObj next r) in
              (Return (Some pro), set_resolved self key resolved, S next)
          | None =>
              let '(dp, self, next) :=
                if negb (Nat.eqb c (container self)
                         || bool_decide (loc = LOCAL))
                then self_call self next
                else (None, self, next) in
              match dp with
              | Some d =>
                  let '(resolved, self) := resolved_of self key in
                  (Return (Some d),
                   set_resolved self key (dict_set ident_eqb resolved ident d),
                   next)
              | None =>
                  if bool_decide (parent_of c = None)
                     && bool_decide (loc = LOCAL)
                  then (Return None, self, next)
                  else (Walk (parent_of c), self, next)
              end
          end
      end
  | None => (Walk None, self, next)
  end.

(** The call of line 110.  With [container = None] the container found
    is the scope's own, line 110 is not reached again, and
    [only_self=True] returns [None] at line 118. *)
Definition own_call (key : Key) (loc : ContainerContext)
    (self : Scope) (next : nat) : option DepObj * Scope * nat :=
  let '(r, self, next) :=
    local_part (fun s n => (None, s, n)) self key None loc next in
  (match r with
   | Return d => d
   | Walk _ => None
   end, self, next).

(** [Scope._resolve_dependency] (lines 84-119) on a scope and its
    parents; [NullScope._resolve_dependency] (lines 161-162) returns
    [None]. *)
Fixpoint _resolve_dependency (chain : Chain) (key : Key)
    (carg : option Container) (loc : ContainerContext) (only_self : bool)
    (next : nat) : option DepObj * Chain * nat :=
  match chain with
  | [] => (None, [], next)
  | self :: parent =>
      let '(r, self, next) :=
        local_part (own_call key loc) self key carg loc next in
      match r with
      | Return d => (d, self :: parent, next)
      | Walk container =>
          if only_self then (None, self :: parent, next)
          else
            let '(d, parent, next) :=
              _resolve_dependency parent key container loc false next in
            (d, self :: parent, next)
      end
  end.

(** [Scope.__contains__] (lines 55-58) and [is_provided] (lines 60-65);
    [NullScope.is_provided] is [False]. *)
Definition scope_contains (self : Scope) (key : Key) : bool :=
  bool_decide (is_Some (dict_get key_eq (_resolved self) key))
  || container_contains (container self) key
  || bool_decide (is_Some (dict_get key_eq (_dependencies self) key)).

Fixpoint is_provided (chain : Chain) (key : Key) (only_self : bool) : bool :=
  match chain with
  | [] => false
  | self :: parent =>
      match key with KProvider _ => true | _ => false end
      || scope_contains self key
      || (negb only_self && is_provided parent key false)
  end.

(** [self._dependencies.setdefault(key, v)] *)
Definition dependencies_setdefault (self : Scope) (key : Key)
    (v : option DepObj) : option DepObj * Scope :=
  let '(r, deps) := dict_setdefault key_eq (_dependencies self) key v in
  (r, with_dependencies self deps).

(** [self[dep]] for a [Dependency]: [__getitem__], then [__missing__]
    on a [KeyError] (lines 71-78). *)
Definition getitem_dep (self : Scope) (dep : DepObj) : option DepObj * Scope :=
  match dict_get key_eq (_dependencies self) (KDep dep) with
  | Some v => (v, self)
  | None => dependencies_setdefault self (KDep dep) (Some dep)
  end.

(** [Scope.__missing__] (lines 76-82). *)
Definition __missing__ (self : Scope) (parent : Chain) (key : Key)
    (next : nat) : option DepObj * Chain * nat :=
  match key with
  | KDep d =>
      let '(r, self) := dependencies_setdefault self key (Some d) in
      (r, self :: parent, next)
  | _ =>
      match _resolve_dependency (self :: parent) key None GLOBAL true next with
      | (Some dep, self :: parent, next) =>
          let '(r, self) := getitem_dep self dep in
          (r, self :: parent, next)
      | (_, chain, next) =>
          if is_provided chain key false then
            match chain with
            | self :: parent =>
                let '(r, self) := dependencies_setdefault self key None in
                (r, self :: parent, next)
            | [] => (None, chain, next)
            end
          else (None, chain, next)
      end
  end.

(** [Scope.__getitem__] (lines 67-74) for a key that is no slice, the
    branch of lines 70-74; [NullScope.__getitem__] (lines 155-156)
    returns [None].  The slice form [scope[key:]] of lines 68-69, which
    goes on to [self.parent[key]] when [self[key.start]] is false, is
    not among the lookups modelled here. *)
Definition __getitem__ (chain : Chain) (key : Key) (next : nat)
  : option DepObj * Chain * nat :=
  match chain with
  | [] => (None, [], next)
  | self :: parent =>
      match dict_get key_eq (_dependencies self) key with
      | Some v => (v, chain, next)
      | None => __missing__ self parent key next
      end
  end.

(** ** Facts about the memo *)

Lemma resolved_of_get (s : Scope) (key : Key) :
  dict_get key_eq (_resolved (resolved_of s key).2) key
  = Some (resolved_of s key).1.
Proof.
  unfold resolved_of. destruct (dict_get key_eq (_resolved s) key) eqn:E.
  - done.
  - simpl. apply dict_get_set_eq, key_eq_refl.
Qed.

Lemma resolved_of_inner (s : Scope) (key : Key) (i : Ident) :
  dict_get ident_eqb (resolved_of s key).1 i = memo s key i.
Proof.
  unfold resolved_of, memo.
  by destruct (dict_get key_eq (_resolved s) key).
Qed.

Lemma resolved_of_memo (s : Scope) (key k : Key) (i : Ident) :
  memo (resolved_of s key).2 k i = memo s k i.
Proof.
  unfold resolved_of, memo.
  destruct (dict_get key_eq (_resolved s) key) eqn:E; [done|].
  simpl. rewrite (dict_get_set_fresh key_eq _ _ _ _ E).
  destruct (dict_get key_eq (_resolved s) k); [done|].
  by destruct (key_eq key k).
Qed.

Lemma resolved_of_fields (s : Scope) (key : Key) :
  scope_id (resolved_of s key).2 = scope_id s
  /\ container (resolved_of s key).2 = container s
  /\ _dependencies (resolved_of s key).2 = _dependencies s.
Proof.
  unfold resolved_of. by destruct (dict_get key_eq (_resolved s) key).
Qed.

Lemma set_resolved_memo_same (s : Scope) (key : Key) r (i : Ident) :
  memo (set_resolved s key r) key i = dict_get ident_eqb r i.
Proof.
  unfold memo, set_resolved. simpl.
  by rewrite dict_get_set_eq by apply key_eq_refl.
Qed.

(** Replacing the inner dictionary of [key] by one that keeps its
    entries keeps every entry of the memo. *)
Lemma set_resolved_memo_keep (s : Scope) (key : Key) r :
  (forall i x, memo s key i = Some x -> dict_get ident_eqb r i = Some x) ->
  forall k i x, memo s k i = Some x -> memo (set_resolved s key r) k i = Some x.
Proof.
  intros Hext k i x. unfold memo at 1.
  destruct (dict_get key_eq (_resolved s) k) as [rk|] eqn:Ek; [|done].
  simpl. intros Hx.
  destruct (dict_get_set_keep key_eq (_resolved s) key r k rk Ek)
    as [H|[H1 H2]].
  - unfold memo, set_resolved. simpl. by rewrite H.
  - unfold memo, set_resolved. simpl. rewrite H2. simpl.
    apply Hext. unfold memo. by rewrite H1.
Qed.

(** What the facts below ask of the call of line 110: it leaves the
    scope's fields but the memo alone, keeps the entries of the memo,
    and writes under [key] at most the entry of the scope's own
    container. *)
Definition good_call (f : Scope -> nat -> option DepObj * Scope * nat)
    (key : Key) (loc : ContainerContext) : Prop :=
  forall s n r s' n',
    f s n = (r, s', n') ->
    scope_id s' = scope_id s
    /\ container s' = container s
    /\ _dependencies s' = _dependencies s
    /\ (forall k i x, memo s k i = Some x -> memo s' k i = Some x)
    /\ (forall i, i <> (container s, loc) -> memo s' key i = memo s key i).

Lemma good_call_none key loc : good_call (fun s n => (None, s, n)) key loc.
Proof. intros s n r s' n' [= _ <- _]. done. Qed.

(** A call leaves a scope as it was but for new entries of the memo. *)
Definition keeps_scope (s s' : Scope) : Prop :=
  scope_id s' = scope_id s
  /\ container s' = container s
  /\ _dependencies s' = _dependencies s
  /\ (forall k i x, memo s k i = Some x -> memo s' k i = Some x).

Ltac goal_decide H :=
  match goal with
  | |- context [decide ?P] => destruct (decide P) as [H|H]
  end.

Lemma keeps_scope_refl s : keeps_scope s s.
Proof. done. Qed.

Lemma keeps_scope_trans s1 s2 s3 :
  keeps_scope s1 s2 -> keeps_scope s2 s3 -> keeps_scope s1 s3.
Proof.
  intros (A1 & A2 & A3 & A4) (B1 & B2 & B3 & B4).
  repeat split; try congruence. intros k i x H. by apply B4, A4.
Qed.

Lemma keeps_scope_resolved_of s key : keeps_scope s (resolved_of s key).2.
Proof.
  destruct (resolved_of_fields s key) as (H1 & H2 & H3).
  repeat split; try done. intros k i x. by rewrite resolved_of_memo.
Qed.

Lemma keeps_scope_set_resolved s key r :
  (forall i x, memo s key i = Some x -> dict_get ident_eqb r i = Some x) ->
  keeps_scope s (set_resolved s key r).
Proof.
  intros H. repeat split; try done. by apply set_resolved_memo_keep.
Qed.

(** Lines 92-116 keep the scope's fields and every entry of its
    memo. *)
Lemma local_part_keeps f key carg loc :
  good_call f key loc ->
  forall self next r self' next',
    local_part f self key carg loc next = (r, self', next') ->
    keeps_scope self self'.
Proof.
  intros Hf self next r self' next'. unfold local_part.
  destruct (get_container (container self) carg) as [c|];
    [|intros [= _ <- _]; apply keeps_scope_refl].
  pose proof (keeps_scope_resolved_of self key) as Ha.
  pose proof (resolved_of_inner self key) as Hin.
  pose proof (resolved_of_memo self key key) as Hm.
  destruct (resolved_of self key) as [resolved self_a]. simpl in Ha, Hin, Hm.
  destruct (dict_get ident_eqb resolved (c, loc)) as [d|] eqn:Ehit;
    [by intros [= _ <- _]|].
  destruct (match candidates c loc key with
            | [] => None
            | p :: rest => compose p (scope_id self_a) key rest
            end) as [rec|].
  - unfold dict_setdefault. rewrite Ehit. intros [= _ <- _].
    eapply keeps_scope_trans; [done|]. apply keeps_scope_set_resolved.
    intros i x. rewrite Hm, <- Hin, ident_get_set.
    goal_decide Hd; [subst i; by rewrite Ehit|done].
  - destruct (negb (Nat.eqb c (container self_a) || bool_decide (loc = LOCAL)))
      eqn:Eg.
    + destruct (f self_a next) as [[dp self_b] next_b] eqn:Ef.
      destruct (Hf _ _ _ _ _ Ef) as (B1 & B2 & B3 & B4 & B5).
      assert (Hb : keeps_scope self_a self_b) by done.
      destruct dp as [d|].
      * pose proof (keeps_scope_resolved_of self_b key) as Hc.
        pose proof (resolved_of_inner self_b key) as Hin'.
        pose proof (resolved_of_memo self_b key key) as Hm'.
        destruct (resolved_of self_b key) as [resolved_b self_c].
        simpl in Hc, Hin', Hm'. intros [= _ <- _].
        eapply keeps_scope_trans; [done|].
        eapply keeps_scope_trans; [done|].
        eapply keeps_scope_trans; [done|].
        apply keeps_scope_set_resolved.
        intros i x. rewrite Hm', <- Hin', ident_get_set.
        goal_decide Hd; [subst i|done].
        rewrite Hin', B5, Hm, <- Hin, Ehit; [done|].
        apply negb_true_iff, orb_false_iff in Eg as [Eg _].
        apply Nat.eqb_neq in Eg. congruence.
      * destruct (bool_decide (parent_of c = None) && bool_decide (loc = LOCAL));
          intros [= _ <- _]; by eapply keeps_scope_trans.
    + destruct (bool_decide (parent_of c = None) && bool_decide (loc = LOCAL));
        by intros [= _ <- _].
Qed.

(** With [container = None] the call of line 110 is never made: the
    container found is the scope's own. *)
Lemma local_part_own f self key loc next :
  local_part f self key None loc next
  = let ident := (container self, loc) in
    match dict_get ident_eqb (resolved_of self key).1 ident with
    | Some d => (Return (Some d), (resolved_of self key).2, next)
    | None =>
        match
          match candidates (container self) loc key with
          | p :: rest => compose p (scope_id self) key rest
          | [] => None
          end
        with
        | Some r =>
            (Return (Some (mkDepObj next r)),
             set_resolved (resolved_of self key).2 key
               (dict_set ident_eqb (resolved_of self key).1 ident
                  (mkDepObj next r)),
             S next)
        | None =>
            if bool_decide (parent_of (container self) = None)
               && bool_decide (loc = LOCAL)
            then (Return None, (resolved_of self key).2, next)
            else (Walk (parent_of (container self)),
                  (resolved_of self key).2, next)
        end
    end.
Proof.
  unfold local_part. simpl.
  destruct (resolved_of_fields self key) as (F1 & F2 & F3).
  destruct (resolved_of self key) as [resolved self_a]. simpl in *.
  destruct (dict_get ident_eqb resolved (container self, loc)) eqn:Ehit;
    [done|].
  rewrite F1, F2, Nat.eqb_refl. simpl.
  destruct (match candidates (container self) loc key with
            | [] => None
            | p :: rest => compose p (scope_id self) key rest
            end); [|done].
  unfold dict_setdefault. by rewrite Ehit.
Qed.

(** The recursive equation of the source for the call of line 110:
    [_resolve_dependency] with [container = None] and [only_self=True]
    is [own_call], and leaves the parents alone. *)
Lemma resolve_own_call self parent key loc next :
  _resolve_dependency (self :: parent) key None loc true next
  = let '(d, s, n) := own_call key loc self next in (d, s :: parent, n).
Proof.
  simpl. unfold own_call.
  rewrite (local_part_own (own_call key loc)),
    (local_part_own (fun s n => (None, s, n))).
  simpl.
  destruct (dict_get ident_eqb _ _); [done|].
  destruct (match candidates (container self) loc key with
            | [] => None
            | p :: rest => compose p (scope_id self) key rest
            end); [done|].
  by destruct (bool_decide (parent_of (container self) = None)
               && bool_decide (loc = LOCAL)).
Qed.

Lemma own_call_good key loc : good_call (own_call key loc) key loc.
Proof.
  intros s n r s' n' H.
  assert (Hk : keeps_scope s s').
  { unfold own_call in H.
    destruct (local_part _ s key None loc n) as [[l s0] n0] eqn:E.
    inversion H; subst.
    by eapply (local_part_keeps _ key None loc (good_call_none key loc)). }
  destruct Hk as (K1 & K2 & K3 & K4). repeat split; try done.
  intros i Hi. unfold own_call in H. rewrite local_part_own in H.
  simpl in H.
  destruct (dict_get ident_eqb _ _) eqn:Ehit.
  { inversion H; subst. apply resolved_of_memo. }
  destruct (match candidates (container s) loc key with
            | [] => None
            | p :: rest => compose p (scope_id s) key rest
            end).
  - inversion H; subst. rewrite set_resolved_memo_same, ident_get_set.
    rewrite decide_False by done. apply resolved_of_inner.
  - destruct (bool_decide (parent_of (container s) = None)
              && bool_decide (loc = LOCAL));
      inversion H; subst; apply resolved_of_memo.
Qed.

(** What the call of line 110 returns is in the memo afterwards, under
    the scope's own container. *)
Lemma own_call_memo key loc self next d self' next' :
  own_call key loc self next = (Some d, self', next') ->
  memo self' key (container self, loc) = Some d.
Proof.
  unfold own_call. rewrite local_part_own. simpl.
  destruct (dict_get ident_eqb _ _) eqn:Ehit.
  { intros [= <- <- _]. by rewrite resolved_of_memo, <- resolved_of_inner. }
  destruct (match candidates (container self) loc key with
            | [] => None
            | p :: rest => compose p (scope_id self) key rest
            end).
  - intros [= <- <- _]. rewrite set_resolved_memo_same, ident_get_set.
    by rewrite decide_True.
  - by destruct (bool_decide (parent_of (container self) = None)
                 && bool_decide (loc = LOCAL)).
Qed.

(** An entry of the memo under the scope's own container answers the
    call, and nothing changes. *)
Lemma own_call_hit key loc self next d :
  memo self key (container self, loc) = Some d ->
  own_call key loc self next = (Some d, self, next).
Proof.
  intros H. unfold own_call. rewrite local_part_own. simpl.
  rewrite resolved_of_inner, H.
  unfold resolved_of. unfold memo in H.
  by destruct (dict_get key_eq (_resolved self) key).
Qed.

(** After the call [key in self._resolved] holds. *)
Lemma own_call_touches key loc self next r self' next' :
  own_call key loc self next = (r, self', next') ->
  is_Some (dict_get key_eq (_resolved self') key).
Proof.
  unfold own_call. rewrite local_part_own. simpl.
  pose proof (resolved_of_get self key) as Hg.
  destruct (dict_get ident_eqb _ _) eqn:Ehit.
  { intros [= _ <- _]. by eexists. }
  destruct (match candidates (container self) loc key with
            | [] => None
            | p :: rest => compose p (scope_id self) key rest
            end).
  - intros [= _ <- _]. unfold set_resolved. simpl.
    rewrite dict_get_set_eq by apply key_eq_refl. by eexists.
  - destruct (bool_decide (parent_of (container self) = None)
              && bool_decide (loc = LOCAL));
      intros [= _ <- _]; by eexists.
Qed.

(** The entry of the memo of the [n]-th scope of a chain. *)
Definition memo_at (chain : list Scope) (n : nat) (key : Key) (ident : Ident)
  : option DepObj :=
  s ← chain !! n; memo s key ident.

Lemma keeps_chain_refl (chain : Chain) : Forall2 keeps_scope chain chain.
Proof. induction chain; constructor; [apply keeps_scope_refl|done]. Qed.

Lemma resolve_keeps chain :
  forall key carg loc only_self next r chain' next',
    _resolve_dependency chain key carg loc only_self next = (r, chain', next') ->
    Forall2 keeps_scope chain chain'.
Proof.
  induction chain as [|self parent IH];
    intros key carg loc only_self next r chain' next'; simpl.
  - intros [= _ <- _]. constructor.
  - destruct (local_part (own_call key loc) self key carg loc next)
      as [[l self1] next1] eqn:El.
    pose proof (local_part_keeps _ key carg loc (own_call_good key loc)
                  _ _ _ _ _ El) as Hk.
    destruct l as [d|c].
    + intros [= _ <- _]. constructor; [done|]. apply keeps_chain_refl.
    + destruct only_self.
      * intros [= _ <- _]. constructor; [done|]. apply keeps_chain_refl.
      * destruct (_resolve_dependency parent key c loc false next1)
          as [[d parent1] next2] eqn:Ep.
        intros [= _ <- _]. constructor; [done|]. by eapply IH.
Qed.

Definition keeps_memo (s s' : Scope) : Prop :=
  forall k i x, memo s k i = Some x -> memo s' k i = Some x.

Lemma memo_at_keeps chain chain' n k i d :
  Forall2 keeps_memo chain chain' ->
  memo_at chain n k i = Some d -> memo_at chain' n k i = Some d.
Proof.
  intros HF. unfold memo_at.
  destruct (chain !! n) as [s|] eqn:Es; cbn; [|done]. intros Hm.
  destruct (Forall2_lookup_l _ _ _ _ _ HF Es) as (s' & -> & Hk).
  cbn. by apply Hk.
Qed.

Lemma keeps_scope_memo chain chain' :
  Forall2 keeps_scope chain chain' -> Forall2 keeps_memo chain chain'.
Proof.
  intros H. eapply Forall2_impl; [done|]. by intros s s' (_ & _ & _ & ?).
Qed.

Lemma dependencies_setdefault_fresh self key v :
  dict_get key_eq (_dependencies self) key = None ->
  dependencies_setdefault self key v
  = (v, with_dependencies self (dict_set key_eq (_dependencies self) key v)).
Proof.
  intros H. unfold dependencies_setdefault, dict_setdefault. by rewrite H.
Qed.

Lemma keeps_memo_refl s : keeps_memo s s.
Proof. by intros k i x. Qed.

Lemma keeps_memo_with_dependencies s s' d :
  keeps_memo s s' -> keeps_memo s (with_dependencies s' d).
Proof. intros H k i x Hm. by apply H. Qed.

(** [__getitem__] answers from [_dependencies], or through
    [__missing__]; it leaves the parents alone and keeps the memo of the
    scope. *)
Lemma getitem_keeps self parent key next r chain' next' :
  __getitem__ (self :: parent) key next = (r, chain', next') ->
  exists self', chain' = self' :: parent /\ keeps_memo self self'
                /\ container self' = container self.
Proof.
  unfold __getitem__.
  destruct (dict_get key_eq (_dependencies self) key) as [v|] eqn:E.
  { intros [= _ <- _]. exists self. split; [done|].
    split; [apply keeps_memo_refl|done]. }
  unfold __missing__.
  assert (Hobj : forall r chain' next',
    match _resolve_dependency (self :: parent) key None GLOBAL true next with
    | (Some dep, self0 :: parent0, next0) =>
        let '(r0, self1) := getitem_dep self0 dep in
        (r0, self1 :: parent0, next0)
    | (_, chain, next0) =>
        if is_provided chain key false
        then match chain with
             | [] => (None, chain, next0)
             | self0 :: parent0 =>
                 let '(r0, self1) := dependencies_setdefault self0 key None in
                 (r0, self1 :: parent0, next0)
             end
        else (None, chain, next0)
    end = (r, chain', next') ->
    exists self', chain' = self' :: parent /\ keeps_memo self self'
                  /\ container self' = container self).
  { clear r chain' next'. intros r chain' next'.
    rewrite resolve_own_call.
    destruct (own_call key GLOBAL self next) as [[d s1] n1] eqn:Eo.
    destruct (own_call_good _ _ _ _ _ _ _ Eo) as (F1 & F2 & F3 & F4 & F5).
    destruct d as [dep|].
    - unfold getitem_dep.
      destruct (dict_get key_eq (_dependencies s1) (KDep dep)) eqn:Ed.
      + intros [= _ <- _]. by exists s1.
      + rewrite (dependencies_setdefault_fresh _ _ _ Ed).
        intros [= _ <- _]. eexists. split; [done|].
        split; [by apply keeps_memo_with_dependencies|done].
    - destruct (is_provided (s1 :: parent) key false).
      + unfold dependencies_setdefault, dict_setdefault.
        destruct (dict_get key_eq (_dependencies s1) key);
          intros [= _ <- _]; eexists; (split; [done|]);
          (split; [by apply keeps_memo_with_dependencies|done]).
      + intros [= _ <- _]. by exists s1. }
  destruct key as [o|p|d]; [apply Hobj..|].
  rewrite (dependencies_setdefault_fresh _ _ _ E).
  intros [= _ <- _]. eexists. split; [done|].
  split; [apply keeps_memo_with_dependencies, keeps_memo_refl|done].
Qed.

Lemma key_eq_dep_other dep key :
  match key with KDep _ => False | _ => True end ->
  key_eq (KDep dep) key = false.
Proof. by destruct key. Qed.

(** A second [scope[key]] finds what the first one left: the entry of
    [_dependencies], or the entry of the memo and the canonical record
    in [_dependencies]; it returns the same object and changes
    nothing. *)
Lemma getitem_twice chain key next r chain1 next1 :
  __getitem__ chain key next = (r, chain1, next1) ->
  __getitem__ chain1 key next1 = (r, chain1, next1).
Proof.
  destruct chain as [|self parent]; [by intros [= <- <- <-]|].
  unfold __getitem__ at 1.
  destruct (dict_get key_eq (_dependencies self) key) as [v|] eqn:E.
  { intros [= <- <- <-]. simpl. by rewrite E. }
  unfold __missing__.
  assert (Hobj : match key with KDep _ => False | _ => True end ->
    match _resolve_dependency (self :: parent) key None GLOBAL true next with
    | (Some dep, self0 :: parent0, next0) =>
        let '(r0, self1) := getitem_dep self0 dep in
        (r0, self1 :: parent0, next0)
    | (_, chain, next0) =>
        if is_provided chain key false
        then match chain with
             | [] => (None, chain, next0)
             | self0 :: parent0 =>
                 let '(r0, self1) := dependencies_setdefault self0 key None in
                 (r0, self1 :: parent0, next0)
             end
        else (None, chain, next0)
    end = (r, chain1, next1) ->
    __getitem__ chain1 key next1 = (r, chain1, next1)).
  { intros Hkey. rewrite resolve_own_call.
    destruct (own_call key GLOBAL self next) as [[d s1] n1] eqn:Eo.
    destruct (own_call_good _ _ _ _ _ _ _ Eo) as (F1 & F2 & F3 & F4 & F5).
    destruct d as [dep|].
    - pose proof (own_call_memo _ _ _ _ _ _ _ Eo) as Hm.
      rewrite <- F2 in Hm.
      unfold getitem_dep.
      destruct (dict_get key_eq (_dependencies s1) (KDep dep)) as [v|] eqn:Ed.
      + intros [= <- <- <-]. unfold __getitem__.
        rewrite F3, E. unfold __missing__.
        assert (Hr : _resolve_dependency (s1 :: parent) key None GLOBAL true n1
                     = (Some dep, s1 :: parent, n1)).
        { by rewrite resolve_own_call, (own_call_hit _ _ _ _ _ Hm). }
        destruct key; try done; rewrite Hr; unfold getitem_dep; by rewrite Ed.
      + rewrite (dependencies_setdefault_fresh _ _ _ Ed).
        intros [= <- <- <-]. unfold __getitem__.
        cbn [_dependencies with_dependencies].
        rewrite (dict_get_set_fresh key_eq _ _ _ _ Ed), F3, E,
          (key_eq_dep_other _ _ Hkey).
        unfold __missing__.
        set (s2 := with_dependencies s1 _).
        assert (Hr : _resolve_dependency (s2 :: parent) key None GLOBAL true n1
                     = (Some dep, s2 :: parent, n1)).
        { by rewrite resolve_own_call, (own_call_hit _ _ s2 _ _ Hm). }
        destruct key; try done; rewrite Hr; unfold getitem_dep;
          subst s2; cbn [_dependencies with_dependencies];
          by rewrite dict_get_set_eq by apply key_eq_refl.
    - assert (Hp : is_provided (s1 :: parent) key false = true).
      { simpl. unfold scope_contains.
        rewrite (bool_decide_true _ (own_call_touches _ _ _ _ _ _ _ Eo)).
        by rewrite orb_true_r. }
      rewrite Hp.
      assert (Ed : dict_get key_eq (_dependencies s1) key = None)
        by by rewrite F3.
      rewrite (dependencies_setdefault_fresh _ _ _ Ed).
      destruct key; try done; intros [= <- <- <-]; unfold __getitem__;
        cbn [_dependencies with_dependencies];
        by rewrite dict_get_set_eq by apply key_eq_refl. }
  destruct key as [o|p|d]; [by apply Hobj..|].
  rewrite (dependencies_setdefault_fresh _ _ _ E).
  intros [= <- <- <-]. unfold __getitem__.
  cbn [_dependencies with_dependencies].
  by rewrite dict_get_set_eq by apply key_eq_refl.
Qed.

(** C1: a second [scope[key]] returns the object the first one
    returned, and neither [scope[key]] nor [_resolve_dependency], with
    whatever arguments, replaces an entry of the memo of a scope of the
    chain. *)
Theorem scope_memoizes (chain : Chain) (key : Key) (next : nat)
    (r : option DepObj) (chain1 : Chain) (next1 : nat) :
  __getitem__ chain key next = (r, chain1, next1) ->
  __getitem__ chain1 key next1 = (r, chain1, next1)
  /\ (forall n k i d,
        memo_at chain n k i = Some d -> memo_at chain1 n k i = Some d)
  /\ (forall carg loc only_self n k i d,
        memo_at chain n k i = Some d ->
        memo_at (_resolve_dependency chain key carg loc only_self next).1.2
          n k i = Some d).
Proof.
  intros H. split; [by eapply getitem_twice|]. split.
  - intros n k i d. apply memo_at_keeps.
    destruct chain as [|self parent].
    + simpl in H. inversion H. constructor.
    + destruct (getitem_keeps _ _ _ _ _ _ _ H) as (s' & -> & Hk & _).
      constructor; [done|]. apply keeps_scope_memo, keeps_chain_refl.
  - intros carg loc only_self n k i d. apply memo_at_keeps.
    destruct (_resolve_dependency chain key carg loc only_self next)
      as [[r' chain'] next'] eqn:E.
    apply keeps_scope_memo. by eapply resolve_keeps.
Qed.

(** C5, as the code has it: (1) when the container found has no
    parent and the locality is [LOCAL], an unresolved search stops with
    [None] and the parent scope is left as it was, whatever [only_self];
    (2) with [only_self=True] the parent scope is never consulted: the
    result does not depend on it and it is returned unchanged; (3) with
    [only_self=False] a search that lines 92-116 leave unresolved
    continues as [self.parent._resolve_dependency(key, container, loc,
    only_self=False)], where [container] is the parent of the container
    found, or [None] when none was found; (4) when the container found
    has a parent and the locality is [LOCAL], an unresolved search does
    not stop there: with [only_self=True] it ends with [None], and with
    [only_self=False] it is the search of the parent scope for the parent
    container, still [LOCAL]; (5) when no container is found the search
    is that of the parent scope with [container = None]. *)
Theorem resolve_stops_or_delegates (self : Scope) (parent : Chain)
    (key : Key) (carg : option Container) (loc : ContainerContext)
    (only_self : bool) (next : nat) :
  (forall c,
     get_container (container self) carg = Some c ->
     parent_of c = None ->
     loc = LOCAL ->
     memo self key (c, loc) = None ->
     match candidates c loc key with
     | p :: rest => compose p (scope_id self) key rest
     | [] => None
     end = None ->
     _resolve_dependency (self :: parent) key carg loc only_self next
     = (None, (resolved_of self key).2 :: parent, next))
  /\ (exists r self1 next1,
        forall parents,
          _resolve_dependency (self :: parents) key carg loc true next
          = (r, self1 :: parents, next1))
  /\ (forall walk_to self1 next1,
        local_part (own_call key loc) self key carg loc next
        = (Walk walk_to, self1, next1) ->
        walk_to = get_container (container self) carg ≫= parent_of
        /\ _resolve_dependency (self :: parent) key carg loc false next
           = let '(d, parent1, next2) :=
               _resolve_dependency parent key walk_to loc false next1 in
             (d, self1 :: parent1, next2))
  /\ (forall c up,
        get_container (container self) carg = Some c ->
        parent_of c = Some up ->
        loc = LOCAL ->
        memo self key (c, loc) = None ->
        match candidates c loc key with
        | p :: rest => compose p (scope_id self) key rest
        | [] => None
        end = None ->
        _resolve_dependency (self :: parent) key carg loc true next
        = (None, (resolved_of self key).2 :: parent, next)
        /\ _resolve_dependency (self :: parent) key carg loc false next
           = let '(d, parent1, next2) :=
               _resolve_dependency parent key (Some up) LOCAL false next in
             (d, (resolved_of self key).2 :: parent1, next2))
  /\ (get_container (container self) carg = None ->
      _resolve_dependency (self :: parent) key carg loc false next
      = let '(d, parent1, next2) :=
          _resolve_dependency parent key None loc false next in
        (d, self :: parent1, next2)).
Proof.
  split; [|split; [|split; [|split]]].
  - intros c Hc Hp -> Hm Hcomp. simpl. unfold local_part. rewrite Hc.
    pose proof (resolved_of_inner self key (c, LOCAL)) as Hin.
    destruct (resolved_of_fields self key) as (F1 & _ & _).
    destruct (resolved_of self key) as [resolved self_a]. simpl in *.
    rewrite Hin, Hm, F1, Hcomp, orb_true_r. simpl.
    by rewrite Hp.
  - simpl.
    destruct (local_part (own_call key loc) self key carg loc next)
      as [[l self1] next1].
    destruct l as [d|c].
    + by exists d, self1, next1.
    + by exists None, self1, next1.
  - intros c self1 next1 Hl. split.
    + unfold local_part in Hl.
      destruct (get_container (container self) carg) as [c0|];
        [|by inversion Hl].
      destruct (resolved_of self key) as [resolved self_a].
      destruct (dict_get ident_eqb resolved (c0, loc)); [done|].
      destruct (match candidates c0 loc key with
                | [] => None
                | p :: rest => compose p (scope_id self_a) key rest
                end).
      { by destruct (dict_setdefault _ _ _ _). }
      destruct (if negb (Nat.eqb c0 (container self_a)
                         || bool_decide (loc = LOCAL))
                then own_call key loc self_a next
                else (None, self_a, next)) as [[dp s] n].
      destruct dp; [by destruct (resolved_of s key)|].
      destruct (bool_decide (parent_of c0 = None) && bool_decide (loc = LOCAL));
        by inversion Hl.
    + simpl. by rewrite Hl.
  - intros c up Hc Hp -> Hm Hcomp. simpl. unfold local_part. rewrite Hc.
    pose proof (resolved_of_inner self key (c, LOCAL)) as Hin.
    destruct (resolved_of_fields self key) as (F1 & _ & _).
    destruct (resolved_of self key) as [resolved self_a]. simpl in *.
    rewrite Hin, Hm, F1, Hcomp, orb_true_r. simpl.
    rewrite Hp. rewrite bool_decide_false by done. simpl.
    by split.
  - intros Hc. simpl. unfold local_part. by rewrite Hc.
Qed.

(** ** Further properties of the scope *)

(** X23: [is_provided] holds exactly when the scope is a real one and
    the key is a provider, or the key is in the scope ([in] looks at the
    memo, the container and [_dependencies]), or, unless [only_self], the
    key is in one of the parents; so [only_self=True] never finds more
    than [only_self=False], and a [NullScope] provides nothing. *)
Theorem is_provided_iff (chain : Chain) (key : Key) (only_self : bool) :
  (is_provided chain key only_self = true
   <-> chain <> []
       /\ (match key with KProvider _ => True | _ => False end
           \/ exists s, s ∈ (if only_self then take 1 chain else chain)
                        /\ scope_contains s key = true))
  /\ (is_provided chain key true = true -> is_provided chain key false = true).
Proof.
  assert (Hall : forall chain,
            is_provided chain key false = true
            <-> chain <> []
                /\ (match key with KProvider _ => True | _ => False end
                    \/ exists s, s ∈ chain /\ scope_contains s key = true)).
  { clear chain. induction chain as [|self parent IH]; simpl.
    - split; [done|]. by intros [? _].
    - rewrite !orb_true_iff, IH. split.
      + intros [[Hk|Hs]|[_ [Hk|(s & Hs & Hc)]]];
          (split; [done|]).
        * left. by destruct key.
        * right. exists self. split; [by left|done].
        * by left.
        * right. exists s. split; [by right|done].
      + intros [_ [Hk|(s & Hs & Hc)]].
        * left. left. by destruct key.
        * apply elem_of_cons in Hs as [->|Hs]; [by left; right|].
          right. split; [by intros ->; apply elem_of_nil in Hs|].
          right. by exists s. }
  split.
  - destruct only_self; [|apply Hall].
    destruct chain as [|self parent]; simpl.
    + split; [done|]. by intros [? _].
    + rewrite orb_false_r, orb_true_iff. split.
      * intros [Hk|Hs]; (split; [done|]).
        -- left. by destruct key.
        -- right. exists self. split; [by left|done].
      * intros [_ [Hk|(s & Hs & Hc)]].
        -- left. by destruct key.
        -- right. apply list_elem_of_singleton in Hs. by subst.
  - destruct chain as [|self parent]; simpl; [done|].
    rewrite orb_false_r. intros ->. done.
Qed.

(** ** What a lookup records *)

(** The entries of [_dependencies] under a [Dependency] key hold that
    very object: [__missing__] makes them with [setdefault(key, key)].
    A scope built without initial dependencies is in this state. *)
Definition deps_ok (self : Scope) : Prop :=
  Forall (fun e : Key * option DepObj =>
            match e.1 with
            | KDep x => e.2 = Some x
            | _ => True
            end) (_dependencies self).

Lemma deps_ok_get self d v :
  deps_ok self ->
  dict_get key_eq (_dependencies self) (KDep d) = Some v ->
  exists x, v = Some x /\ key_eq (KDep x) (KDep d) = true.
Proof.
  unfold deps_ok. induction (_dependencies self) as [|[k0 v0] l IH];
    simpl; [done|].
  intros [H0 Hl]%Forall_cons. destruct (key_eq k0 (KDep d)) eqn:E.
  - intros [= <-]. destruct k0 as [o|p|x]; try done.
    simpl in H0. by exists x.
  - by apply IH.
Qed.

Lemma deps_ok_set self k v :
  deps_ok self ->
  dict_get key_eq (_dependencies self) k = None ->
  match k with KDep x => v = Some x | _ => True end ->
  deps_ok (with_dependencies self (dict_set key_eq (_dependencies self) k v)).
Proof.
  unfold deps_ok. simpl. intros Hok Hget Hk.
  induction (_dependencies self) as [|[k0 v0] l IH]; simpl.
  - by repeat constructor.
  - apply Forall_cons in Hok as [H0 Hl]. simpl in Hget.
    destruct (key_eq k0 k) eqn:E; [done|].
    constructor; [done|by apply IH].
Qed.

Lemma touched_contains s key :
  is_Some (dict_get key_eq (_resolved s) key) -> scope_contains s key = true.
Proof.
  intros H. unfold scope_contains. by rewrite (bool_decide_true _ H).
Qed.

(** X24: the first [scope[key]] for a key that is no [Dependency]
    records its outcome in the scope, the parents being left alone.
    Afterwards [key in scope] holds, whatever was found.  When nothing
    was resolved, [None] is stored under the key in [_dependencies], so
    the miss is remembered.  When a record was resolved, it is in the
    memo under the scope's own container and the [GLOBAL] locality, the
    object returned equals it and is what [_dependencies] holds under
    it, and nothing is stored under the key itself. *)
Theorem first_lookup_records_outcome (self : Scope) (parent : Chain)
    (key : Key) (next : nat) (r : option DepObj) (chain1 : Chain)
    (next1 : nat) :
  deps_ok self ->
  dict_get key_eq (_dependencies self) key = None ->
  match key with KDep _ => False | _ => True end ->
  __getitem__ (self :: parent) key next = (r, chain1, next1) ->
  exists self1,
    chain1 = self1 :: parent
    /\ deps_ok self1
    /\ scope_contains self1 key = true
    /\ match r with
       | None => dict_get key_eq (_dependencies self1) key = Some None
       | Some x =>
           exists dep,
             memo self1 key (container self, GLOBAL) = Some dep
             /\ key_eq (KDep x) (KDep dep) = true
             /\ dict_get key_eq (_dependencies self1) (KDep dep)
                = Some (Some x)
             /\ dict_get key_eq (_dependencies self1) key = None
       end.
Proof.
  intros Hok E Hkey. unfold __getitem__. rewrite E. unfold __missing__.
  assert (Hobj :
    match _resolve_dependency (self :: parent) key None GLOBAL true next with
    | (Some dep, self0 :: parent0, next0) =>
        let '(r0, self1) := getitem_dep self0 dep in
        (r0, self1 :: parent0, next0)
    | (_, chain, next0) =>
        if is_provided chain key false
        then match chain with
             | [] => (None, chain, next0)
             | self0 :: parent0 =>
                 let '(r0, self1) := dependencies_setdefault self0 key None in
                 (r0, self1 :: parent0, next0)
             end
        else (None, chain, next0)
    end = (r, chain1, next1) ->
    exists self1,
      chain1 = self1 :: parent
      /\ deps_ok self1
      /\ scope_contains self1 key = true
      /\ match r with
         | None => dict_get key_eq (_dependencies self1) key = Some None
         | Some x =>
             exists dep,
               memo self1 key (container self, GLOBAL) = Some dep
               /\ key_eq (KDep x) (KDep dep) = true
               /\ dict_get key_eq (_dependencies self1) (KDep dep)
                  = Some (Some x)
               /\ dict_get key_eq (_dependencies self1) key = None
         end).
  { rewrite resolve_own_call.
    destruct (own_call key GLOBAL self next) as [[d s1] n1] eqn:Eo.
    destruct (own_call_good _ _ _ _ _ _ _ Eo) as (F1 & F2 & F3 & F4 & F5).
    pose proof (own_call_touches _ _ _ _ _ _ _ Eo) as Ht.
    pose proof (touched_contains _ _ Ht) as Hin.
    assert (Hok1 : deps_ok s1) by (unfold deps_ok; by rewrite F3).
    destruct d as [dep|].
    - pose proof (own_call_memo _ _ _ _ _ _ _ Eo) as Hm.
      unfold getitem_dep.
      destruct (dict_get key_eq (_dependencies s1) (KDep dep)) as [v|] eqn:Ed.
      + destruct (deps_ok_get _ _ _ Hok1 Ed) as (x & -> & Hx).
        intros [= <- <- <-]. exists s1. repeat (split; [done|]).
        exists dep. repeat (split; [done|]). by rewrite F3.
      + rewrite (dependencies_setdefault_fresh _ _ _ Ed).
        intros [= <- <- <-]. eexists. split; [done|].
        split; [by apply deps_ok_set|].
        split; [by apply touched_contains|].
        exists dep. split; [done|]. split; [apply key_eq_refl|].
        cbn [_dependencies with_dependencies]. split.
        * apply dict_get_set_eq, key_eq_refl.
        * rewrite (dict_get_set_fresh key_eq _ _ _ _ Ed), F3, E.
          by rewrite (key_eq_dep_other _ _ Hkey).
    - assert (Hp : is_provided (s1 :: parent) key false = true).
      { simpl. by rewrite Hin, orb_true_r. }
      rewrite Hp.
      assert (Ed : dict_get key_eq (_dependencies s1) key = None)
        by by rewrite F3.
      rewrite (dependencies_setdefault_fresh _ _ _ Ed).
      intros [= <- <- <-]. eexists. split; [done|].
      split; [apply deps_ok_set; [done..|by destruct key]|].
      split; [by apply touched_contains|].
      cbn [_dependencies with_dependencies].
      apply dict_get_set_eq, key_eq_refl. }
  destruct key as [o|p|d]; [apply Hobj..|done].
Qed.

(** X25: [scope[dep]] for a [Dependency] returns a [Dependency] equal
    to [dep]: [dep] itself when the scope holds no equal one yet, else
    the one already held.  Nothing is resolved or built, the parents are
    left alone, and the same lookup made again returns the same
    object. *)
Theorem getitem_dependency_is_canonical (self : Scope) (parent : Chain)
    (d : DepObj) (next : nat) (r : option DepObj) (chain1 : Chain)
    (next1 : nat) :
  deps_ok self ->
  __getitem__ (self :: parent) (KDep d) next = (r, chain1, next1) ->
  exists x self1,
    r = Some x
    /\ key_eq (KDep x) (KDep d) = true
    /\ (dict_get key_eq (_dependencies self) (KDep d) = None -> x = d)
    /\ chain1 = self1 :: parent
    /\ next1 = next
    /\ deps_ok self1
    /\ _resolved self1 = _resolved self
    /\ __getitem__ chain1 (KDep d) next1 = (Some x, chain1, next1).
Proof.
  intros Hok. unfold __getitem__ at 1.
  destruct (dict_get key_eq (_dependencies self) (KDep d)) as [v|] eqn:E.
  - destruct (deps_ok_get _ _ _ Hok E) as (x & -> & Hx).
    intros [= <- <- <-]. exists x, self. repeat (split; [done|]).
    unfold __getitem__. by rewrite E.
  - unfold __missing__. rewrite (dependencies_setdefault_fresh _ _ _ E).
    intros [= <- <- <-]. exists d. eexists.
    split; [done|]. split; [apply key_eq_refl|]. split; [done|].
    split; [done|]. split; [done|]. split; [by apply deps_ok_set|].
    split; [done|].
    unfold __getitem__. cbn [_dependencies with_dependencies].
    by rewrite dict_get_set_eq by apply key_eq_refl.
Qed.

(** ** The fallback on the scope's own container *)

Lemma resolved_of_idem (s : Scope) (key : Key) :
  resolved_of (resolved_of s key).2 key = resolved_of s key.
Proof.
  unfold resolved_of at 2 3.
  destruct (dict_get key_eq (_resolved s) key) as [r|] eqn:E; simpl.
  - unfold resolved_of. by rewrite E.
  - unfold resolved_of. simpl.
    by rewrite dict_get_set_eq by apply key_eq_refl.
Qed.

Lemma own_call_resolved_of key loc self next :
  own_call key loc (resolved_of self key).2 next = own_call key loc self next.
Proof.
  unfold own_call. rewrite !local_part_own, resolved_of_idem.
  destruct (resolved_of_fields self key) as (F1 & F2 & _).
  by rewrite F1, F2.
Qed.

(** X26: the fallback of lines 109-112.  When a search with the
    [GLOBAL] locality is asked for a container other than the scope's
    own, finds no entry in the memo and no provider composing a record
    there, the scope's own container is searched; the record found there
    is returned, no second record is built, and it is entered in the
    memo under the container asked for as well as under the scope's own,
    so both searches answer with the same object from then on. *)
Theorem global_search_falls_back_on_own_container (self : Scope)
    (parent : Chain) (key : Key) (c : Container) (carg : option Container)
    (only_self : bool) (next : nat) (d : DepObj) (s1 : Scope) (n1 : nat) :
  get_container (container self) carg = Some c ->
  c <> container self ->
  memo self key (c, GLOBAL) = None ->
  match candidates c GLOBAL key with
  | p :: rest => compose p (scope_id self) key rest
  | [] => None
  end = None ->
  _resolve_dependency (self :: parent) key None GLOBAL true next
  = (Some d, s1 :: parent, n1) ->
  exists s2,
    _resolve_dependency (self :: parent) key carg GLOBAL only_self next
    = (Some d, s2 :: parent, n1)
    /\ memo s2 key (c, GLOBAL) = Some d
    /\ memo s2 key (container self, GLOBAL) = Some d
    /\ _resolve_dependency (s2 :: parent) key carg GLOBAL only_self n1
       = (Some d, s2 :: parent, n1).
Proof.
  intros Hc Hne Hmiss Hcomp. rewrite resolve_own_call.
  destruct (own_call key GLOBAL self next) as [[d0 s0] n0] eqn:Eo.
  intros [= -> -> ->].
  pose proof (own_call_memo _ _ _ _ _ _ _ Eo) as Hown.
  destruct (own_call_good _ _ _ _ _ _ _ Eo) as (F1 & F2 & F3 & F4 & F5).
  set (s2 := set_resolved (resolved_of s1 key).2 key
               (dict_set ident_eqb (resolved_of s1 key).1 (c, GLOBAL) d)).
  assert (Hm2 : forall i, memo s2 key i
                          = if decide ((c, GLOBAL) = i) then Some d
                            else memo s1 key i).
  { intros i. unfold s2.
    by rewrite set_resolved_memo_same, ident_get_set, resolved_of_inner. }
  assert (E1 : _resolve_dependency (self :: parent) key carg GLOBAL only_self
                 next = (Some d, s2 :: parent, n1)).
  { simpl. unfold local_part. rewrite Hc.
    pose proof (resolved_of_inner self key (c, GLOBAL)) as Hin.
    pose proof (own_call_resolved_of key GLOBAL self next) as Hoc.
    destruct (resolved_of_fields self key) as (G1 & G2 & _).
    destruct (resolved_of self key) as [resolved self_a]. simpl in *.
    rewrite Hin, Hmiss, G1, Hcomp, G2.
    rewrite (proj2 (Nat.eqb_neq c (container self)) Hne). simpl.
    rewrite Hoc, Eo.
    by destruct (resolved_of s1 key) as [resolved1 self_c] eqn:E1. }
  exists s2. split; [done|].
  split; [by rewrite Hm2, decide_True|].
  split.
  { rewrite Hm2, decide_False; [done|]. intros [= ?]. done. }
  simpl. unfold local_part.
  assert (Hcont : container s2 = container self).
  { unfold s2. simpl. destruct (resolved_of_fields s1 key) as (_ & -> & _).
    done. }
  rewrite Hcont, Hc.
  pose proof (resolved_of_inner s2 key (c, GLOBAL)) as Hin.
  assert (Hres : (resolved_of s2 key).2 = s2).
  { unfold resolved_of. unfold s2 at 1. simpl.
    by rewrite dict_get_set_eq by apply key_eq_refl. }
  destruct (resolved_of s2 key) as [resolved2 s2'] eqn:E2. simpl in *.
  subst s2'. by rewrite Hin, Hm2, decide_True.
Qed.

(** ** Repeating a resolution *)

Lemma resolved_of_set_resolved (s : Scope) (key : Key) r :
  resolved_of (set_resolved s key r) key = (r, set_resolved s key r).
Proof.
  unfold resolved_of. unfold set_resolved at 1. simpl.
  by rewrite dict_get_set_eq by apply key_eq_refl.
Qed.

Lemma resolved_of_snd_idem (s : Scope) (key : Key) :
  resolved_of (resolved_of s key).2 key
  = ((resolved_of s key).1, (resolved_of s key).2).
Proof. rewrite resolved_of_idem. by destruct (resolved_of s key). Qed.

(** The call of line 110, made again after it found nothing, finds
    nothing again and changes nothing. *)
Lemma own_call_none_idem key loc s n s' n' :
  own_call key loc s n = (None, s', n') ->
  n' = n /\ s' = (resolved_of s key).2
  /\ forall m, own_call key loc s' m = (None, s', m).
Proof.
  intros H. unfold own_call in H.
  rewrite local_part_own in H. simpl in H.
  destruct (dict_get ident_eqb (resolved_of s key).1 (container s, loc))
    eqn:Ehit; [done|].
  destruct (match candidates (container s) loc key with
            | [] => None
            | p :: rest => compose p (scope_id s) key rest
            end) eqn:Ec; [done|].
  assert (E : n' = n /\ s' = (resolved_of s key).2).
  { destruct (bool_decide (parent_of (container s) = None)
              && bool_decide (loc = LOCAL));
      by injection H as <- <-. }
  destruct E as [-> ->]. split; [done|]. split; [done|].
  intros m. rewrite own_call_resolved_of.
  unfold own_call. rewrite local_part_own. simpl. rewrite Ehit, Ec.
  by destruct (bool_decide (parent_of (container s) = None)
               && bool_decide (loc = LOCAL)).
Qed.

(** Lines 92-116 made again on the state they left end the same way,
    build nothing and change nothing. *)
Lemma local_part_idem self key carg loc next l self1 next1 :
  local_part (own_call key loc) self key carg loc next = (l, self1, next1) ->
  forall m,
    local_part (own_call key loc) self1 key carg loc m = (l, self1, m).
Proof.
  intros H m.
  pose proof (local_part_keeps _ key carg loc (own_call_good key loc)
                _ _ _ _ _ H) as (K1 & K2 & _ & _).
  revert H. unfold local_part. rewrite K2.
  destruct (get_container (container self) carg) as [c|];
    [|by intros [= <- <- _]].
  pose proof (resolved_of_inner self key (c, loc)) as Hin.
  pose proof (resolved_of_snd_idem self key) as Hidem.
  destruct (resolved_of_fields self key) as (G1 & G2 & _).
  destruct (resolved_of self key) as [resolved self_a]. simpl in *.
  destruct (dict_get ident_eqb resolved (c, loc)) as [d|] eqn:Ehit.
  { intros [= <- <- _]. by rewrite Hidem, Ehit. }
  destruct (match candidates c loc key with
            | [] => None
            | p :: rest => compose p (scope_id self_a) key rest
            end) as [rec|] eqn:Ec.
  { unfold dict_setdefault. rewrite Ehit. intros [= <- <- _].
    rewrite resolved_of_set_resolved, ident_get_set.
    by rewrite decide_True. }
  destruct (negb (Nat.eqb c (container self_a) || bool_decide (loc = LOCAL)))
    eqn:Eg.
  - destruct (own_call key loc self_a next) as [[dp self_b] next_b] eqn:Ef.
    destruct dp as [d|].
    + destruct (resolved_of self_b key) as [resolved_b self_c].
      intros [= <- <- _].
      rewrite resolved_of_set_resolved, ident_get_set.
      by rewrite decide_True.
    + destruct (own_call_none_idem _ _ _ _ _ _ Ef) as (-> & Hb & Hagain).
      destruct (own_call_good _ _ _ _ _ _ _ Ef) as (F1 & F2 & F3 & F4 & F5).
      assert (Hres : resolved_of self_b key = (resolved, self_b)).
      { rewrite Hb, resolved_of_snd_idem, Hidem. done. }
      intros H.
      assert (E : self1 = self_b
                  /\ l = if bool_decide (parent_of c = None)
                             && bool_decide (loc = LOCAL)
                         then Return None else Walk (parent_of c)).
      { destruct (bool_decide (parent_of c = None) && bool_decide (loc = LOCAL));
          by injection H as <- <- _. }
      destruct E as [-> ->].
      rewrite Hres, Ehit, F1, Ec, F2, Eg, Hagain.
      by destruct (bool_decide (parent_of c = None) && bool_decide (loc = LOCAL)).
  - intros H.
    assert (E : self1 = self_a
                /\ l = if bool_decide (parent_of c = None)
                           && bool_decide (loc = LOCAL)
                       then Return None else Walk (parent_of c)).
    { destruct (bool_decide (parent_of c = None) && bool_decide (loc = LOCAL));
        by injection H as <- <- _. }
    destruct E as [-> ->]. rewrite Hidem, Ehit, Ec, Eg.
    by destruct (bool_decide (parent_of c = None) && bool_decide (loc = LOCAL)).
Qed.

Lemma resolve_idem chain :
  forall key carg loc only_self next r chain1 next1,
    _resolve_dependency chain key carg loc only_self next = (r, chain1, next1) ->
    forall m,
      _resolve_dependency chain1 key carg loc only_self m = (r, chain1, m).
Proof.
  induction chain as [|self parent IH];
    intros key carg loc only_self next r chain1 next1; simpl.
  - by intros [= <- <- _] m.
  - destruct (local_part (own_call key loc) self key carg loc next)
      as [[l self1] n1] eqn:El.
    pose proof (local_part_idem _ _ _ _ _ _ _ _ El) as El'.
    destruct l as [d|c].
    + intros [= <- <- _] m. simpl. by rewrite El'.
    + destruct only_self.
      * intros [= <- <- _] m. simpl. by rewrite El'.
      * destruct (_resolve_dependency parent key c loc false n1)
          as [[d parent1] n2] eqn:Ep.
        intros [= <- <- _] m. simpl. rewrite El'.
        by rewrite (IH _ _ _ _ _ _ _ _ Ep m).
Qed.

(** X27: a resolution made again gives the same answer: after
    [_resolve_dependency] returned, the same call on the state it left,
    whatever its arguments, returns the same object (or [None] again),
    builds no object and changes neither the scope nor its parents. *)
Theorem resolution_is_repeatable (chain : Chain) (key : Key)
    (carg : option Container) (loc : ContainerContext) (only_self : bool)
    (next : nat) (r : option DepObj) (chain1 : Chain) (next1 : nat) :
  _resolve_dependency chain key carg loc only_self next = (r, chain1, next1) ->
  _resolve_dependency chain1 key carg loc only_self next1
  = (r, chain1, next1).
Proof. intros H. by eapply resolve_idem. Qed.

End Resolution.

(** ** Concrete instances *)

(** Two containers, 1 with parent 0, and a scope on each, the scope of
    container 0 being the parent.  The key [Plain 1] has one provider,
    registered in container 0; [compose] builds a [Value] record for the
    scope it is given. *)
Definition ex_parent_of (c : Container) : option Container :=
  match c with
  | 1%nat => Some 0%nat
  | _ => None
  end.

Definition ex_lookup (self c : Container) : option Container :=
  if Nat.eqb self c then Some c else None.

Definition ex_provider : Provider := mkProvider 50%nat (Some 0%nat).

Definition ex_get_all (c : Container) (loc : ContainerContext) (k : Key)
  : list Provider :=
  match c, k with
  | 0%nat, KObj (Plain 1%nat) => [ex_provider]
  | _, _ => []
  end.

Definition ex_origin (k : Key) : option Key := None.

Definition ex_contains (c : Container) (k : Key) : bool := false.

Definition ex_compose (p : Provider) (sid : ScopeId) (k : Key)
    (rest : list Provider) : option (Dependency unit unit) :=
  match k with
  | KObj o =>
      Some (new Z.of_nat 0 1 id sum_hash unit unit
              Value o (RealScope sid 0%nat) (Some p) () ())
  | _ => None
  end.

Definition child : Scope := mkScope 11%nat 1%nat [] [].
Definition root : Scope := mkScope 10%nat 0%nat [] [].
Definition K1 : Key := KObj (Plain 1%nat).
Definition K2 : Key := KObj (Plain 2%nat).

Definition ex_getitem : Chain -> Key -> nat -> option DepObj * Chain * nat :=
  __getitem__ ex_parent_of ex_lookup ex_get_all ex_origin ex_contains
    ex_compose.

Definition ex_resolve :
  Chain -> Key -> option Container -> ContainerContext -> bool -> nat ->
  option DepObj * Chain * nat :=
  _resolve_dependency ex_parent_of ex_lookup ex_get_all ex_origin ex_compose.

(** The record [compose] builds for [K1] in the scope of container 0,
    as the first object. *)
Definition root_dep : DepObj :=
  mkDepObj 0%nat
    (new Z.of_nat 0 1 id sum_hash unit unit
       Value (Plain 1%nat) (RealScope 10%nat 0%nat) (Some ex_provider) () ()).

Lemma scope_memoizes_witness :
  ex_getitem (ex_getitem [root] K1 0%nat).1.2 K1 (ex_getitem [root] K1 0%nat).2
  = (Some root_dep, (ex_getitem [root] K1 0%nat).1.2, 1%nat).
Proof.
  apply (scope_memoizes ex_parent_of ex_lookup ex_get_all ex_origin
           ex_contains ex_compose [root] K1 0%nat).
  reflexivity.
Defined.

Lemma resolve_stops_or_delegates_witness :
  ex_resolve [root; child] K2 None LOCAL false 0%nat
  = (None, [mkScope 10%nat 0%nat [] [(K2, [])]; child], 0%nat).
Proof.
  apply (proj1 (resolve_stops_or_delegates ex_parent_of ex_lookup ex_get_all
                  ex_origin ex_compose root [child] K2 None LOCAL false
                  0%nat) 0%nat);
    reflexivity.
Defined.

(** C5 as stated fails: a resolution with locality [LOCAL] that starts
    in the scope of container 1 goes on, container 1 having a parent, to
    the parent scope, and returns the record built from the [LOCAL]
    registry of container 0. *)
Lemma local_resolution_reaches_parent :
  ex_resolve [child; root] K1 None LOCAL false 0%nat
  = (Some root_dep,
     [mkScope 11%nat 1%nat [] [(K1, [])];
      mkScope 10%nat 0%nat [] [(K1, [((0%nat, LOCAL), root_dep)])]],
     1%nat)
  /\ ex_resolve [child; root] K1 None LOCAL true 0%nat
     = (None, [mkScope 11%nat 1%nat [] [(K1, [])]; root], 0%nat).
Proof. split; reflexivity. Qed.

Lemma is_provided_iff_witness :
  is_provided ex_contains
    [mkScope 11%nat 1%nat [(K1, None)] []; root] K1 false = true.
Proof.
  apply (proj2 (is_provided_iff ex_contains
                  [mkScope 11%nat 1%nat [(K1, None)] []; root] K1 true)).
  reflexivity.
Defined.

Lemma first_lookup_records_outcome_witness :
  exists self1,
    (ex_getitem [root; child] K2 0%nat).1.2 = self1 :: [child]
    /\ deps_ok self1
    /\ scope_contains ex_contains self1 K2 = true
    /\ dict_get key_eq (_dependencies self1) K2 = Some None.
Proof.
  apply (first_lookup_records_outcome ex_parent_of ex_lookup ex_get_all
           ex_origin ex_contains ex_compose root [child] K2 0%nat None
           (ex_getitem [root; child] K2 0%nat).1.2 0%nat).
  - constructor.
  - reflexivity.
  - exact I.
  - reflexivity.
Defined.

Lemma getitem_dependency_is_canonical_witness :
  exists x self1,
    Some root_dep = Some x
    /\ key_eq (KDep x) (KDep root_dep) = true
    /\ (dict_get key_eq (_dependencies root) (KDep root_dep) = None ->
        x = root_dep)
    /\ (ex_getitem [root] (KDep root_dep) 5%nat).1.2 = self1 :: []
    /\ 5%nat = 5%nat
    /\ deps_ok self1
    /\ _resolved self1 = _resolved root
    /\ ex_getitem (ex_getitem [root] (KDep root_dep) 5%nat).1.2
         (KDep root_dep) 5%nat
       = (Some x, (ex_getitem [root] (KDep root_dep) 5%nat).1.2, 5%nat).
Proof.
  apply (getitem_dependency_is_canonical ex_parent_of ex_lookup ex_get_all
           ex_origin ex_contains ex_compose root [] root_dep 5%nat
           (Some root_dep) (ex_getitem [root] (KDep root_dep) 5%nat).1.2
           5%nat).
  - constructor.
  - reflexivity.
Defined.

(** A container lookup that finds every container. *)
Definition ex_lookup_any (self c : Container) : option Container := Some c.

Lemma global_search_falls_back_on_own_container_witness :
  exists s2,
    _resolve_dependency ex_parent_of ex_lookup_any ex_get_all ex_origin
      ex_compose [root] K1 (Some 5%nat) GLOBAL false 0%nat
    = (Some root_dep, [s2], 1%nat)
    /\ memo s2 K1 (5%nat, GLOBAL) = Some root_dep
    /\ memo s2 K1 (container root, GLOBAL) = Some root_dep
    /\ _resolve_dependency ex_parent_of ex_lookup_any ex_get_all ex_origin
         ex_compose [s2] K1 (Some 5%nat) GLOBAL false 1%nat
       = (Some root_dep, [s2], 1%nat).
Proof.
  apply (global_search_falls_back_on_own_container ex_parent_of ex_lookup_any
           ex_get_all ex_origin ex_compose root [] K1 5%nat (Some 5%nat)
           false 0%nat root_dep
           (mkScope 10%nat 0%nat [] [(K1, [((0%nat, GLOBAL), root_dep)])])
           1%nat).
  - reflexivity.
  - discriminate.
  - reflexivity.
  - reflexivity.
  - reflexivity.
Defined.

Lemma resolution_is_repeatable_witness :
  ex_resolve
    [mkScope 11%nat 1%nat [] [(K1, [])];
     mkScope 10%nat 0%nat [] [(K1, [((0%nat, LOCAL), root_dep)])]]
    K1 None LOCAL false 1%nat
  = (Some root_dep,
     [mkScope 11%nat 1%nat [] [(K1, [])];
      mkScope 10%nat 0%nat [] [(K1, [((0%nat, LOCAL), root_dep)])]],
     1%nat).
Proof.
  apply (resolution_is_repeatable ex_parent_of ex_lookup ex_get_all ex_origin
           ex_compose [child; root] K1 None LOCAL false 0%nat).
  reflexivity.
Defined.

End Scopes.

(** * Bit flags ([src/xdi/_common/enum.py]) *)

Module Enums.

(** Python's [int] is unbounded and its [&] and [|] work on the two's
    complement representation, as [Z.land] and [Z.lor] do. *)

(** [_is_bit] (lines 445-447): [v & (v-1) == 0]. *)
Definition _is_bit (v : Z) : bool := Z.land v (v - 1) =? 0.

(** [BitSetFlag._compose] (lines 316-317):
    [reduce(lambda a, b: a | int(b), bits, int(inital))]. *)
Definition _compose (bits : list Z) (inital : Z) : Z :=
  fold_left (fun a b => Z.lor a b) bits inital.

(** [BitSetFlag._is_composite] (lines 331-332) and the test of
    [BitSetFlag.isdisjoint] (line 338), on the members' values. *)
Definition _is_composite (v : Z) : bool := negb (_is_bit v).

Definition isdisjoint (a b : Z) : bool := Z.land a b =? 0.

Lemma land_pow2_pred k : 0 <= k -> Z.land (2 ^ k) (2 ^ k - 1) = 0.
Proof.
  intros Hk. apply Z.bits_inj'. intros n Hn.
  rewrite Z.land_spec, Z.bits_0, Z.pow2_bits_eqb by done.
  destruct (Z.eqb_spec k n) as [->|Hne]; [|done].
  replace (2 ^ n - 1) with (Z.ones n) by (rewrite Z.ones_equiv; lia).
  by rewrite Z.ones_spec_high by lia.
Qed.

Lemma _compose_testbit bits : forall inital n,
  Z.testbit (_compose bits inital) n
  = Z.testbit inital n || existsb (fun b => Z.testbit b n) bits.
Proof.
  unfold _compose.
  induction bits as [|b bits IH]; intros inital n; simpl.
  - by rewrite orb_false_r.
  - by rewrite IH, Z.lor_spec, orb_assoc.
Qed.

(** X29: [_is_bit(v)] holds exactly for 0 and the powers of two; no
    negative number and no number with two or more bits set passes, so
    a flag member is composite exactly when its value is neither. *)
Theorem _is_bit_iff (v : Z) :
  (_is_bit v = true <-> v = 0 \/ exists k, 0 <= k /\ v = 2 ^ k)
  /\ (_is_composite v = true <-> v <> 0 /\ forall k, 0 <= k -> v <> 2 ^ k).
Proof.
  assert (Hbit : _is_bit v = true <-> v = 0 \/ exists k, 0 <= k /\ v = 2 ^ k).
  { unfold _is_bit. rewrite Z.eqb_eq. split.
    - intros H.
      destruct (Z.lt_trichotomy v 0) as [Hneg|[->|Hpos]]; [|by left|].
      + assert (Z.land v (v - 1) < 0) by (apply Z.land_neg; lia). lia.
      + right. exists (Z.log2 v).
        pose proof (Z.log2_nonneg v) as Hk.
        pose proof (Z.log2_spec v Hpos) as [Hlo Hhi].
        split; [done|].
        destruct (decide (v = 2 ^ Z.log2 v)) as [|Hne]; [done|exfalso].
        assert (Hk' : Z.log2 (v - 1) = Z.log2 v).
        { apply Z.log2_unique; [done|]. lia. }
        assert (Hb : Z.testbit (Z.land v (v - 1)) (Z.log2 v) = true).
        { rewrite Z.land_spec, Z.bit_log2 by done.
          rewrite <- Hk'. rewrite Z.bit_log2; [done|].
          assert (0 < 2 ^ Z.log2 v) by (apply Z.pow_pos_nonneg; lia). lia. }
        by rewrite H, Z.bits_0 in Hb.
    - intros [->|(k & Hk & ->)]; [done|]. by apply land_pow2_pred. }
  split; [done|].
  unfold _is_composite. rewrite negb_true_iff, <- not_true_iff_false, Hbit.
  split.
  - intros Hn. split; [by intros ->; apply Hn; left|].
    intros k Hk ->. apply Hn. right. by exists k.
  - intros [H0 Hp] [->|(k & Hk & ->)]; [done|]. by apply (Hp k).
Qed.

(** X30: [_compose(bits, initial)] has exactly the bits set that
    [initial] or one of [bits] has.  So every composed value contains
    each of its parts, the order of the parts does not matter, composing
    in two rounds equals composing once, and a value is disjoint from
    the composition exactly when it is disjoint from [initial] and from
    every part. *)
Theorem _compose_is_the_union_of_bits (bits bits' : list Z) (inital x : Z) :
  (forall n, Z.testbit (_compose bits inital) n
             = Z.testbit inital n || existsb (fun b => Z.testbit b n) bits)
  /\ (forall b, b ∈ bits ->
        Z.land b (_compose bits inital) = b)
  /\ Z.land inital (_compose bits inital) = inital
  /\ (bits ≡ₚ bits' -> _compose bits inital = _compose bits' inital)
  /\ _compose (bits ++ bits') inital = _compose bits' (_compose bits inital)
  /\ (isdisjoint x (_compose bits inital) = true
       <-> isdisjoint x inital = true
           /\ forall b, b ∈ bits -> isdisjoint x b = true).
Proof.
  split; [intros n; apply _compose_testbit|].
  split.
  { intros b Hb. apply Z.bits_inj'. intros n _.
    rewrite Z.land_spec, _compose_testbit.
    destruct (Z.testbit b n) eqn:E; [|done]. simpl.
    apply orb_true_iff. right. apply existsb_exists. exists b.
    split; [by apply list_elem_of_In|done]. }
  split.
  { apply Z.bits_inj'. intros n _.
    rewrite Z.land_spec, _compose_testbit.
    by destruct (Z.testbit inital n). }
  split.
  { intros Hp. apply Z.bits_inj'. intros n _.
    rewrite !_compose_testbit. f_equal.
    apply eq_true_iff_eq. rewrite !existsb_exists.
    split; intros (b & Hb & Ht); exists b; split; try done.
    - apply list_elem_of_In. rewrite <- Hp. by apply list_elem_of_In.
    - apply list_elem_of_In. rewrite Hp. by apply list_elem_of_In. }
  split; [apply fold_left_app|].
  unfold isdisjoint. rewrite !Z.eqb_eq. split.
  - intros H.
    assert (Hn : forall n, 0 <= n ->
              Z.testbit x n
              && (Z.testbit inital n
                  || existsb (fun b => Z.testbit b n) bits) = false).
    { intros n Hn. by rewrite <- _compose_testbit, <- Z.land_spec, H, Z.bits_0. }
    split.
    + apply Z.bits_inj'. intros n Hn0. specialize (Hn n Hn0).
      rewrite Z.land_spec, Z.bits_0.
      destruct (Z.testbit x n); [|done].
      by destruct (Z.testbit inital n).
    + intros b Hb. rewrite Z.eqb_eq.
      apply Z.bits_inj'. intros n Hn0. specialize (Hn n Hn0).
      rewrite Z.land_spec, Z.bits_0.
      destruct (Z.testbit x n); [|done]. simpl in *.
      apply orb_false_iff in Hn as [_ Hn].
      destruct (Z.testbit b n) eqn:E; [|done].
      rewrite <- Hn. symmetry. apply existsb_exists. exists b.
      split; [by apply list_elem_of_In|done].
  - intros [Hi Hb]. apply Z.bits_inj'. intros n Hn.
    rewrite Z.land_spec, Z.bits_0, _compose_testbit.
    destruct (Z.testbit x n) eqn:Ex; [|done]. simpl.
    apply orb_false_iff. split.
    + assert (Z.testbit (Z.land x inital) n = false) by (by rewrite Hi, Z.bits_0).
      by rewrite Z.land_spec, Ex in H.
    + apply not_true_iff_false. intros (b & Hin & Ht)%existsb_exists.
      apply list_elem_of_In in Hin. specialize (Hb b Hin).
      rewrite Z.eqb_eq in Hb.
      assert (Z.testbit (Z.land x b) n = false) by (by rewrite Hb, Z.bits_0).
      rewrite Z.land_spec, Ex, Ht in H. done.
Qed.

End Enums.
